(** * Heatmap decoding of [oth_simple_pose_resnet.py]

    A shallow embedding of the keypoint decoder of
    [gluon/gluoncv2/models/others/oth_simple_pose_resnet.py]
    ([get_max_pred], [affine_transform], [get_3rd_point], [get_dir],
    [get_affine_transform], [transform_preds], [_get_final_preds]) and of
    [SimplePoseResNet._get_deconv_cfg] and
    [SimplePoseResNet._make_deconv_layer], with the properties the
    specification states about them and further properties of the code.

    Modelling conventions.
    - Array entries are rationals ([Q]): every float is a finite number and
      arithmetic on values is exact.  Two effects of the element types are
      modelled: the flat index of a peak is rounded to the significand of
      the type that holds it ([argmax] stores it in the type of the
      heatmaps, [get_max_pred] converts it to [float32]), and the in-place
      operators of MXNet raise on operands of different types.
    - [cv2.getAffineTransform] is OpenCV's: Gaussian elimination with
      partial pivoting that gives up, and returns the zero matrix, on a
      pivot below [DBL_EPSILON * 100].
    - Batches with an empty axis are outside the model: on them MXNet's
      [reshape] ends the process, which no Python code observes.  Every
      statement about what the decoder returns assumes axes that are not
      empty.
    - MXNet [NDArray]s live in a store of buffers.  A handle names a buffer,
      an offset and a shape, so that basic indexing ([a[i]]) and [reshape]
      return views that alias the buffer, as they do in MXNet.
    - Every Python statement that can raise does so in the monad [M]; the
      store reached so far is kept when an exception is raised.
    - [_make_deconv_layer] is modelled by the blocks it adds, each with
      the arguments of its constructor, and by the attribute of [self] it
      assigns; Gluon's layers themselves are not modelled.
    - Named arrays ([idx], [maxvals], [preds], [pred_mask],
      [target_coords]) are allocated in the store.  Values of
      sub-expressions, and the small NumPy locals of
      [get_affine_transform] and [affine_transform], are passed by value:
      they are never aliased and never escape their function. *)

From Stdlib Require Import QArith Qround Qabs ZArith Lia Lqa.
From stdpp Require Import base list strings.

(** ** Python results and the store monad *)

Inductive exn : Type :=
| IndexError          (* tuple, list or array index out of range *)
| ValueError          (* asscalar on an array that is not of size 1 *)
| MXNetError          (* an operator of MXNet refused its operands *)
| UnboundLocalError.  (* a local variable read before assignment *)

Inductive result (A : Type) : Type :=
| Ok (a : A)
| Raise (e : exn).
Arguments Ok {A} a.
Arguments Raise {A} e.

Abbreviation loc := nat (only parsing).

(** The store: buffer [l] is the [l]-th element.  Allocation appends. *)
Abbreviation store := (list (list Q)) (only parsing).

Definition M (A : Type) : Type := store → result A * store.

Definition ret {A} (a : A) : M A := λ σ, (Ok a, σ).

Definition raise {A} (e : exn) : M A := λ σ, (Raise e, σ).

Definition bind {A B} (m : M A) (k : A → M B) : M B :=
  λ σ, match m σ with
       | (Ok a, σ') => k a σ'
       | (Raise e, σ') => (Raise e, σ')
       end.

Notation "x <- m ;; k" := (bind m (λ x, k))
  (at level 100, m at level 99, k at level 200, right associativity).
Notation "m ;;; k" := (bind m (λ _, k))
  (at level 100, k at level 200, right associativity).

Definition lift {A} (r : result A) : M A := λ σ, (r, σ).

(** [for x in l: body(x)] *)
Fixpoint for_each {A} (l : list A) (body : A → M unit) : M unit :=
  match l with
  | [] => ret tt
  | a :: l' => body a ;;; for_each l' body
  end.

(** [for i in range(n): body(i)] *)
Definition for_range (n : nat) (body : nat → M unit) : M unit :=
  for_each (seq 0 n) body.

(** ** NDArray handles *)

(** The element types the model covers.  Entries are rationals whatever
    the type; the type decides how many bits of an index survive when
    [argmax] stores it, and which in-place operations MXNet accepts. *)
Inductive dtype : Type :=
| float32
| float64.

#[global] Instance dtype_eq_dec : EqDecision dtype.
Proof. solve_decision. Defined.

Record NDArray : Type := mkND {
  nd_loc : loc;
  nd_off : nat;
  nd_shape : list nat;
  nd_dtype : dtype
}.

Definition size (shape : list nat) : nat := foldr Nat.mul 1 shape.

Definition nd_size (a : NDArray) : nat := size (nd_shape a).

(** The elements a view covers in its buffer. *)
Definition window (a : NDArray) (buf : list Q) : list Q :=
  take (nd_size a) (drop (nd_off a) buf).

Definition nd_alloc (shape : list nat) (dt : dtype) (d : list Q)
    : M NDArray :=
  λ σ, (Ok (mkND (length σ) 0 shape dt), σ ++ [d]).

Definition nd_read (a : NDArray) : M (list Q) :=
  λ σ, match σ !! nd_loc a with
       | Some buf => (Ok (window a buf), σ)
       | None => (Raise MXNetError, σ)
       end.

Definition nd_write (a : NDArray) (d : list Q) : M unit :=
  λ σ, match σ !! nd_loc a with
       | Some buf => (Ok tt, <[nd_loc a := list_inserts (nd_off a) d buf]> σ)
       | None => (Raise MXNetError, σ)
       end.

(** [a.shape[k]] *)
Definition shape_at (a : NDArray) (k : nat) : M nat :=
  match nd_shape a !! k with
  | Some n => ret n
  | None => raise IndexError
  end.

(** [a[i]] for a Python integer [i]: basic indexing, a view of [a].
    Negative indices count from the end. *)
Definition getitem (a : NDArray) (i : Z) : M NDArray :=
  match nd_shape a with
  | [] => raise IndexError
  | d :: sh =>
      if ((0 <=? i) && (i <? Z.of_nat d))%Z
      then ret (mkND (nd_loc a) (nd_off a + Z.to_nat i * size sh) sh
                     (nd_dtype a))
      else if ((- Z.of_nat d <=? i) && (i <? 0))%Z
      then ret (mkND (nd_loc a)
                     (nd_off a + Z.to_nat (i + Z.of_nat d) * size sh) sh
                     (nd_dtype a))
      else raise IndexError
  end.

(** [a.asscalar()] *)
Definition asscalar (a : NDArray) : M Q :=
  d <- nd_read a ;;
  match d with
  | [v] => ret v
  | _ => raise ValueError
  end.

(** [a.reshape((n, j, -1))]: a view of the same buffer. *)
Definition reshape3 (a : NDArray) (n j : nat) : NDArray :=
  mkND (nd_loc a) (nd_off a) [n; j; nd_size a / (n * j)] (nd_dtype a).

(** [a.reshape((n, j, 1))] *)
Definition reshape_nj1 (a : NDArray) (n j : nat) : NDArray :=
  mkND (nd_loc a) (nd_off a) [n; j; 1] (nd_dtype a).

(** The first [n] consecutive chunks of length [k] of a flat buffer. *)
Fixpoint chunks (n k : nat) (d : list Q) : list (list Q) :=
  match n with
  | O => []
  | S n' => take k d :: chunks n' k (drop k d)
  end.

(** Index and value of the maximum of [l], scanning left to right and
    keeping the earliest maximum; [(bi, b)] is the best seen so far and [i]
    the index of the head of [l]. *)
Fixpoint scan_max (bi : nat) (b : Q) (i : nat) (l : list Q) : nat * Q :=
  match l with
  | [] => (bi, b)
  | v :: l' =>
      if Qlt_le_dec b v then scan_max i v (S i) l'
      else scan_max bi b (S i) l'
  end.

Definition argmax_max (l : list Q) : option (nat * Q) :=
  match l with
  | [] => None
  | v :: l' => Some (scan_max 0 v 1 l')
  end.

Definition of_nat (i : nat) : Q := inject_Z (Z.of_nat i).

(** A whole number [z >= 0] rounded to a float with a significand of [p]
    bits, to nearest and to even on a tie; overflow is out of reach of an
    index. *)
Definition round_to_bits (p z : Z) : Z :=
  if (z <? 2 ^ p)%Z then z
  else
    let e := (Z.log2 z + 1 - p)%Z in
    let q := (z / 2 ^ e)%Z in
    let r := (z mod 2 ^ e)%Z in
    let half := (2 ^ (e - 1))%Z in
    let q := if ((half <? r) || ((r =? half) && Z.odd q))%Z
             then (q + 1)%Z else q in
    (q * 2 ^ e)%Z.

(** The bits of the significand, the hidden one included. *)
Definition significand (dt : dtype) : Z :=
  match dt with
  | float32 => 24%Z
  | float64 => 53%Z
  end.

(** The index [i] as [argmax] stores it in an array of type [dt]. *)
Definition stored_index (dt : dtype) (i : nat) : Q :=
  inject_Z (round_to_bits (significand dt) (Z.of_nat i)).

(** [astype(np.float32)] of an entry of [idx], which is a whole number. *)
Definition index_to_float32 (v : Q) : Q :=
  inject_Z (round_to_bits 24 (Qfloor v)).

(** [mx.nd.argmax(a, 2)] and [mx.nd.max(a, 2)] of a 3-D array: a new array
    of shape [(n, j)] and of the type of [a].  Arrays with an empty axis
    are refused. *)
Definition reduce_axis2 (f : nat * Q → Q) (a : NDArray) : M NDArray :=
  d <- nd_read a ;;
  match nd_shape a with
  | [n; j; k] =>
      match mapM argmax_max (chunks (n * j) k d) with
      | Some r => nd_alloc [n; j] (nd_dtype a) (f <$> r)
      | None => raise MXNetError
      end
  | _ => raise MXNetError
  end.

Definition nd_argmax2 (a : NDArray) : M NDArray :=
  reduce_axis2 (λ r, stored_index (nd_dtype a) (fst r)) a.

Definition nd_max2 : NDArray → M NDArray := reduce_axis2 snd.

(** [mx.nd.tile(a, (1, 1, 2))] of an array of shape [(n, j, 1)], as values *)
Definition tile2 (d : list Q) : list Q := d ≫= λ v, [v; v].

(** [a[:, :, c] = f(a[:, :, c])] on a 3-D array, in place. *)
Definition update_column (a : NDArray) (c : nat) (f : Q → Q) : M unit :=
  d <- nd_read a ;;
  match nd_shape a with
  | [n; j; k] => nd_write a (concat (alter f c <$> chunks (n * j) k d))
  | _ => raise MXNetError
  end.

(** [x % w] of MXNet on floats, for a positive [w] *)
Definition Qmod (x w : Q) : Q := (x - w * inject_Z (Qfloor (x / w)))%Q.

(** [mx.nd.greater(x, 0.0)]: 1.0 or 0.0 *)
Definition greater0 (x : Q) : Q := if Qlt_le_dec 0 x then 1%Q else 0%Q.

(** [a *= b], elementwise and in place, for arrays of one shape; MXNet
    refuses operands of different types. *)
Definition nd_imul (a b : NDArray) : M unit :=
  x <- nd_read a ;;
  y <- nd_read b ;;
  if decide (nd_dtype a = nd_dtype b)
  then nd_write a (zip_with Qmult x y)
  else raise MXNetError.

(** [a += v], elementwise and in place, for a temporary [v] of type [dt];
    the operands must agree in size and in type. *)
Definition nd_iadd (a : NDArray) (dt : dtype) (v : list Q) : M unit :=
  x <- nd_read a ;;
  if decide (length x = length v ∧ nd_dtype a = dt)
  then nd_write a (zip_with Qplus x v)
  else raise MXNetError.

(** ** [get_max_pred] *)

Definition get_max_pred (batch_heatmaps : NDArray) : M (NDArray * NDArray) :=
  batch_size <- shape_at batch_heatmaps 0 ;;
  num_joints <- shape_at batch_heatmaps 1 ;;
  width <- shape_at batch_heatmaps 3 ;;
  let heatmaps_reshaped := reshape3 batch_heatmaps batch_size num_joints in
  idx <- nd_argmax2 heatmaps_reshaped ;;
  maxvals <- nd_max2 heatmaps_reshaped ;;
  let maxvals := reshape_nj1 maxvals batch_size num_joints in
  let idx := reshape_nj1 idx batch_size num_joints in
  idx_data <- nd_read idx ;;
  preds <- nd_alloc [batch_size; num_joints; 2] float32
                    (index_to_float32 <$> tile2 idx_data) ;;
  update_column preds 0 (λ v, Qmod v (of_nat width)) ;;;
  update_column preds 1 (λ v, inject_Z (Qfloor (v / of_nat width))) ;;;
  maxvals_data <- nd_read maxvals ;;
  pred_mask <- nd_alloc [batch_size; num_joints; 2] float32
                        (tile2 (greater0 <$> maxvals_data)) ;;
  nd_imul preds pred_mask ;;;
  ret (preds, maxvals).

(** ** Points and affine maps *)

Abbreviation pt := (Q * Q)%type (only parsing).

Definition vadd (a b : pt) : pt := (fst a + fst b, snd a + snd b)%Q.
Definition vsub (a b : pt) : pt := (fst a - fst b, snd a - snd b)%Q.
Definition vmul (a b : pt) : pt := (fst a * fst b, snd a * snd b)%Q.

(** A 2x3 matrix, row by row. *)
Record mat23 : Type := mkMat {
  m00 : Q; m01 : Q; m02 : Q;
  m10 : Q; m11 : Q; m12 : Q
}.

(** A 3x2 array: three points. *)
Record tri : Type := mkTri { row0 : pt; row1 : pt; row2 : pt }.

Definition zeros32 : tri := mkTri (0, 0)%Q (0, 0)%Q (0, 0)%Q.
Definition set_row0 (t : tri) (v : pt) : tri := mkTri v (row1 t) (row2 t).
Definition set_row1 (t : tri) (v : pt) : tri := mkTri (row0 t) v (row2 t).
(** [t[2:, :] = v] *)
Definition set_rows_from2 (t : tri) (v : pt) : tri := mkTri (row0 t) (row1 t) v.

(** [pt] is a NumPy vector; [pt[0]] and [pt[1]] must exist. *)
Definition affine_transform (p : list Q) (t : mat23) : result (list Q) :=
  match p with
  | x :: y :: _ =>
      let new_pt := (x, y, 1%Q) in
      let '(a, b, c) := new_pt in
      Ok [ m00 t * a + m01 t * b + m02 t * c ;
           m10 t * a + m11 t * b + m12 t * c ]%Q
  | _ => Raise IndexError
  end.

Definition get_3rd_point (a b : pt) : pt :=
  let direct := vsub a b in
  vadd b (- snd direct, fst direct)%Q.

(** [np.pi], [np.sin] and [np.cos], whose values are not rational. *)
Class NumpyTrig : Type := {
  np_pi : Q;
  np_sin : Q → Q;
  np_cos : Q → Q
}.

(** What the decoder needs of them: the exact values at a zero angle. *)
Class TrigAtZero (T : NumpyTrig) : Prop := {
  np_sin_0 : ∀ x, (x == 0)%Q → (np_sin x == 0)%Q;
  np_cos_0 : ∀ x, (x == 0)%Q → (np_cos x == 1)%Q
}.

Definition get_dir `{trig : NumpyTrig} (src_point : pt) (rot_rad : Q) : pt :=
  let sn := np_sin rot_rad in
  let cs := np_cos rot_rad in
  (fst src_point * cs - snd src_point * sn,
   fst src_point * sn + snd src_point * cs)%Q.

(** [cv2.getAffineTransform(src, dst)], after OpenCV's [imgwarp.cpp] and
    [LUImpl] of [matrix_decomp.cpp]: the six entries of the matrix are the
    unknowns of six linear equations, two for each pair of points, solved by
    Gaussian elimination with partial pivoting.  The arithmetic is exact;
    the threshold on the pivots is the one of the code. *)

(** One equation of a linear system: the coefficients of the unknowns that
    are still to be eliminated, and the right-hand side. *)
Abbreviation equation := (list Q * Q)%type (only parsing).

(** [A[j][i]], the coefficient of the unknown being eliminated *)
Definition lead (r : equation) : Q := hd 0%Q (fst r).

(** [DBL_EPSILON * 100]: [LUImpl] gives up on a pivot below it. *)
Definition lu_eps : Q := 100 * (1 # 4503599627370496).

(** [k = i; for j in i+1..m-1: if |A[j][i]| > |A[k][i]|: k = j], with
    [best] the value of [|A[k][i]|] *)
Fixpoint pivot_search (k : nat) (best : Q) (j : nat) (column : list Q)
    : nat :=
  match column with
  | [] => k
  | v :: column' =>
      if Qlt_le_dec best (Qabs v) then pivot_search j (Qabs v) (S j) column'
      else pivot_search k best (S j) column'
  end.

(** The choice of the pivot among the equations that are left, and the
    exchange of its equation with the first: the pivot's equation and the
    others, or nothing when the pivot is below [lu_eps]. *)
Definition lu_pivot (rows : list equation)
    : option (equation * list equation) :=
  match rows with
  | [] => None
  | first :: rest =>
      let k := pivot_search 0 (Qabs (lead first)) 1 (lead <$> rest) in
      match rows !! k with
      | Some pivot =>
          if Qlt_le_dec (Qabs (lead pivot)) lu_eps then None
          else Some (pivot, tail (<[k := first]> rows))
      | None => None
      end
  end.

(** [alpha = A[j][i] * d; A[j][k] += alpha * A[i][k]; b[j] += alpha * b[i]].
    A value that is stored is stored in lowest terms ([Qred]), which does
    not change it. *)
Definition reduce_row (pivot : equation) (d : Q) (r : equation) : equation :=
  let alpha := (lead r * d)%Q in
  (zip_with (λ x p, Qred (x + alpha * p)) (tail (fst r)) (tail (fst pivot)),
   Qred (snd r + alpha * snd pivot)).

(** The elimination loop of [LUImpl] on [m] unknowns: the equations in
    triangular form, the i-th without its first i coefficients, or nothing
    when a pivot was below [lu_eps]. *)
Fixpoint lu_eliminate (m : nat) (rows : list equation)
    : option (list equation) :=
  match m with
  | O => Some []
  | S m' =>
      match lu_pivot rows with
      | Some (pivot, rest) =>
          let d := (- (1) / lead pivot)%Q in
          cons pivot <$> lu_eliminate m' (reduce_row pivot d <$> rest)
      | None => None
      end
  end.

Definition dot (a x : list Q) : Q := foldr Qplus 0%Q (zip_with Qmult a x).

(** The second loop of [LUImpl]: from the last equation to the first,
    [s = b[i] - sum_k A[i][k] * b[k]; b[i] = s / A[i][i]]. *)
Fixpoint back_substitute (rows : list equation) : list Q :=
  match rows with
  | [] => []
  | r :: rows' =>
      let x := back_substitute rows' in
      Qred ((snd r - dot (tail (fst r)) x) / lead r) :: x
  end.

(** The two equations a pair of points contributes: [a b 1 0 0 0 | u] and
    [0 0 0 a b 1 | v]. *)
Definition affine_equations (s d : pt) : list equation :=
  [ ([fst s; snd s; 1; 0; 0; 0]%Q, fst d);
    ([0; 0; 0; fst s; snd s; 1]%Q, snd d) ].

Definition affine_system (src dst : tri) : list equation :=
  affine_equations (row0 src) (row0 dst)
  ++ affine_equations (row1 src) (row1 dst)
  ++ affine_equations (row2 src) (row2 dst).

(** [cv2.solve(A, B, X)] with the default [DECOMP_LU] *)
Definition cv_solve (m : nat) (rows : list equation) : option (list Q) :=
  back_substitute <$> lu_eliminate m rows.

(** [cv2.getAffineTransform(src, dst)]: the six entries solve the system
    of the three pairs of points; when [solve] fails the matrix is left at
    zero. *)
Definition getAffineTransform (src dst : tri) : mat23 :=
  match cv_solve 6 (affine_system src dst) with
  | Some [a; b; c; d; e; f] => mkMat a b c d e f
  | _ => mkMat 0 0 0 0 0 0
  end.

(** The [scale] argument: a number, or an array or list of two numbers. *)
Inductive scale_arg : Type :=
| ScaleNumber (s : Q)
| ScaleArray (s : pt).

(** The arrays [src] and [dst] as [get_affine_transform] has filled them
    when it reaches [if inv]. *)
Definition reference_points `{trig : NumpyTrig} (center : pt) (scale : scale_arg)
    (rot : Q) (output_size : pt) (shift : pt) : tri * tri :=
  let scale :=
    match scale with
    | ScaleNumber s => (s, s)
    | ScaleArray v => v
    end in
  let scale_tmp := scale in
  let src_w := fst scale_tmp in
  let dst_w := fst output_size in
  let dst_h := snd output_size in
  let rot_rad := (np_pi * rot / 180)%Q in
  let src_dir := get_dir (0, src_w * - (1 # 2))%Q rot_rad in
  let dst_dir := (0, dst_w * - (1 # 2))%Q in
  let src := zeros32 in
  let dst := zeros32 in
  let src := set_row0 src (vadd center (vmul scale_tmp shift)) in
  let src := set_row1 src (vadd (vadd center src_dir)
                                (vmul scale_tmp shift)) in
  let dst := set_row0 dst (dst_w * (1 # 2), dst_h * (1 # 2))%Q in
  let dst := set_row1 dst (vadd (dst_w * (1 # 2), dst_h * (1 # 2))%Q
                                dst_dir) in
  let src := set_rows_from2 src (get_3rd_point (row0 src) (row1 src)) in
  let dst := set_rows_from2 dst (get_3rd_point (row0 dst) (row1 dst)) in
  (src, dst).

Definition default_shift : pt := (0, 0)%Q.

(** [inv] is an integer used as a truth value. *)
Definition get_affine_transform `{trig : NumpyTrig} (center : pt)
    (scale : scale_arg) (rot : Q) (output_size : pt) (shift : pt)
    (inv : Z) : mat23 :=
  let '(src, dst) := reference_points center scale rot output_size shift in
  if (inv =? 0)%Z then getAffineTransform src dst
  else getAffineTransform dst src.

(** ** [transform_preds] *)

(** [a[p, 0:2]] of a 2-D array: a view of the first two entries of row [p]. *)
Definition getitem_row2 (a : NDArray) (p : nat) : M NDArray :=
  match nd_shape a with
  | [d; c] =>
      if decide (p < d)
      then ret (mkND (nd_loc a) (nd_off a + p * c) [c `min` 2]
                     (nd_dtype a))
      else raise IndexError
  | _ => raise IndexError
  end.

(** [mx.nd.zeros(shape)], of the default type *)
Definition nd_zeros (shape : list nat) : M NDArray :=
  nd_alloc shape float32 (replicate (size shape) 0%Q).

(** [mx.nd.zeros_like(a)] *)
Definition nd_zeros_like (a : NDArray) : M NDArray :=
  nd_alloc (nd_shape a) (nd_dtype a) (replicate (nd_size a) 0%Q).

Definition transform_preds `{trig : NumpyTrig} (coords : NDArray)
    (center scale : pt) (output_size : pt) : M NDArray :=
  target_coords <- nd_zeros (nd_shape coords) ;;
  let trans := get_affine_transform center (ScaleArray scale) 0 output_size
                                    default_shift 1 in
  rows <- shape_at coords 0 ;;
  for_range rows (λ p,
    src_row <- getitem_row2 coords p ;;
    xy <- nd_read src_row ;;
    new_pt <- lift (affine_transform xy trans) ;;
    dst_row <- getitem_row2 target_coords p ;;
    nd_write dst_row new_pt) ;;;
  ret target_coords.

(** ** [_get_final_preds] *)

Fixpoint pairs (d : list Q) : list pt :=
  match d with
  | x :: y :: d' => (x, y) :: pairs d'
  | _ => []
  end.

(** [a.asnumpy()] for [center] and [scale], which are arrays of shape
    [(m, 2)]: a copy of the rows, by value.  The statements below take the
    shape as a hypothesis ([rows2]); arrays of another shape, which NumPy
    would index and broadcast differently, are outside the model. *)
Definition asnumpy_rows (a : NDArray) : M (list pt) :=
  d <- nd_read a ;;
  ret (pairs d).

(** [rows[i]] of a NumPy array *)
Definition np_row (rows : list pt) (i : nat) : M pt :=
  match rows !! i with
  | Some r => ret r
  | None => raise IndexError
  end.

(** [mx.nd.sign] *)
Definition Qsign (v : Q) : Q := inject_Z (Z.sgn (Qnum v)).

(** [hm[i][j]] *)
Definition getitem2 (a : NDArray) (i j : Z) : M NDArray :=
  r <- getitem a i ;;
  getitem r j.

(** [hm[i1][j1] - hm[i2][j2]], as values *)
Definition elem_diff (hm : NDArray) (i1 j1 i2 j2 : Z) : M (list Q) :=
  a <- getitem2 hm i1 j1 ;;
  b <- getitem2 hm i2 j2 ;;
  x <- nd_read a ;;
  y <- nd_read b ;;
  ret (zip_with Qminus x y).

(** [int(mx.nd.floor(coords[n][p][k] + 0.5).asscalar())] *)
Definition rounded (coords : NDArray) (n p : nat) (k : Z) : M Z :=
  c <- getitem2 coords (Z.of_nat n) (Z.of_nat p) ;;
  e <- getitem c k ;;
  v <- asscalar e ;;
  ret (Qfloor (v + (1 # 2))).

(** [1 < px < heatmap_width-1 and 1 < py < heatmap_height-1] *)
Definition interior (heatmap_width heatmap_height : nat) (px py : Z) : bool :=
  ((1 <? px) && (px <? Z.of_nat heatmap_width - 1)
   && (1 <? py) && (py <? Z.of_nat heatmap_height - 1))%Z.

(** The loop under [# post-processing]. *)
Definition post_processing (batch_heatmaps coords : NDArray)
    (heatmap_width heatmap_height : nat) : M unit :=
  images <- shape_at coords 0 ;;
  for_range images (λ n,
    joints <- shape_at coords 1 ;;
    for_range joints (λ p,
      hm <- getitem2 batch_heatmaps (Z.of_nat n) (Z.of_nat p) ;;
      px <- rounded coords n p 0 ;;
      py <- rounded coords n p 1 ;;
      if interior heatmap_width heatmap_height px py
      then
        dx <- elem_diff hm py (px + 1) py (px - 1) ;;
        dy <- elem_diff hm (py + 1) px (py - 1) px ;;
        let diff := dx ++ dy in
        c <- getitem2 coords (Z.of_nat n) (Z.of_nat p) ;;
        nd_iadd c (nd_dtype hm) ((λ v, Qsign v * (1 # 4))%Q <$> diff)
      else ret tt)).

(** The loop under [# Transform back]. *)
Definition transform_back `{trig : NumpyTrig} (coords preds : NDArray)
    (center_ scale_ : list pt) (heatmap_width heatmap_height : nat)
    : M unit :=
  images <- shape_at coords 0 ;;
  for_range images (λ i,
    coords_i <- getitem coords (Z.of_nat i) ;;
    c <- np_row center_ i ;;
    s <- np_row scale_ i ;;
    target <- transform_preds coords_i c s
                (of_nat heatmap_width, of_nat heatmap_height) ;;
    preds_i <- getitem preds (Z.of_nat i) ;;
    d <- nd_read target ;;
    nd_write preds_i d).

Definition _get_final_preds `{trig : NumpyTrig} (batch_heatmaps center scale : NDArray)
    : M (NDArray * NDArray) :=
  center_ <- asnumpy_rows center ;;
  scale_ <- asnumpy_rows scale ;;
  r <- get_max_pred batch_heatmaps ;;
  let '(coords, maxvals) := r in
  heatmap_height <- shape_at batch_heatmaps 2 ;;
  heatmap_width <- shape_at batch_heatmaps 3 ;;
  post_processing batch_heatmaps coords heatmap_width heatmap_height ;;;
  preds <- nd_zeros_like coords ;;
  transform_back coords preds center_ scale_ heatmap_width heatmap_height ;;;
  ret (preds, maxvals).

(** ** [_get_deconv_cfg] *)

(** The two locals are unbound until a branch assigns them; [return] reads
    them. *)
Definition read_local {A} (x : option A) : result A :=
  match x with
  | Some v => Ok v
  | None => Raise UnboundLocalError
  end.

Definition _get_deconv_cfg (deconv_kernel : Z) : result (Z * Z * Z) :=
  let '(padding, output_padding) :=
    if (deconv_kernel =? 4)%Z then (Some 1%Z, Some 0%Z)
    else if (deconv_kernel =? 3)%Z then (Some 1%Z, Some 1%Z)
    else if (deconv_kernel =? 2)%Z then (Some 0%Z, Some 0%Z)
    else (None, None) in
  match read_local padding with
  | Raise e => Raise e
  | Ok p =>
      match read_local output_padding with
      | Raise e => Raise e
      | Ok op => Ok (deconv_kernel, p, op)
      end
  end.

(** ** [_make_deconv_layer] *)

(** The arguments of [mxnet.initializer] the constructor passes on. *)
Inductive initializer : Type :=
| Normal (sigma : Q)
| Zero
| One.

(** The blocks [_make_deconv_layer] adds to its [HybridSequential], by
    their constructor and arguments. *)
Inductive block : Type :=
| Conv2DTranspose (channels kernel_size strides padding output_padding : Z)
    (use_bias : bool) (weight_initializer bias_initializer : initializer)
| BatchNormCudnnOff (gamma_initializer beta_initializer : initializer)
| Activation (activation : string).

(** The attributes of [self] the method reads and writes; [inplanes] does
    not exist until the loop assigns it. *)
Record attrs : Type := mkAttrs {
  deconv_with_bias : bool;
  inplanes : option Z
}.

Definition set_inplanes (self : attrs) (planes : Z) : attrs :=
  mkAttrs (deconv_with_bias self) (Some planes).

(** What a call of the method comes to: a value, a failed [assert] with
    its message, or another exception. *)
Inductive outcome (A : Type) : Type :=
| Returned (a : A)
| AssertionError (message : string)
| Raised (e : exn).
Arguments Returned {A} a.
Arguments AssertionError {A} message.
Arguments Raised {A} e.

(** The loop [for i in range(num_layers)]; [layer] is the sequence of
    blocks added so far. *)
Fixpoint deconv_loop (range : list nat) (num_filters num_kernels : list Z)
    (layer : list block) (self : attrs) : outcome (list block) * attrs :=
  match range with
  | [] => (Returned layer, self)
  | i :: range' =>
      match num_kernels !! i with
      | None => (Raised IndexError, self)
      | Some deconv_kernel =>
          match _get_deconv_cfg deconv_kernel with
          | Raise e => (Raised e, self)
          | Ok (kernel, padding, output_padding) =>
              match num_filters !! i with
              | None => (Raised IndexError, self)
              | Some planes =>
                  let layer :=
                    layer ++ [Conv2DTranspose planes kernel 2 padding
                                output_padding (deconv_with_bias self)
                                (Normal (1 # 1000)) Zero] in
                  let layer := layer ++ [BatchNormCudnnOff One Zero] in
                  let layer := layer ++ [Activation "relu"] in
                  deconv_loop range' num_filters num_kernels layer
                              (set_inplanes self planes)
              end
          end
      end
  end.

Definition deconv_assert_message : string :=
  "ERROR: num_deconv_layers is different from len(num_deconv_filters)".

Definition _make_deconv_layer (self : attrs) (num_layers : Z)
    (num_filters num_kernels : list Z) : outcome (list block) * attrs :=
  if negb (num_layers =? Z.of_nat (length num_filters))%Z
  then (AssertionError deconv_assert_message, self)
  else if negb (num_layers =? Z.of_nat (length num_kernels))%Z
  then (AssertionError deconv_assert_message, self)
  else deconv_loop (seq 0 (Z.to_nat num_layers)) num_filters num_kernels
                   [] self.

(** The kernel sizes [_get_deconv_cfg] has a branch for. *)
Definition known_kernel (k : Z) : Prop := k = 2%Z ∨ k = 3%Z ∨ k = 4%Z.

(** The three blocks of one deconvolution layer. *)
Definition deconv_blocks (bias : bool) (fk : Z * Z) : list block :=
  [ Conv2DTranspose (fst fk) (snd fk) 2
      (if (snd fk =? 2)%Z then 0%Z else 1%Z)
      (if (snd fk =? 3)%Z then 1%Z else 0%Z)
      bias (Normal (1 # 1000)) Zero;
    BatchNormCudnnOff One Zero;
    Activation "relu" ].


(** A rational stand-in for NumPy's functions, exact at a zero angle, on
    which the decoder can be run. *)
Definition taylor_trig : NumpyTrig :=
  {| np_pi := 355 # 113;
     np_sin := λ x, (x - x * x * x / 6)%Q;
     np_cos := λ x, (1 - x * x / 2)%Q |}.

(** ** Observing the store *)

(** The entries of [a] in store [σ], in row-major order. *)
Definition contents (σ : store) (a : NDArray) : list Q :=
  match σ !! nd_loc a with
  | Some buf => window a buf
  | None => []
  end.

(** A handle whose view lies within an allocated buffer. *)
Definition valid (σ : store) (a : NDArray) : Prop :=
  ∃ buf, σ !! nd_loc a = Some buf ∧ nd_off a + nd_size a ≤ length buf.

(** The [H]x[W] grid of joint [i] of a flat batch, flattened. *)
Definition grid (H W : nat) (d : list Q) (i : nat) : list Q :=
  take (H * W) (drop (i * (H * W)) d).

(** [a[n, p, k]] of a 3-D array *)
Definition entry3 (σ : store) (a : NDArray) (n p k : nat) : option Q :=
  match nd_shape a with
  | [_; J; K] => contents σ a !! ((n * J + p) * K + k)
  | _ => None
  end.

(** The flattened grid [a[n][p]] of a 4-D batch *)
Definition heatmap (σ : store) (a : NDArray) (n p : nat) : list Q :=
  match nd_shape a with
  | [_; J; H; W] => grid H W (contents σ a) (n * J + p)
  | _ => []
  end.

(** A heatmap batch: a handle of shape [(N, J, H, W)] without empty axes,
    whose view lies in an allocated buffer of [σ]. *)
Definition batch4 (σ : store) (a : NDArray) (N J H W : nat) : Prop :=
  nd_shape a = [N; J; H; W] ∧ valid σ a
  ∧ 0 < N ∧ 0 < J ∧ 0 < H ∧ 0 < W.

(** An array of [N] points, as [center] and [scale] are. *)
Definition rows2 (σ : store) (a : NDArray) (N : nat) : Prop :=
  nd_shape a = [N; 2] ∧ valid σ a.

(** What [get_max_pred] leaves in [preds] for a joint whose grid has its
    first maximum [snd r] at index [fst r]. *)
Definition peak_xy (width : nat) (r : nat * Q) : list Q :=
  [ Qmod (of_nat (fst r)) (of_nat width) * greater0 (snd r);
    inject_Z (Qfloor (of_nat (fst r) / of_nat width)) * greater0 (snd r) ]%Q.

(** The index [i] as it arrives in [preds]: stored by [argmax] in the type
    of the heatmaps, then converted to [float32]. *)
Definition float32_index (dt : dtype) (i : nat) : nat :=
  Z.to_nat (round_to_bits 24 (round_to_bits (significand dt) (Z.of_nat i))).

(** What [get_max_pred] leaves in [preds] for a joint of a batch of type
    [dt] whose grid has its first maximum [snd r] at index [fst r]. *)
Definition stored_peak (dt : dtype) (width : nat) (r : nat * Q) : list Q :=
  peak_xy width (float32_index dt (fst r), snd r).

(** The largest number of cells whose indices [float32] holds exactly. *)
Definition float32_exact : nat := Z.to_nat (2 ^ 24).

(** [m] is the maximum of [g] and [i] the first index that attains it. *)
Definition first_max (g : list Q) (i : nat) (m : Q) : Prop :=
  g !! i = Some m
  ∧ (∀ j v, g !! j = Some v → (v <= m)%Q)
  ∧ (∀ j v, j < i → g !! j = Some v → (v < m)%Q).

(** ** The post-processing loop, as a function on the buffer of [coords] *)

(** [g[r][c]] of a flattened grid with rows of length [W] *)
Definition pix (W : nat) (g : list Q) (r c : Z) : Q :=
  default 0%Q (g !! (Z.to_nat r * W + Z.to_nat c)).

(** What one iteration leaves for a joint with grid [g] and coordinates
    [xy]. *)
Definition refine_xy (W H : nat) (g : list Q) (xy : list Q) : list Q :=
  match xy with
  | [x; y] =>
      let px := Qfloor (x + (1 # 2)) in
      let py := Qfloor (y + (1 # 2)) in
      if interior W H px py
      then [ x + Qsign (pix W g py (px + 1) - pix W g py (px - 1)) * (1 # 4);
             y + Qsign (pix W g (py + 1) px - pix W g (py - 1) px) * (1 # 4)
           ]%Q
      else [x; y]
  | _ => xy
  end.

(** Block [i] of [B], of [K] entries from offset [o + i * K], replaced by
    [f i] of its contents. *)
Definition update_block (K : nat) (f : nat → list Q → list Q) (o : nat)
    (B : list Q) (i : nat) : list Q :=
  list_inserts (o + i * K) (f i (take K (drop (o + i * K) B))) B.

(** The iteration for joint [i] on buffer [B]; [hd] is the heatmap batch
    and [oc] the offset of [coords] in [B]. *)
Definition refine_at (W H : nat) (hd : list Q) (oc : nat) (B : list Q)
    (i : nat) : list Q :=
  list_inserts (oc + i * 2)
    (refine_xy W H (grid H W hd i) (take 2 (drop (oc + i * 2) B))) B.

Definition refine_row (W H : nat) (hd : list Q) (oc J : nat) (B : list Q)
    (n : nat) : list Q :=
  foldl (λ B p, refine_at W H hd oc B (n * J + p)) B (seq 0 J).

Definition refine_all (W H : nat) (hd : list Q) (oc N J : nat)
    (B : list Q) : list Q :=
  foldl (refine_row W H hd oc J) B (seq 0 N).

(** Whether the loop reaches its [+=] at joint [i]: the rounded
    location read from buffer [B] of [coords] is in the interior. *)
Definition interior_at (W H oc : nat) (B : list Q) (i : nat) : bool :=
  match take 2 (drop (oc + i * 2) B) with
  | [x; y] => interior W H (Qfloor (x + (1 # 2))) (Qfloor (y + (1 # 2)))
  | _ => false
  end.

Definition any_interior (W H oc N J : nat) (B : list Q) : bool :=
  existsb (λ n, existsb (λ p, interior_at W H oc B (n * J + p)) (seq 0 J))
          (seq 0 N).

(** In [_get_final_preds] the coordinates are [float32]: on heatmaps of
    another type the loop is refused at the first [+=] it reaches, and
    returns without a change when it reaches none. *)
Definition refused (dt : dtype) (W H N J : nat) (B : list Q) : bool :=
  if decide (dt = float32) then false else any_interior W H 0 N J B.

Definition coords_after (dt : dtype) (W H : nat) (hd : list Q) (N J : nat)
    (B : list Q) : list Q :=
  if decide (dt = float32) then refine_all W H hd 0 N J B else B.

(** ** The transform-back loop, as functions on buffers *)

(** [affine_transform] of a point that has both its coordinates *)
Definition affine_xy (t : mat23) (xy : list Q) : list Q :=
  match affine_transform xy t with
  | Ok r => r
  | Raise _ => []
  end.

(** The matrix [transform_preds] computes for one image. *)
Definition inverse_transform `{trig : NumpyTrig} (W H : nat) (c s : pt) : mat23 :=
  get_affine_transform c (ScaleArray s) 0 (of_nat W, of_nat H)
                       default_shift 1.

(** [target_coords] when [transform_preds] returns; [src] is the buffer of
    [coords], read from offset [o], with [J] rows. *)
Definition target_buffer (t : mat23) (src : list Q) (o J : nat) : list Q :=
  foldl (update_block 2 (λ p _, affine_xy t (take 2 (drop (o + p * 2) src))) 0)
        (replicate (J * 2) 0%Q) (seq 0 J).

(** [target_coords] for image [i]. *)
Definition image_target `{trig : NumpyTrig} (W H : nat) (centers scales : list pt)
    (src : list Q) (oc J i : nat) : list Q :=
  target_buffer
    (inverse_transform W H (default (0, 0)%Q (centers !! i))
                           (default (0, 0)%Q (scales !! i)))
    src (oc + i * (J * 2)) J.

(** The buffer of [preds] after the loop under [# Transform back]. *)
Definition preds_buffer `{trig : NumpyTrig} (W H : nat) (centers scales : list pt)
    (src : list Q) (oc N J op : nat) (P : list Q) : list Q :=
  foldl (update_block (J * 2)
           (λ i _, image_target W H centers scales src oc J i) op)
        P (seq 0 N).

(** ** The pipeline in the words of the specification *)

#[global] Instance Qle_dec (x y : Q) : Decision (x <= y)%Q :=
  match Qlt_le_dec y x with
  | left Hlt => right (Qlt_not_le _ _ Hlt)
  | right Hle => left Hle
  end.

#[global] Instance Qlt_dec (x y : Q) : Decision (x < y)%Q :=
  match Qlt_le_dec x y with
  | left Hlt => left Hlt
  | right Hle => right (Qle_not_lt _ _ Hle)
  end.

(** [v] is a maximum of the flattened grid [g]. *)
Definition is_maximum (g : list Q) (v : Q) : Prop :=
  Forall (λ u, (u <= v)%Q) g.

(** [locate_peaks], for one (image, joint) pair: the first index in
    row-major order whose value is the maximum, decoded as
    [(index mod W, floor(index / W))], the maximum as confidence, and the
    coordinate forced to (0, 0) when the confidence is not positive. *)
Definition locate_peak (W : nat) (g : list Q) : option ((Q * Q) * Q) :=
  match list_find (is_maximum g) g with
  | Some (index, confidence) =>
      Some (if decide (confidence <= 0)%Q then (0, 0)%Q
            else (of_nat (index mod W), of_nat (index / W)),
            confidence)
  | None => None
  end.

Definition sign (v : Q) : Q :=
  if decide (0 < v)%Q then 1%Q
  else if decide (v < 0)%Q then (- (1))%Q
  else 0%Q.

(** [refine_subpixel], for one (image, joint) pair with grid [g]. *)
Definition refine_subpixel (W H : nat) (g : list Q) (coord : Q * Q)
    : Q * Q :=
  let px := Qfloor (fst coord + (1 # 2)) in
  let py := Qfloor (snd coord + (1 # 2)) in
  if decide (1 < px < Z.of_nat W - 1 ∧ 1 < py < Z.of_nat H - 1)%Z
  then (fst coord
          + (1 # 4) * sign (pix W g py (px + 1) - pix W g py (px - 1)),
        snd coord
          + (1 # 4) * sign (pix W g (py + 1) px - pix W g (py - 1) px))%Q
  else coord.

(** [to_image_space], for one joint of an image with the given center and
    scale: the inverse transform for no rotation and the heatmap's size,
    applied to the homogeneous coordinate (x, y, 1). *)
Definition to_image_space `{trig : NumpyTrig} (W H : nat)
    (center scale coord : Q * Q) : Q * Q :=
  let t := get_affine_transform center (ScaleArray scale) 0
             (of_nat W, of_nat H) default_shift 1 in
  (m00 t * fst coord + m01 t * snd coord + m02 t * 1,
   m10 t * fst coord + m11 t * snd coord + m12 t * 1)%Q.

(** [decode], for one (image, joint) pair. *)
Definition decode `{trig : NumpyTrig} (W H : nat) (g : list Q)
    (center scale : Q * Q) : option ((Q * Q) * Q) :=
  match locate_peak W g with
  | Some (coord, confidence) =>
      let coord := refine_subpixel W H g coord in
      Some (to_image_space W H center scale coord, confidence)
  | None => None
  end.

(** ** Frames *)

(** [m] leaves the first [L] buffers of the store as they are, whether it
    returns or raises, never shrinks the store, and returns values that
    satisfy [Q]. *)
Definition keeps (L : nat) {A} (m : M A) (Q : A → Prop) : Prop :=
  ∀ σ, L ≤ length σ →
    take L (m σ).2 = take L σ
    ∧ length σ ≤ length (m σ).2
    ∧ ∀ a, (m σ).1 = Ok a → Q a.

(** Handles of buffers allocated after the first [L]. *)
Definition fresh (L : nat) (a : NDArray) : Prop := L ≤ nd_loc a.

(** ** Equality of values *)

(** Rationals are compared by [==]; points, triangles of points and
    matrices componentwise. *)
Definition pt_eq (a b : pt) : Prop :=
  (fst a == fst b)%Q ∧ (snd a == snd b)%Q.

Definition tri_eq (s t : tri) : Prop :=
  pt_eq (row0 s) (row0 t) ∧ pt_eq (row1 s) (row1 t) ∧ pt_eq (row2 s) (row2 t).

Definition mat_eq (a b : mat23) : Prop :=
  (m00 a == m00 b ∧ m01 a == m01 b ∧ m02 a == m02 b
   ∧ m10 a == m10 b ∧ m11 a == m11 b ∧ m12 a == m12 b)%Q.

(** Source point 1 as the specification words it,
    [center + rotate(scale × [0, -0.5], rotation) + scale·shift], with
    [scale × [0, -0.5]] read as the elementwise product. *)
Definition source_point1_elementwise `{trig : NumpyTrig} (center scale : pt)
    (rot : Q) (shift : pt) : pt :=
  vadd (vadd center (get_dir (vmul scale (0, - (1 # 2))%Q)
                             (np_pi * rot / 180)%Q))
       (vmul scale shift).

(** ** Statements about affine maps *)



(** Twice the signed area of a triangle: zero when its points are
    collinear. *)
Definition det3 (s : tri) : Q :=
  let '(x0, y0) := row0 s in
  let '(x1, y1) := row1 s in
  let '(x2, y2) := row2 s in
  ((x1 - x0) * (y2 - y0) - (x2 - x0) * (y1 - y0))%Q.



(** Equations with equal coefficients, and right-hand sides related by
    [P]. *)
Definition coef_eq (r r' : list Q * Q) : Prop :=
  Forall2 Qeq (fst r) (fst r').

Definition row_rel (P : Q → Q → Prop) (r r' : list Q * Q) : Prop :=
  coef_eq r r' ∧ P (snd r) (snd r').

(** No relation between the right-hand sides: the choice of the pivots
    does not look at them. *)
Abbreviation any_rhs := (λ _ _ : Q, True) (only parsing).




(** ** Concrete inputs *)

(** One image, one joint, a 5x5 heatmap with its peak 5 at row 2, column 3;
    buffer 1 is [center], buffer 2 is [scale]. *)
Definition demo_store : store :=
  [ [0;0;0;0;0; 0;0;0;0;0; 0;0;1;5;3; 0;0;2;0;0; 0;0;0;0;0]%Q ;
    [10; 20]%Q ; [8; 8]%Q ].
Definition demo_heatmaps : NDArray := mkND 0 0 [1; 1; 5; 5] float32.
Definition demo_center : NDArray := mkND 1 0 [1; 2] float32.
Definition demo_scale : NDArray := mkND 2 0 [1; 2] float32.

(** One image, one joint, a 1x2 heatmap without a positive entry. *)
Definition dark_store : store := [ [-1; 0]%Q ].
Definition dark_heatmaps : NDArray := mkND 0 0 [1; 1; 1; 2] float32.

(** The inputs of [demo_store] with another second component of [scale]. *)
Definition demo_store_tall : store :=
  [ [0;0;0;0;0; 0;0;0;0;0; 0;0;1;5;3; 0;0;2;0;0; 0;0;0;0;0]%Q ;
    [10; 20]%Q ; [8; 99]%Q ].

(** A [(1, 1, 2)] array of coordinates next to the heatmap of [demo_store]:
    the peak's own location. *)
Definition demo_coords_store : store :=
  [ [0;0;0;0;0; 0;0;0;0;0; 0;0;1;5;3; 0;0;2;0;0; 0;0;0;0;0]%Q ;
    [3; 2]%Q ].
Definition demo_coords : NDArray := mkND 1 0 [1; 1; 2] float32.

(** The one row of [demo_coords], as [transform_preds] gets it. *)
Definition demo_row : NDArray := mkND 1 0 [1; 2] float32.

(** The heatmap of [demo_store] as an array of element type [float64]. *)
Definition demo_heatmaps64 : NDArray := mkND 0 0 [1; 1; 5; 5] float64.


(** One image, one joint, a 64x48 heatmap that is 1 at row 5, column 7 and
    0 elsewhere. *)
Definition one_hot_store : store :=
  [ <[5 * 48 + 7 := 1%Q]> (replicate (64 * 48) 0%Q) ].
Definition one_hot_heatmaps : NDArray := mkND 0 0 [1; 1; 64; 48] float32.

(** The 1x2 heatmap of [dark_store] with a [(1, 1, 2)] array of
    coordinates. *)
Definition narrow_store : store := [ [-1; 0]%Q ; [1; 0]%Q ].





(** * Proofs *)

(** ** Running the monad *)

Lemma run_bind {A B} (m : M A) (k : A → M B) σ a σ' :
  m σ = (Ok a, σ') → (x <- m ;; k x) σ = k a σ'.
Proof. intros Hm. unfold bind. by rewrite Hm. Qed.

Lemma run_bind_raise {A B} (m : M A) (k : A → M B) σ e σ' :
  m σ = (Raise e, σ') → (x <- m ;; k x) σ = (Raise e, σ').
Proof. intros Hm. unfold bind. by rewrite Hm. Qed.

Lemma run_nd_read a σ buf :
  σ !! nd_loc a = Some buf → nd_read a σ = (Ok (window a buf), σ).
Proof. intros Hb. unfold nd_read. by rewrite Hb. Qed.

Lemma run_nd_write a d σ buf :
  σ !! nd_loc a = Some buf →
  nd_write a d σ = (Ok tt, <[nd_loc a := list_inserts (nd_off a) d buf]> σ).
Proof. intros Hb. unfold nd_write. by rewrite Hb. Qed.

(** ** Lists: chunks, tiles and windows *)

Lemma length_bind_const {A} (f : A → list Q) (l : list A) k :
  (∀ x, length (f x) = k) → length (l ≫= f) = length l * k.
Proof.
  intros Hf. induction l as [|x l IH]; [done|].
  rewrite bind_cons, length_app, Hf, IH. simpl. lia.
Qed.

Lemma length_tile2 d : length (tile2 d) = length d * 2.
Proof. by apply length_bind_const. Qed.

Lemma chunks_bind {A} (f : A → list Q) (l : list A) k :
  (∀ x, length (f x) = k) → chunks (length l) k (l ≫= f) = f <$> l.
Proof.
  intros Hf. induction l as [|x l IH]; [done|].
  rewrite bind_cons. simpl. f_equal.
  - rewrite take_app_length'; [done|]. by rewrite Hf.
  - rewrite drop_app_length'; [done|]. by rewrite Hf.
Qed.

Lemma concat_fmap_bind {A} (f : A → list Q) (l : list A) :
  concat (f <$> l) = l ≫= f.
Proof. induction l as [|x l IH]; [done|]. by rewrite fmap_cons, bind_cons; simpl; rewrite IH. Qed.

Lemma length_chunks n k d : length (chunks n k d) = n.
Proof. revert d. induction n as [|n IH]; intros d; simpl; [done|]. by rewrite IH. Qed.

Lemma lookup_chunks n k d i :
  i < n → chunks n k d !! i = Some (take k (drop (i * k) d)).
Proof.
  revert d i. induction n as [|n IH]; intros d i Hi; [lia|].
  destruct i as [|i]; simpl; [done|].
  rewrite IH by lia. by rewrite drop_drop.
Qed.

Lemma list_inserts_all {A} (new old : list A) :
  length new = length old → list_inserts 0 new old = new.
Proof.
  intros Hl. rewrite <-(app_nil_r old).
  rewrite list_inserts_0_r by done. by rewrite app_nil_r.
Qed.

Lemma lookup_app_add {A} (l1 l2 : list A) i :
  (l1 ++ l2) !! (length l1 + i) = l2 !! i.
Proof. rewrite lookup_app_r by lia. f_equal. lia. Qed.

Lemma run_reduce_axis2 f a σ buf n j k r :
  σ !! nd_loc a = Some buf →
  nd_shape a = [n; j; k] →
  mapM argmax_max (chunks (n * j) k (window a buf)) = Some r →
  reduce_axis2 f a σ
  = (Ok (mkND (length σ) 0 [n; j] (nd_dtype a)), σ ++ [f <$> r]).
Proof.
  intros Hb Hs Hr. unfold reduce_axis2.
  erewrite run_bind by (by apply run_nd_read).
  by rewrite Hs, Hr.
Qed.

Lemma run_update_column a c f σ buf n j k :
  σ !! nd_loc a = Some buf →
  nd_shape a = [n; j; k] →
  update_column a c f σ =
    (Ok tt, <[nd_loc a := list_inserts (nd_off a)
               (concat (alter f c <$> chunks (n * j) k (window a buf))) buf]> σ).
Proof.
  intros Hb Hs. unfold update_column.
  erewrite run_bind by (by apply run_nd_read).
  rewrite Hs. by apply run_nd_write.
Qed.

(** Handles allocated after [σ]: the store is [σ ++ ext] and the buffer is
    the [k]-th of [ext]. *)
Lemma run_alloc_ext sh dt d σ ext :
  nd_alloc sh dt d (σ ++ ext)
  = (Ok (mkND (length σ + length ext) 0 sh dt), σ ++ (ext ++ [d])).
Proof. unfold nd_alloc. by rewrite length_app, app_assoc. Qed.

Lemma run_read_ext k o sh dt σ ext buf :
  ext !! k = Some buf →
  nd_read (mkND (length σ + k) o sh dt) (σ ++ ext)
  = (Ok (window (mkND (length σ + k) o sh dt) buf), σ ++ ext).
Proof.
  intros Hk. apply run_nd_read. cbn [nd_loc]. by rewrite lookup_app_add.
Qed.

Lemma run_write_ext k o sh dt d σ ext buf :
  ext !! k = Some buf →
  nd_write (mkND (length σ + k) o sh dt) d (σ ++ ext)
  = (Ok tt, σ ++ <[k := list_inserts o d buf]> ext).
Proof.
  intros Hk. erewrite run_nd_write
    by (cbn [nd_loc]; rewrite lookup_app_add; exact Hk).
  cbn [nd_loc nd_off]. by rewrite insert_app_r.
Qed.

Lemma run_update_column_ext k o n j c' dt c f σ ext buf :
  ext !! k = Some buf →
  update_column (mkND (length σ + k) o [n; j; c'] dt) c f (σ ++ ext)
  = (Ok tt, σ ++ <[k := list_inserts o
        (concat (alter f c <$> chunks (n * j) c'
           (window (mkND (length σ + k) o [n; j; c'] dt) buf))) buf]> ext).
Proof.
  intros Hk. erewrite run_update_column;
    [|cbn [nd_loc]; rewrite lookup_app_add; exact Hk|done].
  cbn [nd_loc nd_off]. by rewrite insert_app_r.
Qed.

Lemma run_imul_ext ka oa sha kb ob shb dt σ ext x y :
  ext !! ka = Some x →
  ext !! kb = Some y →
  nd_imul (mkND (length σ + ka) oa sha dt) (mkND (length σ + kb) ob shb dt)
          (σ ++ ext)
  = (Ok tt, σ ++ <[ka := list_inserts oa
        (zip_with Qmult (window (mkND (length σ + ka) oa sha dt) x)
                        (window (mkND (length σ + kb) ob shb dt) y)) x]> ext).
Proof.
  intros Ha Hb. unfold nd_imul.
  erewrite run_bind by (by apply run_read_ext).
  erewrite run_bind by (by apply run_read_ext).
  cbn [nd_dtype]. rewrite decide_True by done.
  by apply run_write_ext.
Qed.

Lemma window_all a d :
  nd_off a = 0 → length d ≤ nd_size a → window a d = d.
Proof. intros Ho Hl. unfold window. rewrite Ho, drop_0. by apply take_ge. Qed.

Lemma tile2_fmap {A} (F : A → Q) (l : list A) :
  tile2 (F <$> l) = l ≫= λ x, [F x; F x].
Proof.
  unfold tile2. induction l as [|x l IH]; [done|].
  rewrite fmap_cons, !bind_cons. by rewrite IH.
Qed.

Lemma column0_bind {A} (f : Q → Q) (g h : A → Q) (l : list A) n :
  length l = n →
  concat (alter f 0 <$> chunks n 2 (l ≫= λ x, [g x; h x]))
  = l ≫= λ x, [f (g x); h x].
Proof.
  intros <-. rewrite chunks_bind by done.
  rewrite <-list_fmap_compose. by rewrite concat_fmap_bind.
Qed.

Lemma column1_bind {A} (f : Q → Q) (g h : A → Q) (l : list A) n :
  length l = n →
  concat (alter f 1 <$> chunks n 2 (l ≫= λ x, [g x; h x]))
  = l ≫= λ x, [g x; f (h x)].
Proof.
  intros <-. rewrite chunks_bind by done.
  rewrite <-list_fmap_compose. by rewrite concat_fmap_bind.
Qed.

Lemma zip_with_bind2 {A} (op : Q → Q → Q) (a b c d : A → Q) (l : list A) :
  zip_with op (l ≫= λ x, [a x; b x]) (l ≫= λ x, [c x; d x])
  = l ≫= λ x, [op (a x) (c x); op (b x) (d x)].
Proof.
  induction l as [|x l IH]; [done|].
  rewrite !bind_cons. simpl. by rewrite IH.
Qed.

Lemma length_pairwise {A} (a b : A → Q) (l : list A) :
  length (l ≫= λ x, [a x; b x]) = length l * 2.
Proof. by apply length_bind_const. Qed.

Lemma argmax_max_chunks n k d :
  0 < k → n * k ≤ length d →
  ∃ r, mapM argmax_max (chunks n k d) = Some r.
Proof.
  intros Hk Hd. apply mapM_is_Some, Forall_lookup. intros i c Hc.
  assert (i < n) as Hi.
  { apply lookup_lt_Some in Hc. by rewrite length_chunks in Hc. }
  rewrite lookup_chunks in Hc by done. inversion Hc as [Hc'].
  assert (length (take k (drop (i * k) d)) = k) as Hl.
  { rewrite length_take, length_drop. nia. }
  destruct (take k (drop (i * k) d)); simpl in *; [lia|]. by eexists.
Qed.

Lemma round_to_bits_nonneg p z : (0 <= z)%Z → (0 <= round_to_bits p z)%Z.
Proof.
  intros Hz. unfold round_to_bits. destruct (z <? 2 ^ p)%Z; [done|].
  cbv zeta. apply Z.mul_nonneg_nonneg; [|apply Z.pow_nonneg; lia].
  pose proof (Z.div_pos z (2 ^ (Z.log2 z + 1 - p)) Hz) as Hq.
  destruct (decide (0 < 2 ^ (Z.log2 z + 1 - p))%Z) as [Hpos|Hneg].
  - specialize (Hq Hpos). destruct (_ || _); lia.
  - assert (2 ^ (Z.log2 z + 1 - p) = 0)%Z as ->.
    { pose proof (Z.pow_nonneg 2 (Z.log2 z + 1 - p)). lia. }
    rewrite Z.div_0_r. destruct (_ || _); lia.
Qed.

Lemma round_to_bits_small p z : (z < 2 ^ p)%Z → round_to_bits p z = z.
Proof.
  intros Hz. unfold round_to_bits.
  by destruct (Z.ltb_spec z (2 ^ p)); [|lia].
Qed.

Lemma preds_index dt i :
  index_to_float32 (stored_index dt i) = of_nat (float32_index dt i).
Proof.
  unfold index_to_float32, stored_index, float32_index, of_nat.
  rewrite Qfloor_Z, Z2Nat.id; [done|].
  apply round_to_bits_nonneg, round_to_bits_nonneg. lia.
Qed.

(** Below 2^24 the index is stored exactly, whatever the type. *)
Lemma float32_index_exact dt i : i < float32_exact → float32_index dt i = i.
Proof.
  unfold float32_exact, float32_index. intros Hi.
  assert (Z.of_nat i < 2 ^ 24)%Z as Hz by lia.
  rewrite (round_to_bits_small (significand dt)).
  - rewrite round_to_bits_small by done. lia.
  - destruct dt; cbn [significand]; lia.
Qed.

(** Beyond 2^24 the index is rounded: 2^24 + 1, the pixel of row 4095 and
    column 2 of a grid of 4097 columns, arrives as 2^24, which is decoded
    as column 1 of that row. *)
Example float32_index_beyond :
  float32_index float32 (Z.to_nat (2 ^ 24 + 1)) = Z.to_nat (2 ^ 24).
Proof.
  unfold float32_index. rewrite Z2Nat.id by lia. f_equal.
Qed.

Example stored_peak_beyond :
  (Z.to_nat (2 ^ 24 + 1) = 4095 * 4097 + 2)
  ∧ Forall2 Qeq (stored_peak float32 4097 (Z.to_nat (2 ^ 24 + 1), 1%Q))
                [1; 4095]%Q.
Proof.
  split; [lia|].
  unfold stored_peak, peak_xy. cbn [fst snd].
  rewrite float32_index_beyond. unfold of_nat.
  rewrite Z2Nat.id by lia. by repeat constructor.
Qed.

Lemma fmap_tile2 (f : Q → Q) d : f <$> tile2 d = tile2 (f <$> d).
Proof.
  unfold tile2. induction d as [|v d IH]; [done|].
  rewrite fmap_cons, !bind_cons, fmap_app, IH. done.
Qed.

(** [get_max_pred] on a batch of rank four or more: the axes after the
    fourth are read as part of the grid. *)
Lemma get_max_pred_run_rank σ bh N J H W rest :
  nd_shape bh = N :: J :: H :: W :: rest →
  valid σ bh →
  0 < N → 0 < J → 0 < H → 0 < W → 0 < size rest →
  ∃ r, mapM argmax_max
         (chunks (N * J) (H * W * size rest) (contents σ bh)) = Some r
    ∧ get_max_pred bh σ =
        (Ok (mkND (length σ + 2) 0 [N; J; 2] float32,
             mkND (length σ + 1) 0 [N; J; 1] (nd_dtype bh)),
         σ ++ [ (λ x, stored_index (nd_dtype bh) (fst x)) <$> r ;
                snd <$> r ;
                r ≫= stored_peak (nd_dtype bh) W ;
                tile2 (greater0 <$> (snd <$> r)) ]).
Proof.
  intros Hs (buf & Hb & Hlen) HN HJ HH HW HR.
  destruct bh as [l o sh dt]. cbn [nd_shape nd_loc nd_off nd_dtype] in *.
  subst sh.
  unfold nd_size in Hlen. cbn [nd_shape size foldr] in Hlen.
  fold (size rest) in Hlen.
  set (R := size rest) in *.
  assert (N * (J * (H * (W * R))) / (N * J) = H * W * R) as Hdiv.
  { replace (N * (J * (H * (W * R)))) with ((H * W * R) * (N * J)) by lia.
    apply Nat.div_mul. nia. }
  assert (nd_size (mkND l o (N :: J :: H :: W :: rest) dt)
          = N * (J * (H * (W * R)))) as Hsize.
  { unfold nd_size. cbn [nd_shape size foldr]. by fold (size rest). }
  unfold contents. cbn [nd_loc]. rewrite Hb.
  destruct (argmax_max_chunks (N * J) (H * W * R)
              (window (mkND l o (N :: J :: H :: W :: rest) dt) buf))
    as [r Hr].
  { nia. }
  { unfold window. rewrite Hsize. cbn [nd_off].
    rewrite length_take, length_drop. nia. }
  exists r. split; [done|].
  assert (length r = N * J) as Hlr.
  { apply length_mapM in Hr. by rewrite length_chunks in Hr. }
  unfold get_max_pred.
  do 3 (erewrite run_bind by reflexivity).
  assert (∀ b, window (reshape3 (mkND l o (N :: J :: H :: W :: rest) dt)
                                N J) b
               = window (mkND l o (N :: J :: H :: W :: rest) dt) b) as Hw.
  { intros b. unfold window, reshape3. rewrite Hsize.
    unfold nd_size at 1. cbn [nd_shape nd_off size foldr].
    rewrite Hdiv. do 2 f_equal. lia. }
  unfold nd_argmax2.
  erewrite run_bind; cycle 1.
  { eapply (run_reduce_axis2 _ _ _ _ N J (H * W * R));
      [exact Hb|unfold reshape3; rewrite Hsize; cbn [nd_shape];
                by rewrite Hdiv|].
    rewrite Hw. exact Hr. }
  erewrite run_bind; cycle 1.
  { eapply (run_reduce_axis2 _ _ _ _ N J (H * W * R));
      [cbn [nd_loc reshape3]; by apply lookup_app_l_Some
      |unfold reshape3; rewrite Hsize; cbn [nd_shape]; by rewrite Hdiv|].
    rewrite Hw. exact Hr. }
  cbn [reshape3 nd_dtype].
  rewrite length_app, <-app_assoc. cbn [app length].
  erewrite run_bind; cycle 1.
  { apply run_nd_read. cbn [nd_loc reshape_nj1]. by apply list_lookup_middle. }
  rewrite window_all;
    [|done|unfold nd_size; cbn [reshape_nj1 nd_shape size foldr];
           rewrite length_fmap; lia].
  erewrite run_bind by apply run_alloc_ext. cbn [app length].
  rewrite fmap_tile2, <-list_fmap_compose, tile2_fmap.
  assert (∀ g h : nat * Q → Q,
            window (mkND (length σ + 2) 0 [N; J; 2] float32)
                   (r ≫= λ x, [g x; h x])
            = r ≫= λ x, [g x; h x]) as Hwin.
  { intros g h. apply window_all; [done|].
    rewrite length_pairwise. unfold nd_size. simpl. lia. }
  erewrite run_bind by (by apply run_update_column_ext).
  cbn [insert list_insert].
  rewrite Hwin, column0_bind, list_inserts_all
    by (done || by rewrite !length_pairwise).
  erewrite run_bind by (by apply run_update_column_ext).
  cbn [insert list_insert].
  rewrite Hwin, column1_bind, list_inserts_all
    by (done || by rewrite !length_pairwise).
  erewrite run_bind by (by apply (run_read_ext 1)).
  rewrite window_all;
    [|done|unfold nd_size; cbn [reshape_nj1 nd_shape size foldr];
           rewrite length_fmap; lia].
  erewrite run_bind by apply run_alloc_ext. cbn [app length].
  erewrite run_bind by (by apply (run_imul_ext 2 _ _ 3)).
  cbn [insert list_insert]. rewrite Hwin.
  rewrite window_all;
    [|done|unfold nd_size; simpl; rewrite length_tile2, !length_fmap; lia].
  rewrite <-list_fmap_compose, tile2_fmap, zip_with_bind2.
  rewrite list_inserts_all by (by rewrite !length_pairwise).
  do 3 f_equal. f_equal. f_equal.
  apply list_bind_ext; [|done]. intros [i m].
  unfold stored_peak, peak_xy, compose. cbn [fst snd].
  by rewrite preds_index.
Qed.

Lemma get_max_pred_run σ bh N J H W :
  nd_shape bh = [N; J; H; W] →
  valid σ bh →
  0 < N → 0 < J → 0 < H → 0 < W →
  ∃ r, mapM argmax_max (chunks (N * J) (H * W) (contents σ bh)) = Some r
    ∧ get_max_pred bh σ =
        (Ok (mkND (length σ + 2) 0 [N; J; 2] float32,
             mkND (length σ + 1) 0 [N; J; 1] (nd_dtype bh)),
         σ ++ [ (λ x, stored_index (nd_dtype bh) (fst x)) <$> r ;
                snd <$> r ;
                r ≫= stored_peak (nd_dtype bh) W ;
                tile2 (greater0 <$> (snd <$> r)) ]).
Proof.
  intros Hs Hv HN HJ HH HW.
  destruct (get_max_pred_run_rank σ bh N J H W [] Hs Hv HN HJ HH HW)
    as (r & Hr & Hrun); [cbn [size foldr]; lia|].
  cbn [size foldr] in Hr. rewrite Nat.mul_1_r in Hr. by exists r.
Qed.

(** ** The first maximum *)

Lemma first_max_snoc pre bi b v :
  first_max pre bi b →
  first_max (pre ++ [v])
            (if Qlt_le_dec b v then length pre else bi)
            (if Qlt_le_dec b v then v else b).
Proof.
  intros (Hat & Hall & Hbefore).
  destruct (Qlt_le_dec b v) as [Hlt|Hle]; repeat split.
  - by apply list_lookup_middle.
  - intros j u Hj. apply lookup_app_Some in Hj as [Hj|[_ Hj]].
    + apply Qlt_le_weak. eapply Qle_lt_trans; [by eapply Hall|done].
    + apply list_lookup_singleton_Some in Hj as [_ <-]. apply Qle_refl.
  - intros j u Hlt' Hj. rewrite lookup_app_l in Hj by done.
    eapply Qle_lt_trans; [by eapply Hall|done].
  - by apply lookup_app_l_Some.
  - intros j u Hj. apply lookup_app_Some in Hj as [Hj|[_ Hj]].
    + by eapply Hall.
    + by apply list_lookup_singleton_Some in Hj as [_ <-].
  - intros j u Hlt' Hj. apply (Hbefore j u Hlt').
    apply lookup_lt_Some in Hat.
    rewrite lookup_app_l in Hj by lia. done.
Qed.

Lemma scan_max_first l : ∀ pre bi b,
  first_max pre bi b →
  first_max (pre ++ l) (scan_max bi b (length pre) l).1
                       (scan_max bi b (length pre) l).2.
Proof.
  induction l as [|v l IH]; intros pre bi b Hpre; simpl.
  - by rewrite app_nil_r.
  - apply (first_max_snoc _ _ _ v) in Hpre.
    apply IH in Hpre. rewrite <-app_assoc, length_app in Hpre.
    simpl in Hpre. rewrite Nat.add_1_r in Hpre.
    by destruct (Qlt_le_dec b v).
Qed.

Lemma argmax_max_first g i m :
  argmax_max g = Some (i, m) → first_max g i m.
Proof.
  destruct g as [|v l]; [done|]. intros [= Heq].
  assert (first_max [v] 0 v) as H0.
  { repeat split.
    - intros j u Hj. apply list_lookup_singleton_Some in Hj as [_ <-].
      apply Qle_refl.
    - intros j u Hj. lia. }
  apply (scan_max_first l) in H0. simpl in H0. by rewrite Heq in H0.
Qed.

Lemma first_max_unique g i m i' m' :
  first_max g i m → first_max g i' m' → i = i' ∧ m = m'.
Proof.
  intros (Hat & Hall & Hbefore) (Hat' & Hall' & Hbefore').
  assert (i = i') as <-.
  { destruct (Nat.lt_trichotomy i i') as [Hlt|[Heq|Hgt]]; [|done|].
    - pose proof (Hbefore' _ _ Hlt Hat) as Hlt'.
      pose proof (Hall _ _ Hat') as Hle.
      exfalso. by eapply Qlt_not_le.
    - pose proof (Hbefore _ _ Hgt Hat') as Hlt'.
      pose proof (Hall' _ _ Hat) as Hle.
      exfalso. by eapply Qlt_not_le. }
  split; [done|]. congruence.
Qed.


(** ** Decoding the flat index *)

Lemma Qfloor_of_nat_div i w :
  Qfloor (of_nat i / of_nat w) = Z.of_nat (i / w).
Proof. unfold of_nat. by rewrite <-Zdiv_Qdiv, Nat2Z.inj_div. Qed.

Lemma Qmod_of_nat i w :
  0 < w → (Qmod (of_nat i) (of_nat w) == of_nat (i mod w))%Q.
Proof.
  intros Hw. unfold Qmod. rewrite Qfloor_of_nat_div. unfold of_nat, Qminus.
  rewrite <-inject_Z_mult, <-inject_Z_opp, <-inject_Z_plus.
  apply inject_Z_injective.
  pose proof (Nat.div_mod_eq i w). lia.
Qed.

Lemma greater0_pos m : (0 < m)%Q → greater0 m = 1%Q.
Proof.
  intros Hm. unfold greater0. destruct (Qlt_le_dec 0 m) as [|Hle]; [done|].
  exfalso. by eapply Qlt_not_le.
Qed.

Lemma greater0_nonpos m : (m <= 0)%Q → greater0 m = 0%Q.
Proof.
  intros Hm. unfold greater0. destruct (Qlt_le_dec 0 m) as [Hlt|]; [|done].
  exfalso. by eapply Qlt_not_le.
Qed.

(** ** Reading one joint out of a flat array *)

Lemma lookup_bind_const {A} (f : A → list Q) (l : list A) k i j x :
  (∀ y, length (f y) = k) → l !! i = Some x → j < k →
  (l ≫= f) !! (i * k + j) = f x !! j.
Proof.
  intros Hf. revert i. induction l as [|y l IH]; intros i Hi Hj; [done|].
  rewrite bind_cons. destruct i as [|i]; simpl in *.
  - inversion Hi; subst. apply lookup_app_l. by rewrite Hf.
  - rewrite lookup_app_r by (rewrite Hf; lia).
    rewrite Hf. replace (k + i * k + j - k) with (i * k + j) by lia.
    by apply IH.
Qed.

Lemma contents_ext σ ext k o sh dt buf :
  ext !! k = Some buf →
  contents (σ ++ ext) (mkND (length σ + k) o sh dt)
  = window (mkND (length σ + k) o sh dt) buf.
Proof. intros Hk. unfold contents. simpl. by rewrite lookup_app_add, Hk. Qed.

Lemma contents_old σ ext a :
  valid σ a → contents (σ ++ ext) a = contents σ a.
Proof.
  intros (buf & Hb & _). unfold contents.
  by rewrite (lookup_app_l_Some _ _ _ _ Hb), Hb.
Qed.

Lemma mapM_chunks_lookup n k d r i :
  mapM argmax_max (chunks n k d) = Some r → i < n →
  ∃ x, r !! i = Some x ∧ argmax_max (take k (drop (i * k) d)) = Some x.
Proof.
  intros Hr Hi. apply mapM_Some_1 in Hr.
  destruct (Forall2_lookup_l _ _ _ i _ Hr (lookup_chunks n k d i Hi))
    as (x & Hx & Hf).
  by exists x.
Qed.

(** ** [get_max_pred], joint by joint *)

Lemma get_max_pred_joint σ bh N J H W :
  nd_shape bh = [N; J; H; W] →
  valid σ bh →
  0 < N → 0 < J → 0 < H → 0 < W →
  ∃ preds maxvals σ',
    get_max_pred bh σ = (Ok (preds, maxvals), σ')
    ∧ ∀ n p, n < N → p < J →
        ∃ i m, first_max (heatmap σ bh n p) i m
          ∧ entry3 σ' maxvals n p 0 = Some m
          ∧ entry3 σ' preds n p 0 = stored_peak (nd_dtype bh) W (i, m) !! 0
          ∧ entry3 σ' preds n p 1 = stored_peak (nd_dtype bh) W (i, m) !! 1.
Proof.
  intros Hs Hv HN HJ HH HW.
  destruct (get_max_pred_run σ bh N J H W) as (r & Hr & Hrun); try done.
  eexists _, _, _. split; [exact Hrun|].
  intros n p Hn Hp.
  destruct (mapM_chunks_lookup _ _ _ _ (n * J + p) Hr) as ([i m] & Hx & Ha).
  { nia. }
  assert (length r = N * J) as Hlr.
  { apply length_mapM in Hr. by rewrite length_chunks in Hr. }
  exists i, m. unfold heatmap, entry3, grid. rewrite Hs. cbn [nd_shape].
  split.
  { apply argmax_max_first. exact Ha. }
  rewrite (contents_ext σ _ 1 _ _ _ (snd <$> r)) by done.
  rewrite (contents_ext σ _ 2 _ _ _ (r ≫= stored_peak (nd_dtype bh) W))
    by done.
  rewrite !window_all;
    [|done|unfold nd_size; simpl; rewrite (length_bind_const _ _ 2); [lia|done]
     |done|unfold nd_size; simpl; rewrite length_fmap; lia].
  split; [|split].
  - rewrite list_lookup_fmap. replace ((n * J + p) * 1 + 0) with (n * J + p) by lia.
    by rewrite Hx.
  - apply lookup_bind_const; [done|done|lia].
  - apply lookup_bind_const; [done|done|lia].
Qed.

(** ** Loops *)

Lemma for_seq_inv (I : nat → list (list Q) → Prop) body len : ∀ s σ,
  I s σ →
  (∀ k σ', s ≤ k < s + len → I k σ' →
     ∃ σ'', body k σ' = (Ok tt, σ'') ∧ I (S k) σ'') →
  ∃ σ', for_each (seq s len) body σ = (Ok tt, σ') ∧ I (s + len) σ'.
Proof.
  induction len as [|len IH]; intros s σ H0 Hstep; simpl.
  - exists σ. by rewrite Nat.add_0_r.
  - destruct (Hstep s σ ltac:(lia) H0) as (σ1 & Hb & H1).
    destruct (IH (S s) σ1 H1) as (σ2 & Hrun & H2).
    { intros k σ' Hk. apply Hstep. lia. }
    exists σ2. split.
    + by erewrite run_bind by exact Hb.
    + by replace (s + S len) with (S s + len) by lia.
Qed.

Lemma for_range_inv (I : nat → list (list Q) → Prop) body n σ :
  I 0 σ →
  (∀ k σ', k < n → I k σ' →
     ∃ σ'', body k σ' = (Ok tt, σ'') ∧ I (S k) σ'') →
  ∃ σ', for_range n body σ = (Ok tt, σ') ∧ I n σ'.
Proof.
  intros H0 Hstep. apply (for_seq_inv I body n 0 σ H0).
  intros k σ' Hk. apply Hstep. lia.
Qed.

(** ** Indexing *)

Lemma run_getitem l o d sh dt (i : Z) σ :
  (0 <= i < Z.of_nat d)%Z →
  getitem (mkND l o (d :: sh) dt) i σ
  = (Ok (mkND l (o + Z.to_nat i * size sh) sh dt), σ).
Proof.
  intros Hi. unfold getitem. cbn [nd_shape nd_loc nd_off nd_dtype].
  destruct (Z.leb_spec 0 i); [|lia].
  destruct (Z.ltb_spec i (Z.of_nat d)); [|lia]. reflexivity.
Qed.

Lemma run_getitem2 l o d1 d2 sh dt (i j : Z) σ :
  (0 <= i < Z.of_nat d1)%Z → (0 <= j < Z.of_nat d2)%Z →
  getitem2 (mkND l o (d1 :: d2 :: sh) dt) i j σ
  = (Ok (mkND l (o + Z.to_nat i * (d2 * size sh) + Z.to_nat j * size sh) sh
               dt),
     σ).
Proof.
  intros Hi Hj. unfold getitem2.
  erewrite run_bind by (by apply run_getitem).
  by rewrite run_getitem.
Qed.

Lemma take_drop_1 {A} (l : list A) o v :
  l !! o = Some v → take 1 (drop o l) = [v].
Proof.
  intros Hv. rewrite (drop_S _ _ _ Hv). reflexivity.
Qed.

Lemma take_drop_2 {A} (l : list A) o x y :
  l !! o = Some x → l !! (S o) = Some y → take 2 (drop o l) = [x; y].
Proof.
  intros Hx Hy. rewrite (drop_S _ _ _ Hx), (drop_S _ _ _ Hy). reflexivity.
Qed.

Lemma run_read_scalar l o dt σ buf v :
  σ !! l = Some buf → buf !! o = Some v →
  nd_read (mkND l o [] dt) σ = (Ok [v], σ).
Proof.
  intros Hb Hv. erewrite run_nd_read by exact Hb.
  unfold window, nd_size. cbn [nd_shape nd_off size foldr].
  by rewrite (take_drop_1 _ _ _ Hv).
Qed.

Lemma run_asscalar l o dt σ buf v :
  σ !! l = Some buf → buf !! o = Some v →
  asscalar (mkND l o [] dt) σ = (Ok v, σ).
Proof.
  intros Hb Hv. unfold asscalar.
  by erewrite run_bind by (by eapply run_read_scalar).
Qed.

Lemma run_rounded lc oc N J dt n p k σ B v :
  n < N → p < J → k < 2 →
  σ !! lc = Some B →
  B !! (oc + (n * J + p) * 2 + k) = Some v →
  rounded (mkND lc oc [N; J; 2] dt) n p (Z.of_nat k) σ
  = (Ok (Qfloor (v + (1 # 2))), σ).
Proof.
  intros Hn Hp Hk Hb Hv. unfold rounded.
  erewrite run_bind by (apply run_getitem2; lia).
  erewrite run_bind by (apply run_getitem; lia).
  erewrite run_bind; [reflexivity|].
  eapply run_asscalar; [exact Hb|].
  rewrite <-Hv. f_equal. rewrite !Nat2Z.id. cbn [size foldr]. lia.
Qed.

Lemma run_elem_diff lh o H W dt (i1 j1 i2 j2 : Z) σ buf a b :
  (0 <= i1 < Z.of_nat H)%Z → (0 <= j1 < Z.of_nat W)%Z →
  (0 <= i2 < Z.of_nat H)%Z → (0 <= j2 < Z.of_nat W)%Z →
  σ !! lh = Some buf →
  buf !! (o + Z.to_nat i1 * W + Z.to_nat j1) = Some a →
  buf !! (o + Z.to_nat i2 * W + Z.to_nat j2) = Some b →
  elem_diff (mkND lh o [H; W] dt) i1 j1 i2 j2 σ = (Ok [(a - b)%Q], σ).
Proof.
  intros Hi1 Hj1 Hi2 Hj2 Hb Ha Hb'. unfold elem_diff.
  erewrite run_bind by (by apply run_getitem2).
  erewrite run_bind by (by apply run_getitem2).
  cbn [size foldr]. rewrite !Nat.mul_1_r.
  erewrite run_bind by (by eapply run_read_scalar).
  by erewrite run_bind by (by eapply run_read_scalar).
Qed.

Lemma run_iadd lc o dt σ B x y sx sy :
  σ !! lc = Some B →
  take 2 (drop o B) = [x; y] →
  nd_iadd (mkND lc o [2] dt) dt [sx; sy] σ
  = (Ok tt, <[lc := list_inserts o [x + sx; y + sy]%Q B]> σ).
Proof.
  intros Hb Hxy. unfold nd_iadd.
  erewrite run_bind by (by apply run_nd_read).
  unfold window, nd_size. cbn [nd_shape nd_off nd_dtype size foldr].
  rewrite Nat.mul_1_r, Hxy. cbn [length].
  rewrite decide_True by done.
  by erewrite run_nd_write by exact Hb.
Qed.

(** The operands of [+=] differ in type: MXNet refuses, and nothing is
    written. *)
Lemma run_iadd_mismatch lc o sh dtc dth v σ B :
  σ !! lc = Some B → dtc ≠ dth →
  nd_iadd (mkND lc o sh dtc) dth v σ = (Raise MXNetError, σ).
Proof.
  intros Hb Hne. unfold nd_iadd.
  erewrite run_bind by (by apply run_nd_read).
  cbn [nd_dtype]. rewrite decide_False; [done|]. by intros [_ ?].
Qed.

(** ** The post-processing loop *)

Lemma grid_lookup N J H W oh buf i r c :
  i < N * J → r < H → c < W →
  oh + N * J * (H * W) ≤ length buf →
  ∃ v, buf !! (oh + i * (H * W) + r * W + c) = Some v
     ∧ grid H W (take (N * J * (H * W)) (drop oh buf)) i !! (r * W + c)
       = Some v.
Proof.
  intros Hi Hr Hc Hlen.
  assert (r * W + c < H * W) as Hrc by nia.
  assert (i * (H * W) + (r * W + c) < N * J * (H * W)) as Hin by nia.
  destruct (lookup_lt_is_Some_2 buf (oh + i * (H * W) + r * W + c)) as [v Hv];
    [lia|].
  exists v. split; [done|]. unfold grid.
  rewrite lookup_take_lt, lookup_drop, lookup_take_lt, lookup_drop by lia.
  rewrite <-Hv. f_equal. lia.
Qed.

Lemma list_inserts_pair_id (B : list Q) o x y :
  B !! o = Some x → B !! S o = Some y → list_inserts o [x; y] B = B.
Proof.
  intros Hx Hy. cbn [list_inserts].
  rewrite (list_insert_id B (S o) y Hy). by apply list_insert_id.
Qed.

Lemma pair_at (B : list Q) o :
  o + 2 ≤ length B →
  ∃ x y, B !! o = Some x ∧ B !! S o = Some y ∧ take 2 (drop o B) = [x; y].
Proof.
  intros Hlen.
  destruct (lookup_lt_is_Some_2 B o) as [x Hx]; [lia|].
  destruct (lookup_lt_is_Some_2 B (S o)) as [y Hy]; [lia|].
  exists x, y. split; [done|]. split; [done|]. by apply take_drop_2.
Qed.

Lemma length_refine_xy W H g xy : length (refine_xy W H g xy) = length xy.
Proof.
  unfold refine_xy. destruct xy as [|x [|y [|z xy]]]; try done.
  by destruct (interior W H _ _).
Qed.

Lemma length_refine_at W H hd oc B i :
  length (refine_at W H hd oc B i) = length B.
Proof. unfold refine_at. by rewrite length_inserts. Qed.

Lemma length_refine_row W H hd oc J B n :
  length (refine_row W H hd oc J B n) = length B.
Proof.
  unfold refine_row. generalize (seq 0 J). intros l. revert B.
  induction l as [|p l IH]; intros B; simpl; [done|].
  by rewrite IH, length_refine_at.
Qed.

Lemma length_refine_all W H hd oc N J B :
  length (refine_all W H hd oc N J B) = length B.
Proof.
  unfold refine_all. generalize (seq 0 N). intros l. revert B.
  induction l as [|n l IH]; intros B; simpl; [done|].
  by rewrite IH, length_refine_row.
Qed.

Lemma interior_bounds W H px py :
  interior W H px py = true →
  (2 <= px <= Z.of_nat W - 2 ∧ 2 <= py <= Z.of_nat H - 2)%Z.
Proof. unfold interior. lia. Qed.

Lemma run_post_processing lh oh lc oc N J H W dt σ bufh B :
  lh ≠ lc →
  σ !! lh = Some bufh → oh + N * J * (H * W) ≤ length bufh →
  σ !! lc = Some B → oc + N * J * 2 ≤ length B →
  post_processing (mkND lh oh [N; J; H; W] dt) (mkND lc oc [N; J; 2] dt)
                  W H σ
  = (Ok tt,
     <[lc := refine_all W H (take (N * J * (H * W)) (drop oh bufh)) oc N J B]>
       σ).
Proof.
  intros Hne Hbh Hlh Hbc Hlc.
  set (hd := take (N * J * (H * W)) (drop oh bufh)).
  assert (lc < length σ) as Hlcσ by (by eapply lookup_lt_Some).
  unfold post_processing. erewrite run_bind by reflexivity.
  destruct (for_range_inv
    (λ k S, S = <[lc := foldl (refine_row W H hd oc J) B (seq 0 k)]> σ)
    (λ n, joints <- shape_at (mkND lc oc [N; J; 2] dt) 1 ;;
          for_range joints (λ p,
            hm <- getitem2 (mkND lh oh [N; J; H; W] dt)
                           (Z.of_nat n) (Z.of_nat p) ;;
            px <- rounded (mkND lc oc [N; J; 2] dt) n p 0 ;;
            py <- rounded (mkND lc oc [N; J; 2] dt) n p 1 ;;
            if interior W H px py
            then
              dx <- elem_diff hm py (px + 1) py (px - 1) ;;
              dy <- elem_diff hm (py + 1) px (py - 1) px ;;
              let diff := dx ++ dy in
              c <- getitem2 (mkND lc oc [N; J; 2] dt)
                            (Z.of_nat n) (Z.of_nat p) ;;
              nd_iadd c (nd_dtype hm) ((λ v, Qsign v * (1 # 4))%Q <$> diff)
            else ret tt))
    N σ) as (σ' & Hrun & ->); [| |exact Hrun].
  { simpl. by rewrite list_insert_id. }
  intros n S Hn ->.
  set (Bn := foldl (refine_row W H hd oc J) B (seq 0 n)).
  assert (length Bn = length B) as HlBn.
  { apply (length_refine_all W H hd oc n J B). }
  erewrite run_bind by reflexivity.
  destruct (for_range_inv
    (λ k S, S = <[lc := foldl (λ B p, refine_at W H hd oc B (n * J + p)) Bn
                          (seq 0 k)]> σ)
    (λ p,
       hm <- getitem2 (mkND lh oh [N; J; H; W] dt)
                      (Z.of_nat n) (Z.of_nat p) ;;
       px <- rounded (mkND lc oc [N; J; 2] dt) n p 0 ;;
       py <- rounded (mkND lc oc [N; J; 2] dt) n p 1 ;;
       if interior W H px py
       then
         dx <- elem_diff hm py (px + 1) py (px - 1) ;;
         dy <- elem_diff hm (py + 1) px (py - 1) px ;;
         let diff := dx ++ dy in
         c <- getitem2 (mkND lc oc [N; J; 2] dt) (Z.of_nat n) (Z.of_nat p) ;;
         nd_iadd c (nd_dtype hm) ((λ v, Qsign v * (1 # 4))%Q <$> diff)
       else ret tt)
    J (<[lc := Bn]> σ)) as (σ' & Hrun & ->).
  { done. }
  { intros p S Hp ->.
    eexists. split; [|rewrite seq_S, foldl_snoc; reflexivity].
    cbn [Nat.add].
    set (Bp := foldl (λ B p, refine_at W H hd oc B (n * J + p)) Bn (seq 0 p)).
    assert (length Bp = length B) as HlBp.
    { rewrite <-HlBn. unfold Bp. generalize (seq 0 p). intros l.
      generalize Bn. induction l as [|q l IH]; intros B0; simpl; [done|].
      by rewrite IH, length_refine_at. }
    set (S := <[lc := Bp]> σ).
    assert (S !! lc = Some Bp) as HSc by (by apply list_lookup_insert_eq).
    assert (S !! lh = Some bufh) as HSh.
    { unfold S. by rewrite list_lookup_insert_ne. }
    assert (n * J + p < N * J) as Hi by nia.
    set (i := n * J + p) in *.
    destruct (pair_at Bp (oc + i * 2)) as (x & y & Hx & Hy & Hxy); [lia|].
    erewrite run_bind by (apply run_getitem2; lia).
    erewrite run_bind; cycle 1.
    { apply (run_rounded lc oc N J dt n p 0 S Bp x); try done; try lia.
      by rewrite Nat.add_0_r. }
    erewrite run_bind; cycle 1.
    { apply (run_rounded lc oc N J dt n p 1 S Bp y); try done; try lia.
      by rewrite Nat.add_1_r. }
    unfold refine_at. rewrite Hxy. unfold refine_xy.
    destruct (interior W H _ _) eqn:Hint.
    - apply interior_bounds in Hint.
      set (px := Qfloor (x + (1 # 2))) in *.
      set (py := Qfloor (y + (1 # 2))) in *.
      rewrite !Nat2Z.id. cbn [size foldr].
      replace (oh + n * (J * (H * (W * 1))) + p * (H * (W * 1)))
        with (oh + i * (H * W)) by (unfold i; lia).
      destruct (grid_lookup N J H W oh bufh i (Z.to_nat py) (Z.to_nat (px + 1)))
        as (a & Ha & Ha'); try lia.
      destruct (grid_lookup N J H W oh bufh i (Z.to_nat py) (Z.to_nat (px - 1)))
        as (b & Hb & Hb'); try lia.
      destruct (grid_lookup N J H W oh bufh i (Z.to_nat (py + 1)) (Z.to_nat px))
        as (c & Hc & Hc'); try lia.
      destruct (grid_lookup N J H W oh bufh i (Z.to_nat (py - 1)) (Z.to_nat px))
        as (d & Hd & Hd'); try lia.
      erewrite run_bind by
        (apply (run_elem_diff lh _ H W _ _ _ _ _ S bufh a b); (done || lia)).
      erewrite run_bind by
        (apply (run_elem_diff lh _ H W _ _ _ _ _ S bufh c d); (done || lia)).
      erewrite run_bind by (apply run_getitem2; lia).
      rewrite !Nat2Z.id. cbn [size foldr app fmap list_fmap nd_dtype].
      replace (oc + n * (J * (2 * 1)) + p * (2 * 1)) with (oc + i * 2)
        by (unfold i; lia).
      erewrite run_iadd by done.
      unfold S. rewrite list_insert_insert_eq.
      unfold pix. fold hd in Ha', Hb', Hc', Hd'.
      by rewrite Ha', Hb', Hc', Hd'.
    - unfold ret. f_equal. unfold S. f_equal.
      symmetry. by apply list_inserts_pair_id. }
  eexists. split.
  - exact Hrun.
  - by rewrite seq_S, foldl_snoc.
Qed.

(** A loop whose iterations either raise [e] or return, leaving the store
    as it is in both cases. *)
Lemma for_each_guard {A} (c : A → bool) e body (l : list A) σ :
  (∀ a, a ∈ l → body a σ = if c a then (Raise e, σ) else (Ok tt, σ)) →
  for_each l body σ = if existsb c l then (Raise e, σ) else (Ok tt, σ).
Proof.
  induction l as [|a l IH]; intros Hbody; [done|].
  cbn [for_each existsb].
  pose proof (Hbody a ltac:(by left)) as Ha.
  destruct (c a); cbn [orb].
  - by erewrite run_bind_raise by exact Ha.
  - erewrite run_bind by exact Ha.
    apply IH. intros b Hb. apply Hbody. by right.
Qed.

Lemma existsb_none {A} (c : A → bool) (l : list A) :
  (∀ a, a ∈ l → c a = false) → existsb c l = false.
Proof.
  induction l as [|a l IH]; intros Hc; [done|]. cbn [existsb].
  rewrite (Hc a) by (by left). apply IH. intros b Hb. apply Hc. by right.
Qed.

(** The loop on coordinates and heatmaps of different types. *)
Lemma run_post_processing_mismatch lh oh lc oc N J H W dth dtc σ bufh B :
  lh ≠ lc → dtc ≠ dth →
  σ !! lh = Some bufh → oh + N * J * (H * W) ≤ length bufh →
  σ !! lc = Some B → oc + N * J * 2 ≤ length B →
  post_processing (mkND lh oh [N; J; H; W] dth) (mkND lc oc [N; J; 2] dtc)
                  W H σ
  = if any_interior W H oc N J B then (Raise MXNetError, σ) else (Ok tt, σ).
Proof.
  intros Hne Hdt Hbh Hlh Hbc Hlc.
  unfold post_processing. erewrite run_bind by reflexivity.
  unfold for_range, any_interior.
  apply (for_each_guard
           (λ n, existsb (λ p, interior_at W H oc B (n * J + p)) (seq 0 J))).
  intros n [_ Hn]%elem_of_seq.
  erewrite run_bind by reflexivity. unfold for_range.
  apply (for_each_guard (λ p, interior_at W H oc B (n * J + p))).
  intros p [_ Hp]%elem_of_seq. cbn [Nat.add] in Hn, Hp.
  assert (n * J + p < N * J) as Hi by nia.
  set (i := n * J + p) in *.
  destruct (pair_at B (oc + i * 2)) as (x & y & Hx & Hy & Hxy); [lia|].
  erewrite run_bind by (apply run_getitem2; lia).
  erewrite run_bind; cycle 1.
  { apply (run_rounded lc oc N J dtc n p 0 σ B x); try done; try lia.
    by rewrite Nat.add_0_r. }
  erewrite run_bind; cycle 1.
  { apply (run_rounded lc oc N J dtc n p 1 σ B y); try done; try lia.
    by rewrite Nat.add_1_r. }
  unfold interior_at. rewrite Hxy.
  destruct (interior W H _ _) eqn:Hint; [|done].
  apply interior_bounds in Hint.
  set (px := Qfloor (x + (1 # 2))) in *.
  set (py := Qfloor (y + (1 # 2))) in *.
  rewrite !Nat2Z.id. cbn [size foldr].
  replace (oh + n * (J * (H * (W * 1))) + p * (H * (W * 1)))
    with (oh + i * (H * W)) by (unfold i; lia).
  destruct (grid_lookup N J H W oh bufh i (Z.to_nat py) (Z.to_nat (px + 1)))
    as (a & Ha & _); try lia.
  destruct (grid_lookup N J H W oh bufh i (Z.to_nat py) (Z.to_nat (px - 1)))
    as (b & Hb & _); try lia.
  destruct (grid_lookup N J H W oh bufh i (Z.to_nat (py + 1)) (Z.to_nat px))
    as (c & Hc & _); try lia.
  destruct (grid_lookup N J H W oh bufh i (Z.to_nat (py - 1)) (Z.to_nat px))
    as (d & Hd & _); try lia.
  erewrite run_bind by
    (apply (run_elem_diff lh _ H W _ _ _ _ _ σ bufh a b); (done || lia)).
  erewrite run_bind by
    (apply (run_elem_diff lh _ H W _ _ _ _ _ σ bufh c d); (done || lia)).
  erewrite run_bind by (apply run_getitem2; lia).
  cbn [nd_dtype]. by eapply run_iadd_mismatch.
Qed.

(** ** The loop, joint by joint *)

Lemma seg_lookup {A} (B : list A) o x y :
  take 2 (drop o B) = [x; y] → B !! o = Some x ∧ B !! S o = Some y.
Proof.
  intros Hxy. split.
  - assert (take 2 (drop o B) !! 0 = Some x) as H0 by (by rewrite Hxy).
    rewrite lookup_take_lt, lookup_drop in H0 by lia.
    by rewrite Nat.add_0_r in H0.
  - assert (take 2 (drop o B) !! 1 = Some y) as H1 by (by rewrite Hxy).
    rewrite lookup_take_lt, lookup_drop in H1 by lia.
    by rewrite Nat.add_1_r in H1.
Qed.

Lemma block_inserts_same (B new : list Q) K o :
  o + K ≤ length B → length new = K →
  take K (drop o (list_inserts o new B)) = new.
Proof.
  intros Hlen Hnew. apply list_eq. intros k.
  rewrite lookup_take, lookup_drop. case_decide as Hk.
  - rewrite list_lookup_inserts by lia. f_equal. lia.
  - symmetry. apply lookup_ge_None. lia.
Qed.

Lemma block_inserts_other (B new : list Q) K o o' :
  o' + K ≤ o ∨ o + K ≤ o' → length new = K →
  take K (drop o' (list_inserts o new B)) = take K (drop o' B).
Proof.
  intros Ho Hnew. apply list_eq. intros k.
  rewrite !lookup_take, !lookup_drop. case_decide; [|done].
  destruct Ho as [Ho|Ho].
  - apply list_lookup_inserts_lt. lia.
  - apply list_lookup_inserts_ge. lia.
Qed.

Lemma length_update_block K f o B i :
  length (update_block K f o B i) = length B.
Proof. unfold update_block. by rewrite length_inserts. Qed.

Lemma length_foldl_update_block K f o (js : list nat) : ∀ B,
  length (foldl (update_block K f o) B js) = length B.
Proof.
  induction js as [|i js IH]; intros B; cbn [foldl]; [done|].
  by rewrite IH, length_update_block.
Qed.

(** Blocks are updated independently: after a pass over distinct blocks,
    each visited block holds [f] of its old contents and the others are as
    they were. *)
Lemma foldl_update_block K f o (js : list nat) : ∀ B j,
  NoDup js →
  (∀ i, i ∈ js → o + i * K + K ≤ length B) →
  (∀ i xy, i ∈ js → length xy = K → length (f i xy) = K) →
  take K (drop (o + j * K) (foldl (update_block K f o) B js))
  = if decide (j ∈ js)
    then f j (take K (drop (o + j * K) B))
    else take K (drop (o + j * K) B).
Proof.
  induction js as [|i js IH]; intros B j Hnd Hin Hf; cbn [foldl].
  { rewrite decide_False; [done|]. apply not_elem_of_nil. }
  apply NoDup_cons in Hnd as [Hi Hnd].
  assert (o + i * K + K ≤ length B) as Hib by (apply Hin; left).
  assert (length (f i (take K (drop (o + i * K) B))) = K) as HlK.
  { apply Hf; [left|]. rewrite length_take, length_drop. lia. }
  rewrite IH; [|done| |].
  2:{ intros k Hk. rewrite length_update_block. apply Hin. by right. }
  2:{ intros k xy Hk. apply Hf. by right. }
  destruct (decide (j = i)) as [->|Hne].
  - rewrite decide_False by done. rewrite decide_True by left.
    unfold update_block. by apply block_inserts_same.
  - assert (take K (drop (o + j * K) (update_block K f o B i))
            = take K (drop (o + j * K) B)) as ->.
    { unfold update_block. apply block_inserts_other; [nia|done]. }
    destruct (decide (j ∈ js)) as [Hj|Hj].
    + rewrite decide_True; [done|by right].
    + rewrite decide_False; [done|].
      intros [?|?]%elem_of_cons; done.
Qed.

Lemma foldl_refine_at_seg W H hd oc (js : list nat) B j :
  NoDup js →
  (∀ i, i ∈ js → oc + i * 2 + 2 ≤ length B) →
  take 2 (drop (oc + j * 2) (foldl (refine_at W H hd oc) B js))
  = if decide (j ∈ js)
    then refine_xy W H (grid H W hd j) (take 2 (drop (oc + j * 2) B))
    else take 2 (drop (oc + j * 2) B).
Proof.
  intros Hnd Hin.
  apply (foldl_update_block 2 (λ i, refine_xy W H (grid H W hd i)));
    [done|done|].
  intros i xy _ Hxy. by rewrite length_refine_xy.
Qed.

Lemma refine_row_flat W H hd oc J B n :
  refine_row W H hd oc J B n
  = foldl (refine_at W H hd oc) B (seq (n * J) J).
Proof.
  unfold refine_row.
  replace (seq (n * J) J) with (seq (n * J + 0) J) by (f_equal; lia).
  by rewrite <-fmap_add_seq, foldl_fmap.
Qed.

Lemma refine_all_flat W H hd oc N J B :
  refine_all W H hd oc N J B
  = foldl (refine_at W H hd oc) B (seq 0 (N * J)).
Proof.
  unfold refine_all. induction N as [|N IH]; [done|].
  rewrite seq_S, foldl_snoc, IH, refine_row_flat. cbn [Nat.add].
  replace (S N * J) with (N * J + J) by lia.
  by rewrite seq_app, foldl_app.
Qed.

Lemma refine_all_joint W H hd oc N J B i :
  oc + N * J * 2 ≤ length B → i < N * J →
  take 2 (drop (oc + i * 2) (refine_all W H hd oc N J B))
  = refine_xy W H (grid H W hd i) (take 2 (drop (oc + i * 2) B)).
Proof.
  intros Hlen Hi. rewrite refine_all_flat, foldl_refine_at_seg.
  - rewrite decide_True; [done|]. apply elem_of_seq. lia.
  - apply NoDup_seq.
  - intros k Hk%elem_of_seq. lia.
Qed.

Lemma Qsign_zero v : (v == 0)%Q → Qsign v = 0%Q.
Proof.
  intros Hv. unfold Qsign. unfold Qeq in Hv. simpl in Hv.
  by replace (Qnum v) with 0%Z by lia.
Qed.

Lemma entry3_lookup σ lc oc N J K {dt} n p k B :
  σ !! lc = Some B → oc + N * J * K ≤ length B →
  n < N → p < J → k < K →
  entry3 σ (mkND lc oc [N; J; K] dt) n p k
  = B !! (oc + (n * J + p) * K + k).
Proof.
  intros Hb Hlen Hn Hp Hk. unfold entry3, contents, window, nd_size.
  cbn [nd_shape nd_loc nd_off size foldr]. rewrite Hb.
  assert (n * J + p + 1 ≤ N * J) as Hi by nia.
  assert ((n * J + p) * K + k < N * (J * (K * 1))) as Hin.
  { rewrite Nat.mul_1_r, Nat.mul_assoc.
    revert Hi. generalize (n * J + p), (N * J). intros i m Hi. nia. }
  rewrite lookup_take_lt, lookup_drop by done. f_equal. lia.
Qed.

Lemma heatmap_grid σ lh oh N J H W {dt} n p bufh :
  σ !! lh = Some bufh →
  heatmap σ (mkND lh oh [N; J; H; W] dt) n p
  = grid H W (take (N * J * (H * W)) (drop oh bufh)) (n * J + p).
Proof.
  intros Hb. unfold heatmap, contents, window, nd_size.
  cbn [nd_shape nd_loc nd_off size foldr]. rewrite Hb.
  do 2 f_equal. lia.
Qed.

Lemma interior_iff W H px py :
  interior W H px py = true
  ↔ (1 < px < Z.of_nat W - 1 ∧ 1 < py < Z.of_nat H - 1)%Z.
Proof. unfold interior. lia. Qed.

(** ** [transform_preds] and the loop that calls it *)

Lemma run_getitem_row2 l o d c {dt} p σ :
  p < d →
  getitem_row2 (mkND l o [d; c] dt) p σ
  = (Ok (mkND l (o + p * c) [c `min` 2] dt), σ).
Proof.
  intros Hp. unfold getitem_row2. cbn [nd_shape nd_loc nd_off nd_dtype].
  by rewrite decide_True.
Qed.

Lemma length_affine_xy t xy : length xy = 2 → length (affine_xy t xy) = 2.
Proof. by destruct xy as [|x [|y [|z xy]]]. Qed.

Lemma length_target_buffer t src o J :
  length (target_buffer t src o J) = J * 2.
Proof.
  unfold target_buffer.
  by rewrite length_foldl_update_block, length_replicate.
Qed.

Lemma run_transform_preds `{trig : NumpyTrig} lc o J {dt} c s out S Bc :
  S !! lc = Some Bc → o + J * 2 ≤ length Bc →
  transform_preds (mkND lc o [J; 2] dt) c s out S
  = (Ok (mkND (length S) 0 [J; 2] float32),
     S ++ [target_buffer
             (get_affine_transform c (ScaleArray s) 0 out default_shift 1)
             Bc o J]).
Proof.
  intros Hbc Hlen.
  set (t := get_affine_transform c (ScaleArray s) 0 out default_shift 1).
  set (f := λ (p : nat) (_ : list Q), affine_xy t (take 2 (drop (o + p * 2) Bc))).
  unfold transform_preds. fold t.
  erewrite run_bind by reflexivity.
  erewrite run_bind by reflexivity.
  cbn [nd_shape size foldr]. rewrite Nat.mul_1_r.
  destruct (for_range_inv
    (λ k S', S' = S ++ [foldl (update_block 2 f 0) (replicate (J * 2) 0%Q)
                              (seq 0 k)])
    (λ p,
       src_row <- getitem_row2 (mkND lc o [J; 2] dt) p ;;
       xy <- nd_read src_row ;;
       new_pt <- lift (affine_transform xy t) ;;
       dst_row <- getitem_row2 (mkND (length S) 0 [J; 2] float32) p ;;
       nd_write dst_row new_pt)
    J (S ++ [replicate (J * 2) 0%Q])) as (S' & Hrun & ->).
  { done. }
  { intros p S' Hp ->.
    set (T := foldl (update_block 2 f 0) (replicate (J * 2) 0%Q) (seq 0 p)).
    eexists. split; [|rewrite seq_S, foldl_snoc; reflexivity].
    fold T. cbn [Nat.add].
    destruct (pair_at Bc (o + p * 2)) as (x & y & Hx & Hy & Hxy); [lia|].
    erewrite run_bind by (by apply run_getitem_row2).
    erewrite run_bind by (apply run_nd_read; by apply lookup_app_l_Some).
    unfold window, nd_size. cbn [nd_shape nd_off size foldr Nat.min].
    rewrite Nat.mul_1_r, Hxy.
    erewrite run_bind by reflexivity.
    erewrite run_bind by (by apply run_getitem_row2).
    erewrite run_nd_write by (by apply list_lookup_middle).
    cbn [nd_loc nd_off]. f_equal.
    rewrite <-(Nat.add_0_r (length S)) at 1.
    rewrite insert_app_r. cbn [insert list_insert].
    unfold update_block, f. by rewrite Hxy. }
  by erewrite run_bind by exact Hrun.
Qed.

Lemma run_np_row (rows : list pt) i r σ :
  rows !! i = Some r → np_row rows i σ = (Ok r, σ).
Proof. intros Hr. unfold np_row. by rewrite Hr. Qed.

Lemma run_transform_back `{trig : NumpyTrig} lc oc lp op N J W H {dtc dtp}
    centers scales S Bc P :
  lc ≠ lp →
  S !! lc = Some Bc → oc + N * (J * 2) ≤ length Bc →
  S !! lp = Some P → op + N * (J * 2) ≤ length P →
  N ≤ length centers → N ≤ length scales →
  transform_back (mkND lc oc [N; J; 2] dtc) (mkND lp op [N; J; 2] dtp)
                 centers scales W H S
  = (Ok tt,
     <[lp := preds_buffer W H centers scales Bc oc N J op P]> S
     ++ (image_target W H centers scales Bc oc J <$> seq 0 N)).
Proof.
  intros Hne Hbc Hlc Hbp Hlp Hcen Hsca.
  set (g := λ (i : nat) (_ : list Q),
              image_target W H centers scales Bc oc J i).
  assert (lp < length S) as HlpS by (by eapply lookup_lt_Some).
  unfold transform_back. erewrite run_bind by reflexivity.
  destruct (for_range_inv
    (λ k S', S' = <[lp := foldl (update_block (J * 2) g op) P (seq 0 k)]> S
                  ++ (image_target W H centers scales Bc oc J <$> seq 0 k))
    (λ i,
       coords_i <- getitem (mkND lc oc [N; J; 2] dtc) (Z.of_nat i) ;;
       c <- np_row centers i ;;
       s <- np_row scales i ;;
       target <- transform_preds coords_i c s (of_nat W, of_nat H) ;;
       preds_i <- getitem (mkND lp op [N; J; 2] dtp) (Z.of_nat i) ;;
       d <- nd_read target ;;
       nd_write preds_i d)
    N S) as (S' & Hrun & ->); [| |exact Hrun].
  { simpl. by rewrite list_insert_id, app_nil_r. }
  intros i S' Hi ->.
  set (Pi := foldl (update_block (J * 2) g op) P (seq 0 i)).
  set (Ts := image_target W H centers scales Bc oc J <$> seq 0 i).
  eexists. split; [|rewrite !seq_S, foldl_snoc, fmap_app; reflexivity].
  fold Pi Ts. cbn [Nat.add fmap list_fmap].
  destruct (lookup_lt_is_Some_2 centers i) as [c Hc]; [lia|].
  destruct (lookup_lt_is_Some_2 scales i) as [s Hs]; [lia|].
  set (Ti := image_target W H centers scales Bc oc J i).
  erewrite run_bind by (apply run_getitem; lia).
  erewrite run_bind by (by apply run_np_row).
  erewrite run_bind by (by apply run_np_row).
  rewrite Nat2Z.id. cbn [size foldr]. rewrite Nat.mul_1_r.
  erewrite run_bind; cycle 1.
  { apply (run_transform_preds lc _ J c s _ _ Bc).
    - apply lookup_app_l_Some. by rewrite list_lookup_insert_ne.
    - nia. }
  assert (target_buffer
            (get_affine_transform c (ScaleArray s) 0 (of_nat W, of_nat H)
                                  default_shift 1) Bc (oc + i * (J * 2)) J
          = Ti) as ->.
  { unfold Ti, image_target, inverse_transform. by rewrite Hc, Hs. }
  erewrite run_bind by (apply run_getitem; lia).
  rewrite Nat2Z.id. cbn [size foldr]. rewrite Nat.mul_1_r.
  erewrite run_bind by (apply run_nd_read; by apply list_lookup_middle).
  rewrite window_all;
    [|done|unfold nd_size, Ti, image_target; cbn [nd_shape size foldr];
           rewrite length_target_buffer; lia].
  erewrite run_nd_write; cycle 1.
  { cbn [nd_loc]. do 2 apply lookup_app_l_Some.
    apply list_lookup_insert_eq. lia. }
  cbn [nd_loc nd_off]. f_equal.
  rewrite <-app_assoc.
  rewrite insert_app_l by (rewrite length_insert; lia).
  by rewrite list_insert_insert_eq.
Qed.

(** ** The whole pipeline *)

Lemma length_pairs d : length (pairs d) = length d / 2.
Proof.
  revert d. fix IH 1. intros [|x [|y d]]; [done|done|].
  cbn [pairs length]. rewrite IH.
  change (S (S (length d))) with (1 * 2 + length d).
  rewrite Nat.div_add_l by done. lia.
Qed.

Lemma run_asnumpy_rows σ a :
  valid σ a → asnumpy_rows a σ = (Ok (pairs (contents σ a)), σ).
Proof.
  intros (buf & Hb & _). unfold asnumpy_rows, contents. rewrite Hb.
  by erewrite run_bind by (by apply run_nd_read).
Qed.

Lemma length_contents σ a :
  valid σ a → length (contents σ a) = nd_size a.
Proof.
  intros (buf & Hb & Hlen). unfold contents, window. rewrite Hb.
  rewrite length_take, length_drop. lia.
Qed.

Lemma rows2_length σ a K : rows2 σ a K → length (pairs (contents σ a)) = K.
Proof.
  intros [Hsh Hv]. rewrite length_pairs, length_contents by done.
  unfold nd_size. rewrite Hsh. cbn [size foldr].
  rewrite Nat.mul_1_r. by apply Nat.div_mul.
Qed.

(** [_get_final_preds] up to the loop under [# Transform back]: either the
    post-processing loop is refused, or the run goes on with the
    coordinates the loop leaves. *)
Lemma _get_final_preds_prefix `{trig : NumpyTrig} σ bh center scale
    N J H W :
  batch4 σ bh N J H W → valid σ center → valid σ scale →
  ∃ r, mapM argmax_max (chunks (N * J) (H * W) (contents σ bh)) = Some r
    ∧ let dt := nd_dtype bh in
      let B := r ≫= stored_peak dt W in
      let buffers := λ coords,
        [ (λ x, stored_index dt (fst x)) <$> r ; snd <$> r ; coords ;
          tile2 (greater0 <$> (snd <$> r)) ] in
      if refused dt W H N J B
      then _get_final_preds bh center scale σ
           = (Raise MXNetError, σ ++ buffers B)
      else _get_final_preds bh center scale σ
           = (transform_back (mkND (length σ + 2) 0 [N; J; 2] float32)
                             (mkND (length σ + 4) 0 [N; J; 2] float32)
                             (pairs (contents σ center))
                             (pairs (contents σ scale)) W H ;;;
              ret (mkND (length σ + 4) 0 [N; J; 2] float32,
                   mkND (length σ + 1) 0 [N; J; 1] dt))
               (σ ++ buffers (coords_after dt W H (contents σ bh) N J B)
                  ++ [replicate (N * (J * 2)) 0%Q]).
Proof.
  intros (Hs & Hv & HN & HJ & HH & HW) Hvc Hvs.
  destruct (get_max_pred_run σ bh N J H W) as (r & Hr & Hrun); try done.
  exists r. split; [done|]. intros dt B buffers.
  assert (length r = N * J) as Hlr.
  { apply length_mapM in Hr. by rewrite length_chunks in Hr. }
  assert (length B = N * J * 2) as HlB.
  { unfold B. rewrite (length_bind_const _ _ 2) by done. lia. }
  pose proof Hv as (bufh & Hbh & Hlh).
  destruct bh as [lh oh shh dth].
  cbn [nd_shape nd_loc nd_off nd_dtype] in *. subst shh.
  unfold nd_size in Hlh. cbn [nd_shape size foldr] in Hlh.
  assert (contents σ (mkND lh oh [N; J; H; W] dth)
          = take (N * J * (H * W)) (drop oh bufh)) as Hhd.
  { unfold contents, window, nd_size. cbn [nd_shape nd_loc nd_off size foldr].
    rewrite Hbh. f_equal. lia. }
  assert (lh < length σ) as Hlhσ by (by eapply lookup_lt_Some).
  assert (_get_final_preds (mkND lh oh [N; J; H; W] dth) center scale σ
          = (post_processing (mkND lh oh [N; J; H; W] dth)
               (mkND (length σ + 2) 0 [N; J; 2] float32) W H ;;;
             preds <- nd_zeros_like
                        (mkND (length σ + 2) 0 [N; J; 2] float32) ;;
             transform_back (mkND (length σ + 2) 0 [N; J; 2] float32) preds
               (pairs (contents σ center)) (pairs (contents σ scale)) W H ;;;
             ret (preds, mkND (length σ + 1) 0 [N; J; 1] dth))
              (σ ++ buffers B)) as ->.
  { unfold _get_final_preds.
    erewrite run_bind by (by apply run_asnumpy_rows).
    erewrite run_bind by (by apply run_asnumpy_rows).
    erewrite run_bind by exact Hrun.
    cbv beta iota.
    erewrite run_bind by reflexivity.
    by erewrite run_bind by reflexivity. }
  unfold refused, coords_after. fold dt. destruct (decide (dt = float32)) as [Hdt|Hdt].
  - unfold dt in Hdt. subst dth.
    erewrite run_bind; cycle 1.
    { apply (run_post_processing lh oh (length σ + 2) 0 N J H W float32 _
               bufh B).
      - lia.
      - by apply lookup_app_l_Some.
      - lia.
      - unfold buffers. by rewrite lookup_app_add.
      - lia. }
    rewrite <-Hhd. unfold buffers.
    rewrite insert_app_r. cbn [insert list_insert].
    unfold nd_zeros_like, nd_size. cbn [nd_shape nd_dtype size foldr].
    erewrite run_bind by apply run_alloc_ext. cbn [app length].
    rewrite Nat.mul_1_r. reflexivity.
  - pose proof (run_post_processing_mismatch lh oh (length σ + 2) 0 N J H W
                  dth float32 (σ ++ buffers B) bufh B) as Hpost.
    destruct (any_interior W H 0 N J B).
    { erewrite run_bind_raise; [reflexivity|].
      apply Hpost;
        [lia|by intros ?|by apply lookup_app_l_Some|lia
        |unfold buffers; by rewrite lookup_app_add|lia]. }
    erewrite run_bind; cycle 1.
    { apply Hpost;
        [lia|by intros ?|by apply lookup_app_l_Some|lia
        |unfold buffers; by rewrite lookup_app_add|lia]. }
    unfold buffers.
    unfold nd_zeros_like, nd_size. cbn [nd_shape nd_dtype size foldr].
    erewrite run_bind by apply run_alloc_ext. cbn [app length].
    rewrite Nat.mul_1_r. reflexivity.
Qed.

(** The whole run, with a center and a scale for each image. *)
Lemma _get_final_preds_run `{trig : NumpyTrig} σ bh center scale N J H W :
  batch4 σ bh N J H W → rows2 σ center N → rows2 σ scale N →
  ∃ r, mapM argmax_max (chunks (N * J) (H * W) (contents σ bh)) = Some r
    ∧ let dt := nd_dtype bh in
      let B := r ≫= stored_peak dt W in
      let coords := coords_after dt W H (contents σ bh) N J B in
      let centers := pairs (contents σ center) in
      let scales := pairs (contents σ scale) in
      if refused dt W H N J B
      then ∃ σ', _get_final_preds bh center scale σ = (Raise MXNetError, σ')
      else
        _get_final_preds bh center scale σ
        = (Ok (mkND (length σ + 4) 0 [N; J; 2] float32,
               mkND (length σ + 1) 0 [N; J; 1] dt),
           σ ++ [ (λ x, stored_index dt (fst x)) <$> r ; snd <$> r ; coords ;
                  tile2 (greater0 <$> (snd <$> r)) ;
                  preds_buffer W H centers scales coords 0 N J 0
                               (replicate (N * (J * 2)) 0%Q) ]
             ++ (image_target W H centers scales coords 0 J <$> seq 0 N)).
Proof.
  intros Hb Hc Hs.
  destruct (_get_final_preds_prefix σ bh center scale N J H W Hb
              (proj2 Hc) (proj2 Hs)) as (r & Hr & Hrun).
  exists r. split; [done|]. cbv zeta in *.
  set (dt := nd_dtype bh) in *.
  set (B := r ≫= stored_peak dt W) in *.
  set (coords := coords_after dt W H (contents σ bh) N J B) in *.
  destruct (refused dt W H N J B); [by eexists|].
  rewrite Hrun. clear Hrun.
  pose proof (rows2_length _ _ _ Hc) as Hlcen.
  pose proof (rows2_length _ _ _ Hs) as Hlsca.
  assert (length r = N * J) as Hlr.
  { apply length_mapM in Hr. by rewrite length_chunks in Hr. }
  assert (length coords = N * J * 2) as Hlco.
  { unfold coords, coords_after. destruct (decide _).
    - rewrite length_refine_all. unfold B.
      rewrite (length_bind_const _ _ 2) by done. lia.
    - unfold B. rewrite (length_bind_const _ _ 2) by done. lia. }
  erewrite run_bind; cycle 1.
  { apply (run_transform_back (length σ + 2) 0 (length σ + 4) 0 N J W H
             _ _ _ coords (replicate (N * (J * 2)) 0%Q)).
    - lia.
    - by rewrite lookup_app_add.
    - lia.
    - by rewrite lookup_app_add.
    - rewrite length_replicate. lia.
    - lia.
    - lia. }
  rewrite insert_app_r. cbn [insert list_insert].
  by rewrite <-app_assoc.
Qed.

(** ** The frame of the decoder *)

Lemma keeps_ret L {A} (a : A) (Q : A → Prop) : Q a → keeps L (ret a) Q.
Proof. intros Ha σ _. simpl. repeat split; [done|]. by intros ? [= <-]. Qed.

Lemma keeps_raise L {A} e (Q : A → Prop) : keeps L (raise e) Q.
Proof. intros σ _. simpl. by repeat split. Qed.

Lemma keeps_lift L {A} (r : result A) : keeps L (lift r) (λ _, True).
Proof. intros σ _. simpl. by repeat split. Qed.

Lemma keeps_bind L {A B} (m : M A) (k : A → M B) (Q : A → Prop)
    (R : B → Prop) :
  keeps L m Q → (∀ a, Q a → keeps L (k a) R) → keeps L (x <- m ;; k x) R.
Proof.
  intros Hm Hk σ Hσ. destruct (Hm σ Hσ) as (Ht & Hl & HQ).
  unfold bind. destruct (m σ) as [[a|e] σ1]; simpl in *.
  - destruct (Hk a (HQ a eq_refl) σ1 ltac:(lia)) as (Ht' & Hl' & HR).
    split; [congruence|]. split; [lia|done].
  - by repeat split.
Qed.

Lemma keeps_weaken L {A} (m : M A) (Q R : A → Prop) :
  keeps L m Q → (∀ a, Q a → R a) → keeps L m R.
Proof.
  intros Hm HQR σ Hσ. destruct (Hm σ Hσ) as (Ht & Hl & HQ).
  repeat split; [done..|]. intros a Ha. by apply HQR, HQ.
Qed.

Lemma keeps_alloc L sh dt d : keeps L (nd_alloc sh dt d) (fresh L).
Proof.
  intros σ Hσ. simpl. split; [by rewrite take_app_le|].
  split; [rewrite length_app; lia|]. by intros a [= <-].
Qed.

Lemma keeps_read L a : keeps L (nd_read a) (λ _, True).
Proof.
  intros σ _. unfold nd_read. by destruct (σ !! nd_loc a); repeat split.
Qed.

Lemma keeps_write L a d : fresh L a → keeps L (nd_write a d) (λ _, True).
Proof.
  intros Ha σ _. unfold nd_write. destruct (σ !! nd_loc a); simpl.
  - split; [by apply take_insert_ge|]. by rewrite length_insert.
  - by repeat split.
Qed.

Lemma keeps_shape_at L a k : keeps L (shape_at a k) (λ _, True).
Proof.
  unfold shape_at. destruct (nd_shape a !! k);
    [by apply keeps_ret|apply keeps_raise].
Qed.

Lemma keeps_getitem L a i :
  keeps L (getitem a i) (λ b, nd_loc b = nd_loc a).
Proof.
  unfold getitem. destruct (nd_shape a); [apply keeps_raise|].
  repeat case_match; by (apply keeps_ret || apply keeps_raise).
Qed.

Lemma keeps_getitem2 L a i j :
  keeps L (getitem2 a i j) (λ b, nd_loc b = nd_loc a).
Proof.
  unfold getitem2. eapply keeps_bind; [apply keeps_getitem|].
  intros b Hb. eapply keeps_weaken; [apply keeps_getitem|].
  intros c Hc. congruence.
Qed.

Lemma keeps_getitem_row2 L a p :
  keeps L (getitem_row2 a p) (λ b, nd_loc b = nd_loc a).
Proof.
  unfold getitem_row2.
  repeat case_match; by (apply keeps_ret || apply keeps_raise).
Qed.

Lemma keeps_for_each L {A} (l : list A) (body : A → M unit) :
  (∀ x, keeps L (body x) (λ _, True)) →
  keeps L (for_each l body) (λ _, True).
Proof.
  intros Hb. induction l as [|x l IH]; simpl; [by apply keeps_ret|].
  eapply keeps_bind; [apply Hb|done].
Qed.

Ltac keeps_step :=
  first
    [ eapply keeps_bind;
      [ first [ apply keeps_read | apply keeps_shape_at | apply keeps_alloc
              | apply keeps_getitem2 | apply keeps_getitem
              | apply keeps_getitem_row2 | apply keeps_lift ] | intros ]
    | apply keeps_raise
    | by apply keeps_ret ].

Lemma keeps_asscalar L a : keeps L (asscalar a) (λ _, True).
Proof.
  unfold asscalar. keeps_step.
  repeat case_match; by (apply keeps_ret || apply keeps_raise).
Qed.

Lemma keeps_reduce_axis2 L f a : keeps L (reduce_axis2 f a) (fresh L).
Proof.
  unfold reduce_axis2. keeps_step.
  repeat case_match; by (apply keeps_alloc || apply keeps_raise).
Qed.

Lemma keeps_update_column L a c f :
  fresh L a → keeps L (update_column a c f) (λ _, True).
Proof.
  intros Ha. unfold update_column. keeps_step.
  repeat case_match; by (apply keeps_write || apply keeps_raise).
Qed.

Lemma keeps_imul L a b : fresh L a → keeps L (nd_imul a b) (λ _, True).
Proof.
  intros Ha. unfold nd_imul. do 2 keeps_step.
  case_decide; by (apply keeps_write || apply keeps_raise).
Qed.

Lemma keeps_iadd L a dt v :
  fresh L a → keeps L (nd_iadd a dt v) (λ _, True).
Proof.
  intros Ha. unfold nd_iadd. keeps_step.
  case_decide; by (apply keeps_write || apply keeps_raise).
Qed.

Lemma keeps_get_max_pred L bh :
  keeps L (get_max_pred bh) (λ r, fresh L r.1 ∧ fresh L r.2).
Proof.
  unfold get_max_pred. do 3 keeps_step.
  eapply keeps_bind; [apply keeps_reduce_axis2|]. intros idx Hidx.
  eapply keeps_bind; [apply keeps_reduce_axis2|]. intros maxvals Hmax.
  keeps_step. keeps_step.
  eapply keeps_bind; [by apply keeps_update_column|]. intros _ _.
  eapply keeps_bind; [by apply keeps_update_column|]. intros _ _.
  do 2 keeps_step.
  eapply keeps_bind; [by apply keeps_imul|]. intros _ _.
  by apply keeps_ret.
Qed.

Lemma keeps_elem_diff L hm i1 j1 i2 j2 :
  keeps L (elem_diff hm i1 j1 i2 j2) (λ _, True).
Proof. unfold elem_diff. by do 5 keeps_step. Qed.

Lemma keeps_rounded L coords n p k :
  keeps L (rounded coords n p k) (λ _, True).
Proof.
  unfold rounded. do 2 keeps_step.
  eapply keeps_bind; [apply keeps_asscalar|]. intros. by apply keeps_ret.
Qed.

Lemma keeps_post_processing L bh coords W H :
  fresh L coords → keeps L (post_processing bh coords W H) (λ _, True).
Proof.
  intros Hc. unfold post_processing. keeps_step.
  apply keeps_for_each. intros n. keeps_step.
  apply keeps_for_each. intros p. keeps_step.
  eapply keeps_bind; [apply keeps_rounded|]. intros px _.
  eapply keeps_bind; [apply keeps_rounded|]. intros py _.
  destruct (interior W H px py); [|by apply keeps_ret].
  eapply keeps_bind; [apply keeps_elem_diff|]. intros dx _.
  eapply keeps_bind; [apply keeps_elem_diff|]. intros dy _.
  eapply keeps_bind; [apply keeps_getitem2|]. intros c Hloc.
  apply keeps_iadd. unfold fresh in *. by rewrite Hloc.
Qed.

Lemma keeps_transform_preds `{trig : NumpyTrig} L coords c s out :
  keeps L (transform_preds coords c s out) (fresh L).
Proof.
  unfold transform_preds, nd_zeros.
  eapply keeps_bind; [apply keeps_alloc|]. intros target Ht.
  keeps_step.
  eapply keeps_bind; [|intros; by apply keeps_ret].
  apply keeps_for_each. intros p. do 4 keeps_step.
  apply keeps_write. unfold fresh in *. congruence.
Qed.

Lemma keeps_np_row L rows i : keeps L (np_row rows i) (λ _, True).
Proof.
  unfold np_row. destruct (rows !! i); [by apply keeps_ret|apply keeps_raise].
Qed.

Lemma keeps_transform_back `{trig : NumpyTrig} L coords preds cs ss W H :
  fresh L preds →
  keeps L (transform_back coords preds cs ss W H) (λ _, True).
Proof.
  intros Hp. unfold transform_back. keeps_step.
  apply keeps_for_each. intros i. keeps_step.
  eapply keeps_bind; [apply keeps_np_row|]. intros c _.
  eapply keeps_bind; [apply keeps_np_row|]. intros s _.
  eapply keeps_bind; [apply keeps_transform_preds|]. intros target Ht.
  eapply keeps_bind; [apply keeps_getitem|]. intros preds_i Hloc.
  keeps_step. apply keeps_write. unfold fresh in *. congruence.
Qed.

Lemma keeps__get_final_preds `{trig : NumpyTrig} L bh center scale :
  keeps L (_get_final_preds bh center scale) (λ _, True).
Proof.
  unfold _get_final_preds, asnumpy_rows.
  eapply keeps_bind.
  { eapply keeps_bind; [apply keeps_read|].
    intros. by apply (keeps_ret L _ (λ _, True)). }
  intros center_ _.
  eapply keeps_bind.
  { eapply keeps_bind; [apply keeps_read|].
    intros. by apply (keeps_ret L _ (λ _, True)). }
  intros scale_ _.
  eapply keeps_bind; [apply keeps_get_max_pred|].
  intros [coords maxvals] [Hc Hm]. simpl in Hc, Hm.
  do 2 keeps_step.
  eapply keeps_bind; [by apply keeps_post_processing|]. intros _ _.
  unfold nd_zeros_like.
  eapply keeps_bind; [apply keeps_alloc|]. intros preds Hp.
  eapply keeps_bind; [by apply keeps_transform_back|]. intros _ _.
  by apply keeps_ret.
Qed.

(** ** The predictions, joint by joint *)

Lemma nested_block (P : list Q) J n p :
  p < J →
  take 2 (drop (p * 2) (take (J * 2) (drop (n * (J * 2)) P)))
  = take 2 (drop ((n * J + p) * 2) P).
Proof.
  intros Hp. apply list_eq. intros k.
  rewrite !lookup_take, !lookup_drop. case_decide; [|done].
  rewrite lookup_take_lt, lookup_drop by lia. f_equal. lia.
Qed.

Lemma target_buffer_row t src o J p :
  o + J * 2 ≤ length src → p < J →
  take 2 (drop (p * 2) (target_buffer t src o J))
  = affine_xy t (take 2 (drop (o + p * 2) src)).
Proof.
  intros Hlen Hp. unfold target_buffer.
  pose proof (foldl_update_block 2
    (λ p _, affine_xy t (take 2 (drop (o + p * 2) src))) 0 (seq 0 J)
    (replicate (J * 2) 0%Q) p) as Hf.
  cbn [Nat.add] in Hf. rewrite Hf.
  - rewrite decide_True; [done|]. apply elem_of_seq. lia.
  - apply NoDup_seq.
  - intros i Hi%elem_of_seq. rewrite length_replicate. lia.
  - intros i xy Hi%elem_of_seq _. apply length_affine_xy.
    rewrite length_take, length_drop. lia.
Qed.

Lemma preds_buffer_joint `{trig : NumpyTrig} W H centers scales src N J P
    n p :
  N * (J * 2) ≤ length src → N * (J * 2) ≤ length P →
  n < N → p < J →
  take 2 (drop ((n * J + p) * 2)
            (preds_buffer W H centers scales src 0 N J 0 P))
  = affine_xy (inverse_transform W H (default (0, 0)%Q (centers !! n))
                                     (default (0, 0)%Q (scales !! n)))
              (take 2 (drop ((n * J + p) * 2) src)).
Proof.
  intros Hsrc HP Hn Hp. rewrite <-nested_block by done.
  unfold preds_buffer.
  pose proof (foldl_update_block (J * 2)
    (λ i _, image_target W H centers scales src 0 J i) 0 (seq 0 N) P n) as Hf.
  cbn [Nat.add] in Hf. rewrite Hf.
  - rewrite decide_True by (apply elem_of_seq; lia).
    unfold image_target. rewrite target_buffer_row by (done || nia).
    do 3 f_equal. lia.
  - apply NoDup_seq.
  - intros i Hi%elem_of_seq. nia.
  - intros i xy _ _. unfold image_target. apply length_target_buffer.
Qed.

Lemma take_drop_bind {A} (f : A → list Q) (l : list A) k i x :
  (∀ y, length (f y) = k) → l !! i = Some x →
  take k (drop (i * k) (l ≫= f)) = f x.
Proof.
  intros Hf. revert i. induction l as [|y l IH]; intros i Hi; [done|].
  rewrite bind_cons. destruct i as [|i].
  - inversion Hi; subst. rewrite Nat.mul_0_l, drop_0.
    rewrite take_app_length'; [done|by rewrite Hf].
  - change (S i * k) with (k + i * k).
    rewrite drop_app_ge by (rewrite Hf; lia). rewrite Hf.
    replace (k + i * k - k) with (i * k) by lia. by apply IH.
Qed.

(** ** The code against the specification's pipeline *)

Lemma argmax_max_list_find g i m :
  argmax_max g = Some (i, m) → list_find (is_maximum g) g = Some (i, m).
Proof.
  intros (Hat & Hall & Hbefore)%argmax_max_first.
  apply list_find_Some. split; [done|]. split.
  - apply Forall_lookup. intros j u Hj. by eapply Hall.
  - intros j u Hj Hlt Hmax.
    pose proof (Hbefore j u Hlt Hj) as Hum.
    pose proof (Forall_lookup_1 _ _ _ _ Hmax Hat) as Hmu.
    by eapply Qlt_not_le.
Qed.

Lemma Qsign_sign v : Qsign v = sign v.
Proof.
  unfold Qsign, sign. destruct v as [n d].
  repeat case_decide; unfold Qlt in *; simpl in *;
    destruct n; simpl; (reflexivity || lia).
Qed.

Lemma peak_xy_locate W i m :
  0 < W →
  ∃ x y, peak_xy W (i, m) = [x; y]
    ∧ let coord := if decide (m <= 0)%Q then (0, 0)%Q
                   else (of_nat (i mod W), of_nat (i / W)) in
      (x == fst coord)%Q ∧ (y == snd coord)%Q.
Proof.
  intros HW. eexists _, _. split; [reflexivity|]. cbn [fst snd].
  case_decide as Hm.
  - rewrite greater0_nonpos by done. cbn [fst snd]. split; ring.
  - rewrite greater0_pos by (by apply Qnot_le_lt).
    rewrite Qmod_of_nat, Qfloor_of_nat_div by done. cbn [fst snd].
    split; unfold of_nat; ring.
Qed.

Lemma refine_xy_subpixel W H g x y x0 y0 :
  (x == x0)%Q → (y == y0)%Q →
  ∃ x' y', refine_xy W H g [x; y] = [x'; y']
    ∧ (x' == fst (refine_subpixel W H g (x0, y0)))%Q
    ∧ (y' == snd (refine_subpixel W H g (x0, y0)))%Q.
Proof.
  intros Hx Hy. unfold refine_xy, refine_subpixel. cbn [fst snd].
  assert (Qfloor (x + (1 # 2)) = Qfloor (x0 + (1 # 2))) as ->
    by (apply Qfloor_comp; by rewrite Hx).
  assert (Qfloor (y + (1 # 2)) = Qfloor (y0 + (1 # 2))) as ->
    by (apply Qfloor_comp; by rewrite Hy).
  destruct (interior W H _ _) eqn:Hint.
  - rewrite decide_True by (by apply interior_iff).
    eexists _, _. split; [reflexivity|]. cbn [fst snd].
    rewrite !Qsign_sign, Hx, Hy. split; ring.
  - rewrite decide_False; cycle 1.
    { intros Hin%interior_iff. congruence. }
    by exists x, y.
Qed.

Lemma affine_xy_image_space `{trig : NumpyTrig} W H c s x y x0 y0 :
  (x == x0)%Q → (y == y0)%Q →
  ∃ a b, affine_xy (inverse_transform W H c s) [x; y] = [a; b]
    ∧ (a == fst (to_image_space W H c s (x0, y0)))%Q
    ∧ (b == snd (to_image_space W H c s (x0, y0)))%Q.
Proof.
  intros Hx Hy. eexists _, _. split; [reflexivity|].
  unfold to_image_space, inverse_transform. cbn [fst snd].
  by rewrite Hx, Hy.
Qed.

Lemma block_lookup {A} (B xy : list A) K o k :
  take K (drop o B) = xy → k < K → B !! (o + k) = xy !! k.
Proof.
  intros <- Hk. by rewrite lookup_take_lt, lookup_drop.
Qed.

(** The entries of a run that the post-processing loop lets through, in
    terms of the coordinates the loop leaves. *)
Lemma _get_final_preds_entries `{trig : NumpyTrig} σ bh center scale
    N J H W :
  batch4 σ bh N J H W → rows2 σ center N → rows2 σ scale N →
  ∃ r, mapM argmax_max (chunks (N * J) (H * W) (contents σ bh)) = Some r
    ∧ let dt := nd_dtype bh in
      let B := r ≫= stored_peak dt W in
      let coords := coords_after dt W H (contents σ bh) N J B in
      if refused dt W H N J B
      then ∃ σ', _get_final_preds bh center scale σ = (Raise MXNetError, σ')
      else
        ∃ preds maxvals σ',
          _get_final_preds bh center scale σ = (Ok (preds, maxvals), σ')
          ∧ ∀ n p, n < N → p < J →
              ∃ i m c s,
                r !! (n * J + p) = Some (i, m)
                ∧ argmax_max (heatmap σ bh n p) = Some (i, m)
                ∧ pairs (contents σ center) !! n = Some c
                ∧ pairs (contents σ scale) !! n = Some s
                ∧ entry3 σ' maxvals n p 0 = Some m
                ∧ let xy := affine_xy (inverse_transform W H c s)
                              (take 2 (drop ((n * J + p) * 2) coords)) in
                  entry3 σ' preds n p 0 = xy !! 0
                  ∧ entry3 σ' preds n p 1 = xy !! 1.
Proof.
  intros Hb Hc Hs.
  destruct (_get_final_preds_run σ bh center scale N J H W Hb Hc Hs)
    as (r & Hr & Hrun).
  exists r. split; [exact Hr|].
  cbv zeta in *.
  set (dt := nd_dtype bh) in *.
  set (B := r ≫= stored_peak dt W) in *.
  set (coords := coords_after dt W H (contents σ bh) N J B) in *.
  destruct (refused dt W H N J B); [exact Hrun|].
  set (centers := pairs (contents σ center)) in *.
  set (scales := pairs (contents σ scale)) in *.
  set (P := preds_buffer W H centers scales coords 0 N J 0
              (replicate (N * (J * 2)) 0%Q)) in *.
  eexists _, _, _. split; [exact Hrun|].
  intros n p Hn Hp.
  destruct Hb as (Hsh & Hv & HN & HJ & HH & HW).
  assert (n * J + p < N * J) as Hi by nia.
  assert (length r = N * J) as Hlr.
  { apply length_mapM in Hr. by rewrite length_chunks in Hr. }
  destruct (mapM_chunks_lookup _ _ _ _ (n * J + p) Hr Hi)
    as ([i m] & Hx & Ha).
  pose proof (rows2_length _ _ _ Hc) as Hlcen. fold centers in Hlcen.
  pose proof (rows2_length _ _ _ Hs) as Hlsca. fold scales in Hlsca.
  destruct (lookup_lt_is_Some_2 centers n) as [c Hcn]; [lia|].
  destruct (lookup_lt_is_Some_2 scales n) as [s Hsn]; [lia|].
  assert (heatmap σ bh n p = grid H W (contents σ bh) (n * J + p)) as Hhm.
  { unfold heatmap. by rewrite Hsh. }
  assert (length coords = N * J * 2) as Hlco.
  { unfold coords, coords_after. destruct (decide _).
    - rewrite length_refine_all. unfold B.
      rewrite (length_bind_const _ _ 2) by done. lia.
    - unfold B. rewrite (length_bind_const _ _ 2) by done. lia. }
  assert (length P = N * (J * 2)) as HlP.
  { unfold P, preds_buffer.
    by rewrite length_foldl_update_block, length_replicate. }
  exists i, m, c, s. rewrite Hhm.
  split; [exact Hx|]. split; [exact Ha|].
  split; [exact Hcn|]. split; [exact Hsn|].
  split.
  { erewrite entry3_lookup;
      [|by rewrite lookup_app_add|rewrite length_fmap; lia|done..|lia].
    rewrite list_lookup_fmap.
    replace (0 + (n * J + p) * 1 + 0) with (n * J + p) by lia.
    by rewrite Hx. }
  assert (take 2 (drop ((n * J + p) * 2) P)
          = affine_xy (inverse_transform W H c s)
              (take 2 (drop ((n * J + p) * 2) coords))) as Hseg.
  { unfold P.
    rewrite preds_buffer_joint
      by (done || lia || rewrite length_replicate; lia).
    by rewrite Hcn, Hsn. }
  cbv zeta. split.
  - erewrite entry3_lookup;
      [|by rewrite lookup_app_add|lia|done..|lia].
    cbn [Nat.add]. by apply (block_lookup _ _ 2); [|lia].
  - erewrite entry3_lookup;
      [|by rewrite lookup_app_add|lia|done..|lia].
    cbn [Nat.add]. by apply (block_lookup _ _ 2); [|lia].
Qed.

Lemma refused_float32 W H N J B : refused float32 W H N J B = false.
Proof. done. Qed.

(** On [float32] heatmaps the run returns, and each prediction is the
    transform of the refined peak. *)
Lemma _get_final_preds_joint `{trig : NumpyTrig} σ bh center scale N J H W :
  batch4 σ bh N J H W → nd_dtype bh = float32 →
  rows2 σ center N → rows2 σ scale N →
  ∃ preds maxvals σ',
    _get_final_preds bh center scale σ = (Ok (preds, maxvals), σ')
    ∧ ∀ n p, n < N → p < J →
        ∃ i m c s,
          argmax_max (heatmap σ bh n p) = Some (i, m)
          ∧ pairs (contents σ center) !! n = Some c
          ∧ pairs (contents σ scale) !! n = Some s
          ∧ entry3 σ' maxvals n p 0 = Some m
          ∧ let xy := affine_xy (inverse_transform W H c s)
                        (refine_xy W H (heatmap σ bh n p)
                                   (stored_peak float32 W (i, m))) in
            entry3 σ' preds n p 0 = xy !! 0
            ∧ entry3 σ' preds n p 1 = xy !! 1.
Proof.
  intros Hb Hdt Hc Hs.
  destruct (_get_final_preds_entries σ bh center scale N J H W Hb Hc Hs)
    as (r & Hr & Hrun).
  cbv zeta in Hrun. rewrite Hdt, refused_float32 in Hrun.
  destruct Hrun as (preds & maxvals & σ' & Hrun & Hj).
  exists preds, maxvals, σ'. split; [exact Hrun|].
  intros n p Hn Hp.
  destruct (Hj n p Hn Hp) as (i & m & c & s & Hx & Ha & Hcn & Hsn & Hm & Hxy).
  exists i, m, c, s. do 4 (split; [done|]).
  destruct Hb as (Hsh & Hv & HN & HJ & HH & HW).
  assert (n * J + p < N * J) as Hi by nia.
  assert (length r = N * J) as Hlr.
  { apply length_mapM in Hr. by rewrite length_chunks in Hr. }
  assert (heatmap σ bh n p = grid H W (contents σ bh) (n * J + p)) as ->.
  { unfold heatmap. by rewrite Hsh. }
  unfold coords_after in Hxy. rewrite decide_True in Hxy by done.
  pose proof (refine_all_joint W H (contents σ bh) 0 N J
                (r ≫= stored_peak float32 W) (n * J + p)) as Href.
  cbn [Nat.add] in Href. rewrite Href in Hxy;
    [|rewrite (length_bind_const _ _ 2) by done; lia|done].
  by rewrite (take_drop_bind _ _ 2 _ (i, m)) in Hxy.
Qed.

(** ** Affine maps respect equality of values *)

Ltac rewrite_all_Qeq :=
  repeat match goal with
         | H : (_ == _)%Q |- _ => rewrite H; clear H
         end.

Lemma lead_proper r r' : coef_eq r r' → (lead r == lead r')%Q.
Proof.
  unfold coef_eq, lead. intros H. destruct H; simpl; [reflexivity|done].
Qed.

Lemma Qlt_le_dec_proper {A} (a b a' b' : Q) (x y : A) :
  (a == a')%Q → (b == b')%Q →
  (if Qlt_le_dec a b then x else y) = (if Qlt_le_dec a' b' then x else y).
Proof.
  intros Ha Hb.
  destruct (Qlt_le_dec a b) as [H1|H1], (Qlt_le_dec a' b') as [H2|H2];
    try reflexivity; exfalso; rewrite Ha, Hb in H1; by eapply Qlt_not_le.
Qed.

Lemma pivot_search_proper col col' k best best' j :
  Forall2 Qeq col col' → (best == best')%Q →
  pivot_search k best j col = pivot_search k best' j col'.
Proof.
  intros Hc. revert k best best' j.
  induction Hc as [|v v' col col' Hv Hc IH]; intros k best best' j Hb;
    [reflexivity|].
  cbn [pivot_search].
  assert (Qabs v == Qabs v')%Q as Hav by (by rewrite Hv).
  destruct (Qlt_le_dec best (Qabs v)) as [H1|H1],
           (Qlt_le_dec best' (Qabs v')) as [H2|H2].
  - by apply IH.
  - exfalso. rewrite Hb, Hav in H1. by eapply Qlt_not_le.
  - exfalso. rewrite <-Hb, <-Hav in H2. by eapply Qlt_not_le.
  - by apply IH.
Qed.

Section Proper.
(** A relation on right-hand sides that the elimination respects:
    equality of values, or no relation at all. *)
Variable P : Q → Q → Prop.
Hypothesis P_update : ∀ b b' c c' α α',
  P b b' → P c c' → (α == α')%Q →
  P (Qred (b + α * c)) (Qred (b' + α' * c')).

Lemma lu_pivot_rel rows rows' :
  Forall2 (row_rel P) rows rows' →
  option_Forall2 (λ x y, row_rel P x.1 y.1 ∧ Forall2 (row_rel P) x.2 y.2)
                 (lu_pivot rows) (lu_pivot rows').
Proof.
  intros Hr. destruct Hr as [|f f' rest rest' Hf Hrest]; [constructor|].
  unfold lu_pivot.
  assert (pivot_search 0 (Qabs (lead f)) 1 (lead <$> rest)
          = pivot_search 0 (Qabs (lead f')) 1 (lead <$> rest')) as <-.
  { apply pivot_search_proper.
    - apply Forall2_fmap. eapply Forall2_impl; [exact Hrest|].
      intros r r' [Hc _]. by apply lead_proper.
    - rewrite (lead_proper f f') by apply Hf. reflexivity. }
  set (k := pivot_search _ _ _ _).
  assert (Forall2 (row_rel P) (f :: rest) (f' :: rest')) as Hall
    by (by constructor).
  destruct ((f :: rest) !! k) as [p|] eqn:Hp.
  - destruct (Forall2_lookup_l _ _ _ _ _ Hall Hp) as (p' & Hp' & Hpp).
    rewrite Hp'.
    assert (Qabs (lead p) == Qabs (lead p'))%Q as Hl
      by (rewrite (lead_proper p p') by apply Hpp; reflexivity).
    destruct (Qlt_le_dec (Qabs (lead p)) lu_eps) as [H1|H1],
             (Qlt_le_dec (Qabs (lead p')) lu_eps) as [H2|H2].
    + constructor.
    + exfalso. rewrite Hl in H1. by eapply Qlt_not_le.
    + exfalso. rewrite <-Hl in H2. by eapply Qlt_not_le.
    + constructor. split; [exact Hpp|]. cbn [fst snd].
      assert (Forall2 (row_rel P) (<[k := f]> (f :: rest))
                      (<[k := f']> (f' :: rest'))) as Hins
        by (by apply Forall2_insert).
      destruct Hins; [constructor|done].
  - assert ((f' :: rest') !! k = None) as ->.
    { apply lookup_ge_None. apply lookup_ge_None in Hp.
      by rewrite <-(Forall2_length _ _ _ Hall). }
    constructor.
Qed.

Lemma reduce_row_rel p p' d d' r r' :
  row_rel P p p' → (d == d')%Q → row_rel P r r' →
  row_rel P (reduce_row p d r) (reduce_row p' d' r').
Proof.
  intros [Hp Hpb] Hd [Hr Hrb].
  assert (lead r * d == lead r' * d')%Q as Ha
    by (by rewrite (lead_proper r r'), Hd).
  unfold reduce_row, row_rel, coef_eq. cbn [fst snd]. split.
  - assert (Forall2 Qeq (tail r.1) (tail r'.1)) as Ht
      by (destruct Hr; [constructor|done]).
    assert (Forall2 Qeq (tail p.1) (tail p'.1)) as Htp
      by (destruct Hp; [constructor|done]).
    clear Hr Hp. revert Htp.
    generalize (tail p.1) (tail p'.1).
    induction Ht as [|x x' l l' Hx Hl IH]; intros q q' Hq;
      [by constructor|].
    destruct Hq as [|y y' q q' Hy Hq]; [constructor|].
    cbn [zip_with]. constructor; [|by apply IH].
    by rewrite !Qred_correct, Hx, Hy, Ha.
  - by apply P_update.
Qed.

Lemma lu_eliminate_rel m : ∀ rows rows',
  Forall2 (row_rel P) rows rows' →
  option_Forall2 (Forall2 (row_rel P)) (lu_eliminate m rows) (lu_eliminate m rows').
Proof.
  induction m as [|m IH]; intros rows rows' Hr; [by repeat constructor|].
  cbn [lu_eliminate].
  destruct (lu_pivot_rel rows rows' Hr) as [[p rest] [p' rest'] [Hp Hrest]|];
    [|constructor].
  cbn [fst snd] in Hp, Hrest.
  assert (- (1) / lead p == - (1) / lead p')%Q as Hd
    by (by rewrite (lead_proper p p') by apply Hp).
  destruct (IH (reduce_row p (- (1) / lead p) <$> rest)
               (reduce_row p' (- (1) / lead p') <$> rest')) as [U U' HU|].
  - apply Forall2_fmap. eapply Forall2_impl; [exact Hrest|].
    intros r r' Hrr. by apply reduce_row_rel.
  - constructor. by constructor.
  - constructor.
Qed.
End Proper.

(** ** What [LUImpl] returns solves the system *)

Lemma dot_cons a l x xs : dot (a :: l) (x :: xs) = (a * x + dot l xs)%Q.
Proof. reflexivity. Qed.

Lemma dot_proper a x y : Forall2 Qeq x y → (dot a x == dot a y)%Q.
Proof.
  intros Hxy. revert a. induction Hxy as [|u v x y Huv Hxy IH]; intros a.
  - reflexivity.
  - destruct a as [|c a]; [reflexivity|].
    rewrite !dot_cons, Huv, (IH a). reflexivity.
Qed.

Lemma dot_proper_l a a' x : Forall2 Qeq a a' → (dot a x == dot a' x)%Q.
Proof.
  intros Ha. revert x. induction Ha as [|u v a a' Huv Ha IH]; intros x.
  - reflexivity.
  - destruct x as [|c x]; [reflexivity|].
    rewrite !dot_cons, Huv, (IH x). reflexivity.
Qed.







Lemma back_substitute_proper U U' :
  Forall2 (row_rel Qeq) U U' →
  Forall2 Qeq (back_substitute U) (back_substitute U').
Proof.
  induction 1 as [|r r' U U' [Hc Hb] HU IH]; [constructor|].
  cbn [back_substitute]. constructor; [|exact IH].
  assert (Forall2 Qeq (tail r.1) (tail r'.1)) as Ht
    by (destruct Hc; [constructor|done]).
  rewrite !Qred_correct, (dot_proper_l _ _ _ Ht), (dot_proper _ _ _ IH), Hb,
    (lead_proper r r' Hc).
  reflexivity.
Qed.

Lemma Qeq_update b b' c c' α α' :
  (b == b')%Q → (c == c')%Q → (α == α')%Q →
  (Qred (b + α * c) == Qred (b' + α' * c'))%Q.
Proof. intros -> -> ->. reflexivity. Qed.

Lemma affine_system_rel (P : Q → Q → Prop) s t d e :
  tri_eq s t →
  P (row0 d).1 (row0 e).1 → P (row0 d).2 (row0 e).2 →
  P (row1 d).1 (row1 e).1 → P (row1 d).2 (row1 e).2 →
  P (row2 d).1 (row2 e).1 → P (row2 d).2 (row2 e).2 →
  Forall2 (row_rel P) (affine_system s d) (affine_system t e).
Proof.
  intros ([H0 H0'] & [H1 H1'] & [H2 H2']) P0 P0' P1 P1' P2 P2'.
  unfold affine_system, affine_equations, row_rel, coef_eq.
  cbn [app fst snd].
  repeat constructor; (done || reflexivity).
Qed.



Lemma getAffineTransform_proper s t d e :
  tri_eq s t → tri_eq d e →
  mat_eq (getAffineTransform s d) (getAffineTransform t e).
Proof.
  intros Hst Hde. pose proof Hde as ([E0 E0'] & [E1 E1'] & [E2 E2']).
  pose proof (lu_eliminate_rel Qeq Qeq_update 6 _ _
                (affine_system_rel Qeq s t d e Hst E0 E0' E1 E1' E2 E2'))
    as Hrel.
  unfold getAffineTransform, cv_solve.
  destruct Hrel as [U U' HU|]; [|by repeat split].
  cbn [fmap option_fmap option_map].
  pose proof (back_substitute_proper U U' HU) as Hx.
  destruct Hx as [|a a' ? ? Ha Hx]; [by repeat split|].
  destruct Hx as [|b b' ? ? Hb Hx]; [by repeat split|].
  destruct Hx as [|c c' ? ? Hc Hx]; [by repeat split|].
  destruct Hx as [|f f' ? ? Hf Hx]; [by repeat split|].
  destruct Hx as [|g g' ? ? Hg Hx]; [by repeat split|].
  destruct Hx as [|h h' ? ? Hh Hx]; [by repeat split|].
  destruct Hx; by repeat split.
Qed.




(** ** The pivots of the output triangle *)






(** ** The reference points *)

Lemma reference_points_scale0 `{trig : NumpyTrig} center s s' rot output_size :
  (fst s == fst s')%Q →
  tri_eq (reference_points center (ScaleArray s) rot output_size
                           default_shift).1
         (reference_points center (ScaleArray s') rot output_size
                           default_shift).1
  ∧ (reference_points center (ScaleArray s) rot output_size default_shift).2
    = (reference_points center (ScaleArray s') rot output_size
                        default_shift).2.
Proof.
  intros Hs. destruct s as [s0 s1], s' as [t0 t1], center as [cx cy].
  simpl in Hs. split; [|reflexivity].
  unfold reference_points, tri_eq, pt_eq, get_3rd_point, get_dir, vadd, vsub,
    vmul, default_shift.
  cbn [fst snd row0 row1 row2 set_row0 set_row1 set_rows_from2 zeros32].
  rewrite Hs. repeat split; ring.
Qed.

(** With no rotation the triangles are axis-parallel. *)
Lemma reference_points_rot0 `{TrigAtZero} cx cy s w h :
  tri_eq (reference_points (cx, cy) (ScaleArray s) 0 (w, h) default_shift).1
         (mkTri (cx, cy) (cx, cy - fst s / 2) (cx - fst s / 2, cy - fst s / 2))%Q
  ∧ tri_eq (reference_points (cx, cy) (ScaleArray s) 0 (w, h) default_shift).2
           (mkTri (w / 2, h / 2) (w / 2, h / 2 - w / 2)
                  (0, h / 2 - w / 2))%Q.
Proof.
  destruct s as [s0 s1].
  assert (np_pi * 0 / 180 == 0)%Q as Hz by (unfold Qdiv; ring).
  pose proof (np_sin_0 _ Hz) as Hsin. pose proof (np_cos_0 _ Hz) as Hcos.
  unfold reference_points, tri_eq, pt_eq, get_3rd_point, get_dir, vadd, vsub,
    vmul, default_shift.
  cbn [fst snd row0 row1 row2 set_row0 set_row1 set_rows_from2 zeros32].
  rewrite Hsin, Hcos. repeat split; field.
Qed.

Lemma get_affine_transform_unfold `{trig : NumpyTrig} center scale rot output_size
    shift inv :
  get_affine_transform center scale rot output_size shift inv
  = let r := reference_points center scale rot output_size shift in
    if (inv =? 0)%Z then getAffineTransform r.1 r.2
    else getAffineTransform r.2 r.1.
Proof.
  unfold get_affine_transform.
  by destruct (reference_points center scale rot output_size shift).
Qed.

Lemma mat_eq_trans a b c : mat_eq a b → mat_eq b c → mat_eq a c.
Proof.
  intros (? & ? & ? & ? & ? & ?) (? & ? & ? & ? & ? & ?).
  repeat split; etransitivity; eassumption.
Qed.

Lemma affine_xy_mat_eq t t' a b k :
  mat_eq t t' → k < 2 →
  ∃ v v', affine_xy t [a; b] !! k = Some v
    ∧ affine_xy t' [a; b] !! k = Some v' ∧ (v == v')%Q.
Proof.
  intros (H00 & H01 & H02 & H10 & H11 & H12) Hk.
  destruct k as [|[|k]]; [| |lia]; eexists _, _;
    (split; [reflexivity|]); (split; [reflexivity|]).
  - by rewrite H00, H01, H02.
  - by rewrite H10, H11, H12.
Qed.

Lemma get_affine_transform_scale0 `{trig : NumpyTrig} center rot output_size
    inv s s' :
  (fst s == fst s')%Q →
  mat_eq (get_affine_transform center (ScaleArray s) rot output_size
                               default_shift inv)
         (get_affine_transform center (ScaleArray s') rot output_size
                               default_shift inv).
Proof.
  intros Hs. rewrite !get_affine_transform_unfold. cbv zeta.
  destruct (reference_points_scale0 center s s' rot output_size Hs)
    as [Hsrc Hdst].
  rewrite Hdst.
  assert (tri_eq (reference_points center (ScaleArray s') rot output_size
                                   default_shift).2
                 (reference_points center (ScaleArray s') rot output_size
                                   default_shift).2) as Hrefl.
  { by repeat split. }
  destruct (inv =? 0)%Z; by apply getAffineTransform_proper.
Qed.

(** ** The decoder on concrete inputs *)

(** The peak 5 of the demo heatmap sits at flat index 13 = 2 * 5 + 3. *)
Example get_max_pred_demo :
  ∃ preds maxvals σ',
    get_max_pred demo_heatmaps demo_store = (Ok (preds, maxvals), σ')
    ∧ contents σ' preds = [3; 2]%Q
    ∧ contents σ' maxvals = [5]%Q.
Proof.
  eexists _, _, _. split; [vm_compute; reflexivity|].
  split; vm_compute; reflexivity.
Qed.

Example get_max_pred_one_hot :
  ∃ preds maxvals σ',
    get_max_pred one_hot_heatmaps one_hot_store = (Ok (preds, maxvals), σ')
    ∧ contents σ' preds = [7; 5]%Q
    ∧ contents σ' maxvals = [1]%Q.
Proof.
  eexists _, _, _. split; [vm_compute; reflexivity|].
  split; vm_compute; reflexivity.
Qed.

(** To the right of the peak the heatmap is 3, to the left 1; above and
    below it is 0: x moves by a quarter, y stays. *)
Example post_processing_demo :
  ∃ σ',
    post_processing demo_heatmaps demo_coords 5 5 demo_coords_store
    = (Ok tt, σ')
    ∧ Forall2 Qeq (contents σ' demo_coords) [13 # 4; 2]%Q.
Proof.
  eexists. split; [vm_compute; reflexivity|].
  vm_compute. repeat constructor.
Qed.

(** The crop of width 8 around (10, 20) is 5 pixels wide: one heatmap
    pixel is 8/5 image pixels, and (13/4, 2) is (3/4, -1/2) away from the
    heatmap's centre (5/2, 5/2). *)
Example _get_final_preds_demo :
  ∃ preds maxvals σ',
    @_get_final_preds taylor_trig demo_heatmaps demo_center demo_scale
                      demo_store = (Ok (preds, maxvals), σ')
    ∧ Forall2 Qeq (contents σ' preds) [56 # 5; 96 # 5]%Q
    ∧ contents σ' maxvals = [5]%Q.
Proof.
  eexists _, _, _. split; [vm_compute; reflexivity|]. split.
  - vm_compute. repeat constructor.
  - vm_compute. reflexivity.
Qed.

Example _get_deconv_cfg_5 : _get_deconv_cfg 5 = Raise UnboundLocalError.
Proof. reflexivity. Qed.

(** ** The geometry of the reference points *)

Lemma det3_third_point a b :
  (det3 (mkTri a b (get_3rd_point a b))
   == - ((fst a - fst b) * (fst a - fst b)
         + (snd a - snd b) * (snd a - snd b)))%Q.
Proof.
  destruct a as [ax ay], b as [bx by']. unfold det3, get_3rd_point, vadd, vsub.
  cbn [fst snd row0 row1 row2]. ring.
Qed.




Lemma square_zero (x : Q) : (x * x == 0)%Q → (x == 0)%Q.
Proof. intros Hx. nra. Qed.

Lemma sum_squares_zero (x y : Q) :
  (- (x * x + y * y) == 0)%Q → (x == 0)%Q ∧ (y == 0)%Q.
Proof.
  intros Hd.
  assert (x * x == 0)%Q as Hx by nra.
  assert (y * y == 0)%Q as Hy by nra.
  split; by apply square_zero.
Qed.





(** ** More about [get_max_pred] and the post-processing loop *)

Lemma block_within i m k : i + 1 ≤ m → i * k + k ≤ m * k.
Proof. nia. Qed.

Lemma length_heatmap σ bh N J H W n p :
  batch4 σ bh N J H W → n < N → p < J →
  length (heatmap σ bh n p) = H * W.
Proof.
  intros (Hs & Hv & HN & HJ & HH & HW) Hn Hp.
  unfold heatmap, grid. rewrite Hs.
  rewrite length_take, length_drop, length_contents by done.
  unfold nd_size. rewrite Hs. cbn [size foldr].
  assert (n * J + p + 1 ≤ N * J) as Hi by nia.
  pose proof (block_within (n * J + p) (N * J) (H * W) Hi) as Hle.
  replace (N * (J * (H * (W * 1)))) with (N * J * (H * W)) by lia.
  lia.
Qed.

Lemma post_processing_joint σ bh coords N J H W :
  batch4 σ bh N J H W →
  nd_shape coords = [N; J; 2] → valid σ coords →
  nd_loc coords ≠ nd_loc bh →
  nd_dtype coords = nd_dtype bh →
  ∃ B,
    σ !! nd_loc coords = Some B
    ∧ nd_off coords + N * J * 2 ≤ length B
    ∧ let B' := refine_all W H (contents σ bh) (nd_off coords) N J B in
      post_processing bh coords W H σ = (Ok tt, <[nd_loc coords := B']> σ)
      ∧ ∀ n p, n < N → p < J →
          ∃ x y x' y',
            entry3 σ coords n p 0 = Some x
            ∧ entry3 σ coords n p 1 = Some y
            ∧ entry3 (<[nd_loc coords := B']> σ) coords n p 0 = Some x'
            ∧ entry3 (<[nd_loc coords := B']> σ) coords n p 1 = Some y'
            ∧ refine_xy W H (heatmap σ bh n p) [x; y] = [x'; y'].
Proof.
  intros (Hs & (bufh & Hbh & Hlh) & HN & HJ & HH & HW) Hsc (B & Hbc & Hlc) Hne
         Hdt.
  destruct bh as [lh oh shh dt], coords as [lc oc shc dtc].
  cbn [nd_shape nd_loc nd_off nd_dtype] in *. subst shh shc dtc.
  unfold nd_size in Hlh, Hlc. cbn [nd_shape size foldr] in Hlh, Hlc.
  exists B. split; [done|]. split; [lia|].
  assert (contents σ (mkND lh oh [N; J; H; W] dt)
          = take (N * J * (H * W)) (drop oh bufh)) as Hhd.
  { unfold contents, window, nd_size. cbn [nd_shape nd_loc nd_off size foldr].
    rewrite Hbh. f_equal. lia. }
  cbv zeta. rewrite Hhd.
  set (B' := refine_all W H (take (N * J * (H * W)) (drop oh bufh)) oc N J B).
  split.
  { apply (run_post_processing lh oh lc oc N J H W dt σ bufh B);
      (done || lia). }
  assert (lc < length σ) as Hlcσ by (by eapply lookup_lt_Some).
  assert (length B' = length B) as HlB' by apply length_refine_all.
  intros n p Hn Hp.
  assert (n * J + p < N * J) as Hi by nia.
  destruct (pair_at B (oc + (n * J + p) * 2)) as (x & y & Hx & Hy & Hxy);
    [lia|].
  pose proof (refine_all_joint W H (take (N * J * (H * W)) (drop oh bufh))
                oc N J B (n * J + p) ltac:(lia) Hi) as Hseg.
  fold B' in Hseg. rewrite Hxy in Hseg.
  rewrite !(entry3_lookup σ lc oc N J 2 n p _ B) by (done || lia).
  rewrite !(entry3_lookup _ lc oc N J 2 n p _ B')
    by (done || lia || by apply list_lookup_insert_eq).
  rewrite (heatmap_grid σ lh oh N J H W n p bufh) by done.
  rewrite Nat.add_0_r, Nat.add_1_r.
  assert (length (refine_xy W H (grid H W (take (N * J * (H * W))
                                             (drop oh bufh)) (n * J + p))
                            [x; y]) = 2) as Hl2
    by (by rewrite length_refine_xy).
  destruct (refine_xy W H _ [x; y]) as [|x' [|y' [|? ?]]] eqn:Href;
    try done.
  apply seg_lookup in Hseg as [Hx' Hy'].
  by exists x, y, x', y'.
Qed.

Lemma list_inserts_take_drop (B : list Q) o k :
  list_inserts o (take k (drop o B)) B = B.
Proof.
  apply list_eq. intros j.
  destruct (decide (j < o)) as [Hlt|Hge].
  { by apply list_lookup_inserts_lt. }
  destruct (decide (o + length (take k (drop o B)) ≤ j)) as [Hout|Hin].
  { by apply list_lookup_inserts_ge. }
  destruct (decide (j < length B)) as [Hj|Hj].
  - rewrite list_lookup_inserts by lia.
    rewrite length_take, length_drop in Hin.
    rewrite lookup_take_lt, lookup_drop by lia. f_equal. lia.
  - rewrite !lookup_ge_None_2; [done|lia|rewrite length_inserts; lia].
Qed.

Lemma interior_small W H px py :
  W < 4 ∨ H < 4 → interior W H px py = false.
Proof. unfold interior. lia. Qed.

Lemma refine_all_small W H hd oc N J B :
  W < 4 ∨ H < 4 → refine_all W H hd oc N J B = B.
Proof.
  intros Hsmall. rewrite refine_all_flat. generalize (seq 0 (N * J)).
  intros js. induction js as [|i js IH]; [done|]. cbn [foldl].
  assert (refine_at W H hd oc B i = B) as ->; [|done].
  unfold refine_at.
  assert (∀ xy, refine_xy W H (grid H W hd i) xy = xy) as ->.
  { intros xy. unfold refine_xy. destruct xy as [|x [|y [|? ?]]]; try done.
    by rewrite interior_small. }
  apply list_inserts_take_drop.
Qed.

Lemma any_interior_small W H oc N J B :
  W < 4 ∨ H < 4 → any_interior W H oc N J B = false.
Proof.
  intros Hsmall. unfold any_interior.
  apply existsb_none. intros n _. apply existsb_none. intros p _.
  unfold interior_at. repeat case_match; try done.
  by apply interior_small.
Qed.

(** On heatmaps with fewer than four columns or rows the loop never
    reaches its [+=], whatever the types. *)
Lemma post_processing_small σ bh coords N J H W :
  batch4 σ bh N J H W →
  nd_shape coords = [N; J; 2] → valid σ coords →
  nd_loc coords ≠ nd_loc bh →
  W < 4 ∨ H < 4 →
  post_processing bh coords W H σ = (Ok tt, σ).
Proof.
  intros (Hs & (bufh & Hbh & Hlh) & HN & HJ & HH & HW) Hsc (B & Hbc & Hlc) Hne
         Hsmall.
  destruct bh as [lh oh shh dth], coords as [lc oc shc dtc].
  cbn [nd_shape nd_loc nd_off nd_dtype] in *. subst shh shc.
  unfold nd_size in Hlh, Hlc. cbn [nd_shape size foldr] in Hlh, Hlc.
  destruct (decide (dtc = dth)) as [->|Hdt].
  - rewrite (run_post_processing lh oh lc oc N J H W dth σ bufh B)
      by (done || lia).
    by rewrite refine_all_small, list_insert_id.
  - rewrite (run_post_processing_mismatch lh oh lc oc N J H W dth dtc σ
               bufh B) by (done || lia).
    by rewrite any_interior_small.
Qed.

Lemma sign_cases v : sign v = 1%Q ∨ sign v = 0%Q ∨ sign v = (- (1))%Q.
Proof. unfold sign. repeat case_decide; auto. Qed.

Lemma quarter_step (x s : Q) :
  s = 1%Q ∨ s = 0%Q ∨ s = (- (1))%Q →
  (Qabs (x + s * (1 # 4) - x) <= 1 # 4)%Q.
Proof.
  intros [-> | [-> | ->]]; apply Qabs_Qle_condition; split; lra.
Qed.

Lemma refine_xy_close W H g x y x' y' :
  refine_xy W H g [x; y] = [x'; y'] →
  (Qabs (x' - x) <= 1 # 4)%Q ∧ (Qabs (y' - y) <= 1 # 4)%Q.
Proof.
  unfold refine_xy. destruct (interior W H _ _).
  - intros [= <- <-].
    split; apply quarter_step; rewrite Qsign_sign; apply sign_cases.
  - intros [= <- <-]. split; apply Qabs_Qle_condition; split; lra.
Qed.

Lemma Qfloor_between (q : Q) (k : Z) :
  (inject_Z k <= q)%Q → (q < inject_Z (k + 1))%Q → Qfloor q = k.
Proof.
  intros Hle Hlt.
  pose proof (Qfloor_le q) as H1. pose proof (Qlt_floor q) as H2.
  assert (inject_Z (Qfloor q) < inject_Z (k + 1))%Q as H3 by lra.
  assert (inject_Z k < inject_Z (Qfloor q + 1))%Q as H4 by lra.
  rewrite <-Zlt_Qlt in H3, H4. lia.
Qed.


(** ** The predictions in closed form *)


Lemma stored_peak_exact dt W i m :
  i < float32_exact → stored_peak dt W (i, m) = peak_xy W (i, m).
Proof.
  intros Hi. unfold stored_peak. cbn [fst snd].
  by rewrite float32_index_exact.
Qed.






(** ** Too few centers or scales *)








(** ** The deconvolution layers *)

Lemma _get_deconv_cfg_known k :
  known_kernel k →
  _get_deconv_cfg k
  = Ok (k, if (k =? 2)%Z then 0%Z else 1%Z, if (k =? 3)%Z then 1%Z else 0%Z).
Proof. by intros [-> | [-> | ->]]. Qed.

Lemma _get_deconv_cfg_unknown k :
  ¬ known_kernel k → _get_deconv_cfg k = Raise UnboundLocalError.
Proof.
  intros Hk. unfold _get_deconv_cfg, known_kernel in *.
  destruct (Z.eqb_spec k 4); [lia|].
  destruct (Z.eqb_spec k 3); [lia|].
  destruct (Z.eqb_spec k 2); [lia|]. done.
Qed.

Lemma known_kernel_dec k : known_kernel k ∨ ¬ known_kernel k.
Proof. unfold known_kernel. lia. Qed.

Lemma deconv_loop_run fs ks :
  length fs = length ks →
  ∀ len s layer self,
    s + len = length ks → Forall known_kernel (drop s ks) →
    deconv_loop (seq s len) fs ks layer self
    = (Returned (layer ++ (zip (drop s fs) (drop s ks)
                           ≫= deconv_blocks (deconv_with_bias self))),
       mkAttrs (deconv_with_bias self)
               (match last (drop s fs) with
                | Some planes => Some planes
                | None => inplanes self
                end)).
Proof.
  intros Hlen. induction len as [|len IH]; intros s layer self Hs Hall.
  - cbn [seq deconv_loop]. rewrite !drop_ge by lia.
    cbn [zip zip_with last mbind list_bind]. rewrite app_nil_r.
    by destruct self.
  - cbn [seq deconv_loop].
    destruct (lookup_lt_is_Some_2 ks s) as [k Hk]; [lia|].
    destruct (lookup_lt_is_Some_2 fs s) as [f Hf]; [lia|].
    rewrite (drop_S _ _ _ Hk) in Hall. rewrite (drop_S _ _ _ Hk).
    rewrite (drop_S _ _ _ Hf).
    apply Forall_cons in Hall as [Hkk Hall].
    rewrite Hk, (_get_deconv_cfg_known k Hkk), Hf. cbv zeta.
    rewrite IH by (done || lia).
    cbn [zip zip_with set_inplanes deconv_with_bias inplanes].
    rewrite bind_cons. f_equal.
    + f_equal. rewrite <- !app_assoc. reflexivity.
    + f_equal. destruct (drop (S s) fs) as [|z l]; [reflexivity|].
      change (last (f :: z :: l)) with (last (z :: l)).
      destruct (last (z :: l)) eqn:Hlast; [reflexivity|].
      by apply last_None in Hlast.
Qed.

Lemma deconv_loop_outcome fs ks :
  length fs = length ks →
  ∀ len s layer self,
    s + len = length ks →
    match (deconv_loop (seq s len) fs ks layer self).1 with
    | Returned _ => Forall known_kernel (drop s ks)
    | AssertionError _ => False
    | Raised e => e = UnboundLocalError ∧ ¬ Forall known_kernel (drop s ks)
    end.
Proof.
  intros Hlen. induction len as [|len IH]; intros s layer self Hs.
  - cbn [seq deconv_loop fst]. by rewrite drop_ge by lia.
  - cbn [seq deconv_loop].
    destruct (lookup_lt_is_Some_2 ks s) as [k Hk]; [lia|].
    destruct (lookup_lt_is_Some_2 fs s) as [f Hf]; [lia|].
    rewrite (drop_S _ _ _ Hk), Hk.
    destruct (known_kernel_dec k) as [Hkk|Hkk].
    + rewrite (_get_deconv_cfg_known k Hkk), Hf. cbv zeta.
      match goal with
      | |- context [deconv_loop _ _ _ ?l ?a] =>
          pose proof (IH (S s) l a ltac:(lia)) as Hrest
      end.
      destruct (deconv_loop _ _ _ _ _) as [[ls|msg|e] self']; cbn [fst] in *.
      * by apply Forall_cons.
      * done.
      * destruct Hrest as [-> Hbad]. split; [done|].
        intros [_ Hall]%Forall_cons. by apply Hbad.
    + rewrite (_get_deconv_cfg_unknown k Hkk). cbn [fst]. split; [done|].
      intros [Hkk' _]%Forall_cons. by apply Hkk.
Qed.


(** * The claims *)





(** C2.  For every (image, joint) pair whose maximum is not positive,
    [get_max_pred] returns the coordinate (0, 0); on an all-zero batch
    every confidence is 0 and every coordinate is (0, 0). *)
Theorem get_max_pred_masks_no_signal σ bh N J H W :
  batch4 σ bh N J H W →
  ∃ preds maxvals σ',
    get_max_pred bh σ = (Ok (preds, maxvals), σ')
    ∧ ∀ n p, n < N → p < J →
        ∃ idx m x y,
          first_max (heatmap σ bh n p) idx m
          ∧ entry3 σ' maxvals n p 0 = Some m
          ∧ entry3 σ' preds n p 0 = Some x
          ∧ entry3 σ' preds n p 1 = Some y
          ∧ ((m <= 0)%Q → (x == 0)%Q ∧ (y == 0)%Q)
          ∧ (Forall (λ v, v == 0)%Q (contents σ bh) →
             (m == 0)%Q ∧ (x == 0)%Q ∧ (y == 0)%Q).
Proof.
  intros (Hs & Hv & HN & HJ & HH & HW).
  destruct (get_max_pred_joint σ bh N J H W) as (preds & maxvals & σ' & Hrun & Hj);
    try done.
  exists preds, maxvals, σ'. split; [done|].
  intros n p Hn Hp. destruct (Hj n p Hn Hp) as (i & m & Hfm & Hm & Hx & Hy).
  unfold stored_peak in Hx, Hy. cbn [fst snd] in Hx, Hy.
  set (i' := float32_index (nd_dtype bh) i) in *.
  assert ((m <= 0)%Q →
    (Qmod (of_nat i') (of_nat W) * greater0 m == 0)%Q
    ∧ (inject_Z (Qfloor (of_nat i' / of_nat W)) * greater0 m == 0)%Q)
    as Hmask.
  { intros Hle. rewrite greater0_nonpos by done. split; ring. }
  eexists i, m, _, _.
  split; [exact Hfm|]. split; [exact Hm|].
  split; [exact Hx|]. split; [exact Hy|]. split; [exact Hmask|].
  intros Hzero.
  assert (m == 0)%Q as Hm0.
  { destruct Hfm as (Hat & _). unfold heatmap, grid in Hat. rewrite Hs in Hat.
    eapply (Forall_lookup_1 _ _ _ _ (Forall_take _ _ _ (Forall_drop _ _ _ Hzero))).
    exact Hat. }
  split; [exact Hm0|]. apply Hmask. rewrite Hm0. apply Qle_refl.
Qed.

Lemma get_max_pred_masks_no_signal_witness :
  batch4 dark_store dark_heatmaps 1 1 1 2
  ∧ ∃ preds maxvals σ',
      get_max_pred dark_heatmaps dark_store = (Ok (preds, maxvals), σ').
Proof.
  assert (batch4 dark_store dark_heatmaps 1 1 1 2) as Hb.
  { split; [reflexivity|]. split; [|lia].
    eexists. split; [reflexivity|]. vm_compute. lia. }
  split; [exact Hb|].
  destruct (get_max_pred_masks_no_signal _ _ _ _ _ _ Hb)
    as (preds & maxvals & σ' & Hrun & _).
  by exists preds, maxvals, σ'.
Defined.

(** C3 (amended).  On coordinates of the element type of the heatmaps (in
    [_get_final_preds] the coordinates are [float32], so: on [float32]
    heatmaps) the post-processing loop takes every coordinate (x, y) with
    rounded location (px, py) = floor(coord + 0.5): when 1 < px < W-1 and
    1 < py < H-1 it adds 0.25 * sign(hm[py][px+1] - hm[py][px-1]) to x and
    0.25 * sign(hm[py+1][px] - hm[py-1][px]) to y, so that equal neighbours
    leave the coordinate as it was; otherwise it leaves the coordinate
    exactly unchanged. *)
Theorem post_processing_quarter_shift σ bh coords N J H W :
  batch4 σ bh N J H W →
  nd_shape coords = [N; J; 2] → valid σ coords →
  nd_loc coords ≠ nd_loc bh →
  nd_dtype coords = nd_dtype bh →
  ∃ σ',
    post_processing bh coords W H σ = (Ok tt, σ')
    ∧ ∀ n p, n < N → p < J →
        ∃ x y x' y',
          entry3 σ coords n p 0 = Some x
          ∧ entry3 σ coords n p 1 = Some y
          ∧ entry3 σ' coords n p 0 = Some x'
          ∧ entry3 σ' coords n p 1 = Some y'
          ∧ let px := Qfloor (x + (1 # 2)) in
            let py := Qfloor (y + (1 # 2)) in
            let hm := pix W (heatmap σ bh n p) in
            let dx := (hm py (px + 1)%Z - hm py (px - 1)%Z)%Q in
            let dy := (hm (py + 1)%Z px - hm (py - 1)%Z px)%Q in
            ((1 < px < Z.of_nat W - 1 ∧ 1 < py < Z.of_nat H - 1)%Z →
               (x' == x + (1 # 4) * Qsign dx)%Q
               ∧ (y' == y + (1 # 4) * Qsign dy)%Q
               ∧ ((dx == 0)%Q → (x' == x)%Q)
               ∧ ((dy == 0)%Q → (y' == y)%Q))
            ∧ (¬ (1 < px < Z.of_nat W - 1 ∧ 1 < py < Z.of_nat H - 1)%Z →
               x' = x ∧ y' = y).
Proof.
  intros (Hs & (bufh & Hbh & Hlh) & HN & HJ & HH & HW) Hsc (B & Hbc & Hlc) Hne
         Hdt.
  destruct bh as [lh oh shh dt], coords as [lc oc shc dtc].
  cbn [nd_shape nd_loc nd_off nd_dtype] in *. subst shh shc dtc.
  unfold nd_size in Hlh, Hlc. cbn [nd_shape size foldr] in Hlh, Hlc.
  eexists. split.
  { apply (run_post_processing lh oh lc oc N J H W dt σ bufh B);
      (done || lia). }
  set (hd := take (N * J * (H * W)) (drop oh bufh)).
  set (B' := refine_all W H hd oc N J B).
  assert (lc < length σ) as Hlcσ by (by eapply lookup_lt_Some).
  assert (length B' = length B) as HlB' by apply length_refine_all.
  intros n p Hn Hp.
  assert (n * J + p < N * J) as Hi by nia.
  destruct (pair_at B (oc + (n * J + p) * 2)) as (x & y & Hx & Hy & Hxy);
    [lia|].
  pose proof (refine_all_joint W H hd oc N J B (n * J + p) ltac:(lia) Hi)
    as Hseg.
  fold B' in Hseg. rewrite Hxy in Hseg.
  rewrite !(entry3_lookup σ lc oc N J 2 n p _ B) by (done || lia).
  rewrite !(entry3_lookup _ lc oc N J 2 n p _ B')
    by (done || lia || by apply list_lookup_insert_eq).
  rewrite (heatmap_grid σ lh oh N J H W n p bufh) by done. fold hd.
  rewrite Nat.add_0_r, Nat.add_1_r.
  unfold refine_xy in Hseg.
  destruct (interior W H _ _) eqn:Hint.
  - apply seg_lookup in Hseg as [Hx' Hy'].
    eexists x, y, _, _. split; [exact Hx|]. split; [exact Hy|].
    split; [exact Hx'|]. split; [exact Hy'|]. cbv zeta. split.
    + intros _. split; [ring|]. split; [ring|]. split.
      * intros Hz. rewrite (Qsign_zero _ Hz). ring.
      * intros Hz. rewrite (Qsign_zero _ Hz). ring.
    + intros Hout. exfalso. apply Hout. by apply interior_iff.
  - apply seg_lookup in Hseg as [Hx' Hy'].
    exists x, y, x, y. split; [exact Hx|]. split; [exact Hy|].
    split; [exact Hx'|]. split; [exact Hy'|]. cbv zeta. split; [|done].
    intros Hin%interior_iff. congruence.
Qed.

Lemma post_processing_quarter_shift_witness :
  batch4 demo_coords_store demo_heatmaps 1 1 5 5
  ∧ nd_shape demo_coords = [1; 1; 2]
  ∧ valid demo_coords_store demo_coords
  ∧ nd_loc demo_coords ≠ nd_loc demo_heatmaps
  ∧ nd_dtype demo_coords = nd_dtype demo_heatmaps
  ∧ ∃ σ', post_processing demo_heatmaps demo_coords 5 5 demo_coords_store
          = (Ok tt, σ').
Proof.
  assert (batch4 demo_coords_store demo_heatmaps 1 1 5 5) as Hb.
  { split; [reflexivity|]. split; [|lia].
    eexists. split; [reflexivity|]. vm_compute. lia. }
  assert (valid demo_coords_store demo_coords) as Hv.
  { eexists. split; [reflexivity|]. vm_compute. lia. }
  assert (nd_loc demo_coords ≠ nd_loc demo_heatmaps) as Hne by (simpl; lia).
  split; [exact Hb|]. split; [reflexivity|]. split; [exact Hv|].
  split; [exact Hne|]. split; [reflexivity|].
  destruct (post_processing_quarter_shift demo_coords_store demo_heatmaps
              demo_coords 1 1 5 5 Hb eq_refl Hv Hne eq_refl)
    as (σ' & Hrun & _).
  by exists σ'.
Defined.

(** The claim as it was worded, without the element type: on [float64]
    heatmaps the coordinate (3, 2), whose rounded location is inside the
    5x5 grid, is not moved; the in-place addition of line 125 raises
    [MXNetError]. *)
Lemma post_processing_refuses_float64 :
  batch4 demo_coords_store demo_heatmaps64 1 1 5 5
  ∧ nd_shape demo_coords = [1; 1; 2]
  ∧ valid demo_coords_store demo_coords
  ∧ nd_loc demo_coords ≠ nd_loc demo_heatmaps64
  ∧ entry3 demo_coords_store demo_coords 0 0 0 = Some 3%Q
  ∧ entry3 demo_coords_store demo_coords 0 0 1 = Some 2%Q
  ∧ post_processing demo_heatmaps64 demo_coords 5 5 demo_coords_store
    = (Raise MXNetError, demo_coords_store)
  ∧ ¬ ∃ σ', post_processing demo_heatmaps64 demo_coords 5 5 demo_coords_store
            = (Ok tt, σ').
Proof.
  assert (post_processing demo_heatmaps64 demo_coords 5 5 demo_coords_store
          = (Raise MXNetError, demo_coords_store)) as Hrun
    by (vm_compute; reflexivity).
  split.
  { split; [reflexivity|]. split; [|lia].
    eexists. split; [reflexivity|]. vm_compute. lia. }
  split; [reflexivity|]. split.
  { eexists. split; [reflexivity|]. vm_compute. lia. }
  split; [simpl; lia|]. split; [reflexivity|]. split; [reflexivity|].
  split; [exact Hrun|]. intros (σ' & Hok). rewrite Hrun in Hok. discriminate.
Qed.

(** C4 (amended).  [get_affine_transform] builds its second source point as
    center + rotate([0, -0.5 * scale[0]], rotation) + scale * shift: the
    rotated vector takes the first component of [scale], and with a zero
    shift the point does not depend on the second component. *)
Theorem source_point1_uses_first_scale `{trig : NumpyTrig}
    (cx cy s0 s1 rot w h shx shy : Q) :
  let theta := (np_pi * rot / 180)%Q in
  pt_eq (row1 (reference_points (cx, cy) (ScaleArray (s0, s1)) rot (w, h)
                                (shx, shy)).1)
        (cx + (s0 / 2) * np_sin theta + s0 * shx,
         cy - (s0 / 2) * np_cos theta + s1 * shy)%Q
  ∧ ∀ s1', pt_eq (row1 (reference_points (cx, cy) (ScaleArray (s0, s1)) rot
                                         (w, h) default_shift).1)
                 (row1 (reference_points (cx, cy) (ScaleArray (s0, s1')) rot
                                         (w, h) default_shift).1).
Proof.
  intros theta. split.
  - unfold reference_points, pt_eq, get_dir, vadd, vmul.
    cbn [fst snd row1 set_row0 set_row1 set_rows_from2 zeros32].
    fold theta. split; field.
  - intros s1'.
    destruct (reference_points_scale0 (cx, cy) (s0, s1) (s0, s1') rot (w, h))
      as [(_ & H1 & _) _]; [reflexivity|exact H1].
Qed.

(** C4 as stated fails: for scale (2, 4) and no rotation the second source
    point is (0, -1), not (0, -2) as the elementwise product gives. *)
Lemma source_point1_not_elementwise :
  ¬ pt_eq (row1 (@reference_points taylor_trig (0, 0)%Q
                   (ScaleArray (2, 4)%Q) 0 (48, 64)%Q (0, 0)%Q).1)
          (@source_point1_elementwise taylor_trig (0, 0)%Q (2, 4)%Q 0
                                      (0, 0)%Q).
Proof. intros [_ Hy]. vm_compute in Hy. discriminate Hy. Qed.

(** C5 (amended).  On [float32] heatmaps [_get_final_preds] is the
    specification's pipeline: for every (image, joint) pair the prediction
    it returns is the coordinate [get_max_pred] located, refined, then
    mapped by the inverse transform for no rotation and output size (W, H)
    applied to (x, y, 1); the confidence it returns is the one
    [get_max_pred] found.  When the grids have at most 2^24 cells the
    prediction is [decode] of the joint's grid with the image's center and
    scale. *)
Theorem _get_final_preds_decodes `{trig : NumpyTrig} σ bh center scale
    N J H W :
  batch4 σ bh N J H W → nd_dtype bh = float32 →
  rows2 σ center N → rows2 σ scale N →
  ∃ coords confidences σ0 preds maxvals σ',
    get_max_pred bh σ = (Ok (coords, confidences), σ0)
    ∧ _get_final_preds bh center scale σ = (Ok (preds, maxvals), σ')
    ∧ ∀ n p, n < N → p < J →
        ∃ c s x0 y0 confidence x y,
          pairs (contents σ center) !! n = Some c
          ∧ pairs (contents σ scale) !! n = Some s
          ∧ entry3 σ0 coords n p 0 = Some x0
          ∧ entry3 σ0 coords n p 1 = Some y0
          ∧ entry3 σ0 confidences n p 0 = Some confidence
          ∧ entry3 σ' preds n p 0 = Some x
          ∧ entry3 σ' preds n p 1 = Some y
          ∧ pt_eq (x, y)
                  (to_image_space W H c s
                     (refine_subpixel W H (heatmap σ bh n p) (x0, y0)))
          ∧ entry3 σ' maxvals n p 0 = Some confidence
          ∧ (H * W ≤ float32_exact →
             ∃ coord,
               decode W H (heatmap σ bh n p) c s = Some (coord, confidence)
               ∧ pt_eq (x, y) coord).
Proof.
  intros Hb Hdt Hc Hs.
  pose proof Hb as (Hsh & Hv & HN & HJ & HH & HW).
  destruct (get_max_pred_joint σ bh N J H W Hsh Hv HN HJ HH HW)
    as (coords & confidences & σ0 & Hrun0 & Hj0).
  destruct (_get_final_preds_joint σ bh center scale N J H W Hb Hdt Hc Hs)
    as (preds & maxvals & σ' & Hrun & Hj).
  exists coords, confidences, σ0, preds, maxvals, σ'.
  split; [exact Hrun0|]. split; [exact Hrun|].
  intros n p Hn Hp.
  destruct (Hj0 n p Hn Hp) as (i0 & m0 & Hfm0 & Hm0 & Hx0 & Hy0).
  destruct (Hj n p Hn Hp) as (i & m & c & s & Ha & Hcn & Hsn & Hm & Hx & Hy).
  destruct (first_max_unique _ _ _ _ _ Hfm0 (argmax_max_first _ _ _ Ha))
    as [-> ->].
  rewrite Hdt in Hx0, Hy0.
  set (g := heatmap σ bh n p) in *.
  assert (∃ a b, stored_peak float32 W (i, m) = [a; b]) as (a & b & Hpk)
    by (by eexists _, _).
  rewrite Hpk in Hx0, Hy0, Hx, Hy.
  change ([a; b] !! 0) with (Some a) in Hx0.
  change ([a; b] !! 1) with (Some b) in Hy0.
  destruct (refine_xy_subpixel W H g a b a b (Qeq_refl _) (Qeq_refl _))
    as (x1 & y1 & Hrf & Hx1 & Hy1).
  destruct (refine_subpixel W H g (a, b)) as [a1 b1] eqn:Hsub.
  cbn [fst snd] in Hx1, Hy1.
  destruct (affine_xy_image_space W H c s x1 y1 a1 b1 Hx1 Hy1)
    as (x2 & y2 & Haf & Hx2 & Hy2).
  rewrite Hrf, Haf in Hx, Hy.
  exists c, s, a, b, m, x2, y2.
  split; [exact Hcn|]. split; [exact Hsn|].
  split; [exact Hx0|]. split; [exact Hy0|]. split; [exact Hm0|].
  split; [exact Hx|]. split; [exact Hy|].
  split; [rewrite Hsub; split; [exact Hx2|exact Hy2]|]. split; [exact Hm|].
  intros Hfit.
  assert (i < float32_exact) as Hi.
  { destruct Hfm0 as (Hat & _). apply lookup_lt_Some in Hat. unfold g in Hat.
    rewrite (length_heatmap σ bh N J H W) in Hat by done. lia. }
  rewrite stored_peak_exact in Hpk by done.
  destruct (peak_xy_locate W i m HW) as (a' & b' & Hpk' & Ha0 & Hb0).
  rewrite Hpk in Hpk'. injection Hpk' as <- <-.
  set (coord0 := if decide (m <= 0)%Q then (0, 0)%Q
                 else (of_nat (i mod W), of_nat (i / W))) in *.
  destruct coord0 as [a0 b0] eqn:Hcoord0. cbn [fst snd] in Ha0, Hb0.
  destruct (refine_xy_subpixel W H g a b a0 b0 Ha0 Hb0)
    as (x1' & y1' & Hrf' & Hx1' & Hy1').
  rewrite Hrf in Hrf'. injection Hrf' as <- <-.
  destruct (refine_subpixel W H g (a0, b0)) as [a2 b2] eqn:Hsub'.
  cbn [fst snd] in Hx1', Hy1'.
  destruct (affine_xy_image_space W H c s x1 y1 a2 b2 Hx1' Hy1')
    as (x2' & y2' & Haf' & Hx2' & Hy2').
  rewrite Haf in Haf'. injection Haf' as <- <-.
  exists (to_image_space W H c s (a2, b2)). split.
  - unfold decode, locate_peak.
    rewrite (argmax_max_list_find _ _ _ Ha).
    fold coord0. by rewrite Hcoord0, Hsub'.
  - split; [exact Hx2'|exact Hy2'].
Qed.

Lemma _get_final_preds_decodes_witness :
  batch4 demo_store demo_heatmaps 1 1 5 5
  ∧ nd_dtype demo_heatmaps = float32
  ∧ rows2 demo_store demo_center 1
  ∧ rows2 demo_store demo_scale 1
  ∧ ∃ preds maxvals σ',
      @_get_final_preds taylor_trig demo_heatmaps demo_center demo_scale
                        demo_store = (Ok (preds, maxvals), σ').
Proof.
  assert (batch4 demo_store demo_heatmaps 1 1 5 5) as Hb.
  { split; [reflexivity|]. split; [|lia].
    eexists. split; [reflexivity|]. vm_compute. lia. }
  assert (rows2 demo_store demo_center 1) as Hc.
  { split; [reflexivity|]. eexists. split; [reflexivity|]. vm_compute. lia. }
  assert (rows2 demo_store demo_scale 1) as Hs.
  { split; [reflexivity|]. eexists. split; [reflexivity|]. vm_compute. lia. }
  split; [exact Hb|]. split; [reflexivity|].
  split; [exact Hc|]. split; [exact Hs|].
  destruct (@_get_final_preds_decodes taylor_trig _ _ _ _ _ _ _ _ Hb eq_refl
              Hc Hs)
    as (_ & _ & _ & preds & maxvals & σ' & _ & Hrun & _).
  by exists preds, maxvals, σ'.
Defined.

(** The claim as it was worded, for every heatmap batch: on the [float64]
    heatmaps of [demo_store], whose peak is inside the grid, the decoder
    returns no prediction; the refinement raises [MXNetError]. *)
Lemma _get_final_preds_refuses_float64 :
  batch4 demo_store demo_heatmaps64 1 1 5 5
  ∧ rows2 demo_store demo_center 1
  ∧ rows2 demo_store demo_scale 1
  ∧ (∃ σ', @_get_final_preds taylor_trig demo_heatmaps64 demo_center
             demo_scale demo_store = (Raise MXNetError, σ'))
  ∧ ¬ ∃ r σ', @_get_final_preds taylor_trig demo_heatmaps64 demo_center
                demo_scale demo_store = (Ok r, σ').
Proof.
  assert (∃ σ', @_get_final_preds taylor_trig demo_heatmaps64 demo_center
                  demo_scale demo_store = (Raise MXNetError, σ')) as Hrun
    by (eexists; vm_compute; reflexivity).
  split.
  { split; [reflexivity|]. split; [|lia].
    eexists. split; [reflexivity|]. vm_compute. lia. }
  split.
  { split; [reflexivity|]. eexists. split; [reflexivity|]. vm_compute. lia. }
  split.
  { split; [reflexivity|]. eexists. split; [reflexivity|]. vm_compute. lia. }
  split; [exact Hrun|].
  destruct Hrun as (σ' & Hrun). intros (r & σ'' & Hok).
  rewrite Hrun in Hok. discriminate.
Qed.

Lemma taylor_trig_at_zero : TrigAtZero taylor_trig.
Proof.
  split; intros x Hx; simpl; rewrite Hx.
  - unfold Qdiv. ring.
  - unfold Qdiv. ring.
Defined.

(** C6.  For center (48, 64), scale (96, 128), no rotation and output size
    (48, 64), the forward transform followed by the inverse transform takes
    every point back to itself, within 1e-3. *)
Theorem affine_round_trip `{TrigAtZero} (x y : Q) :
  let forward := get_affine_transform (48, 64)%Q (ScaleArray (96, 128)%Q) 0
                   (48, 64)%Q default_shift 0 in
  let inverse := get_affine_transform (48, 64)%Q (ScaleArray (96, 128)%Q) 0
                   (48, 64)%Q default_shift 1 in
  ∃ x1 y1 x2 y2,
    affine_transform [x; y] forward = Ok [x1; y1]
    ∧ affine_transform [x1; y1] inverse = Ok [x2; y2]
    ∧ (Qabs (x2 - x) <= 1 # 1000)%Q
    ∧ (Qabs (y2 - y) <= 1 # 1000)%Q.
Proof.
  intros forward inverse.
  destruct (reference_points_rot0 48 64 (96, 128)%Q 48 64) as [Hsrc Hdst].
  pose proof (getAffineTransform_proper _ _ _ _ Hsrc Hdst) as Hf.
  pose proof (getAffineTransform_proper _ _ _ _ Hdst Hsrc) as Hb.
  assert (mat_eq forward (mkMat (1 # 2) 0 0 0 (1 # 2) 0)) as Hfwd.
  { unfold forward. rewrite get_affine_transform_unfold.
    eapply mat_eq_trans; [exact Hf|]. repeat split; by vm_compute. }
  assert (mat_eq inverse (mkMat 2 0 0 0 2 0)) as Hinv.
  { unfold inverse. rewrite get_affine_transform_unfold.
    eapply mat_eq_trans; [exact Hb|]. repeat split; by vm_compute. }
  clearbody forward inverse. clear Hf Hb Hsrc Hdst.
  destruct Hfwd as (F00 & F01 & F02 & F10 & F11 & F12).
  destruct Hinv as (I00 & I01 & I02 & I10 & I11 & I12).
  cbn [m00 m01 m02 m10 m11 m12] in *.
  eexists _, _, _, _. split; [reflexivity|]. split; [reflexivity|].
  assert (∀ z : Q, z == 0 → Qabs z <= 1 # 1000)%Q as Hsmall.
  { intros z ->. by vm_compute. }
  split; apply Hsmall.
  - rewrite F00, F01, F02, F10, F11, F12, I00, I01, I02. ring.
  - rewrite F00, F01, F02, F10, F11, F12, I10, I11, I12. ring.
Qed.

Lemma affine_round_trip_witness :
  let forward := @get_affine_transform taylor_trig (48, 64)%Q
                   (ScaleArray (96, 128)%Q) 0 (48, 64)%Q default_shift 0 in
  let inverse := @get_affine_transform taylor_trig (48, 64)%Q
                   (ScaleArray (96, 128)%Q) 0 (48, 64)%Q default_shift 1 in
  ∃ x1 y1 x2 y2,
    affine_transform [7; 5]%Q forward = Ok [x1; y1]
    ∧ affine_transform [x1; y1] inverse = Ok [x2; y2]
    ∧ (Qabs (x2 - 7) <= 1 # 1000)%Q
    ∧ (Qabs (y2 - 5) <= 1 # 1000)%Q.
Proof. exact (@affine_round_trip taylor_trig taylor_trig_at_zero 7 5). Defined.




(** C8.  With the default shift the transform of [get_affine_transform]
    depends on [scale] through its first component only, and so do the
    predictions of [_get_final_preds]: two runs on the same heatmaps and
    centers whose scales agree in their first components end alike, and
    when they return they return equal predictions.  They return whenever
    the heatmaps are [float32]; otherwise both may raise [MXNetError]. *)
Theorem scale_second_component_unused `{trig : NumpyTrig} :
  (∀ center rot output_size inv s s',
     (fst s == fst s')%Q →
     mat_eq (get_affine_transform center (ScaleArray s) rot output_size
                                  default_shift inv)
            (get_affine_transform center (ScaleArray s') rot output_size
                                  default_shift inv))
  ∧ (∀ σ1 σ2 bh center scale N J H W,
       batch4 σ1 bh N J H W → batch4 σ2 bh N J H W →
       rows2 σ1 center N → rows2 σ2 center N →
       rows2 σ1 scale N → rows2 σ2 scale N →
       contents σ1 bh = contents σ2 bh →
       contents σ1 center = contents σ2 center →
       Forall2 (λ s s', (fst s == fst s')%Q)
               (pairs (contents σ1 scale)) (pairs (contents σ2 scale)) →
       (nd_dtype bh ≠ float32
        ∧ ∃ σ1' σ2',
            _get_final_preds bh center scale σ1 = (Raise MXNetError, σ1')
            ∧ _get_final_preds bh center scale σ2 = (Raise MXNetError, σ2'))
       ∨ (∃ preds1 maxvals1 σ1' preds2 maxvals2 σ2',
            _get_final_preds bh center scale σ1 = (Ok (preds1, maxvals1), σ1')
            ∧ _get_final_preds bh center scale σ2
              = (Ok (preds2, maxvals2), σ2')
            ∧ ∀ n p k, n < N → p < J → k < 2 →
                ∃ v1 v2, entry3 σ1' preds1 n p k = Some v1
                  ∧ entry3 σ2' preds2 n p k = Some v2
                  ∧ (v1 == v2)%Q)).
Proof.
  split; [intros; by apply get_affine_transform_scale0|].
  intros σ1 σ2 bh center scale N J H W Hb1 Hb2 Hc1 Hc2 Hs1 Hs2 Hbh Hcen Hsca.
  destruct (_get_final_preds_entries σ1 bh center scale N J H W Hb1 Hc1 Hs1)
    as (r & Hr & Hrun1).
  destruct (_get_final_preds_entries σ2 bh center scale N J H W Hb2 Hc2 Hs2)
    as (r' & Hr' & Hrun2).
  rewrite <-Hbh, Hr in Hr'. injection Hr' as <-.
  cbv zeta in Hrun1, Hrun2. rewrite <-Hbh in Hrun2.
  set (dt := nd_dtype bh) in *.
  set (B := r ≫= stored_peak dt W) in *.
  set (coords := coords_after dt W H (contents σ1 bh) N J B) in *.
  destruct (refused dt W H N J B) eqn:Href.
  { left. split.
    - intros Hdt. fold dt in Hdt. rewrite Hdt, refused_float32 in Href.
      discriminate.
    - destruct Hrun1 as (σ1' & Hrun1), Hrun2 as (σ2' & Hrun2).
      by exists σ1', σ2'. }
  right.
  destruct Hrun1 as (preds1 & maxvals1 & σ1' & Hrun1 & Hj1).
  destruct Hrun2 as (preds2 & maxvals2 & σ2' & Hrun2 & Hj2).
  exists preds1, maxvals1, σ1', preds2, maxvals2, σ2'.
  split; [exact Hrun1|]. split; [exact Hrun2|].
  intros n p k Hn Hp Hk.
  destruct (Hj1 n p Hn Hp)
    as (i & m & c & s & _ & _ & Hcn & Hsn & _ & Hx & Hy).
  destruct (Hj2 n p Hn Hp)
    as (i' & m' & c' & s' & _ & _ & Hcn' & Hsn' & _ & Hx' & Hy').
  rewrite <-Hcen in Hcn'.
  assert (c' = c) as -> by congruence.
  pose proof (Forall2_lookup_lr _ _ _ _ _ _ Hsca Hsn Hsn') as Hss.
  pose proof (get_affine_transform_scale0 c 0 (of_nat W, of_nat H) 1 s s' Hss)
    as Hmat.
  fold (inverse_transform W H c s) in Hmat.
  fold (inverse_transform W H c s') in Hmat.
  assert (length coords = N * J * 2) as Hlco.
  { assert (length r = N * J) as Hlr.
    { apply length_mapM in Hr. by rewrite length_chunks in Hr. }
    unfold coords, coords_after. destruct (decide _).
    - rewrite length_refine_all. unfold B.
      rewrite (length_bind_const _ _ 2) by done. lia.
    - unfold B. rewrite (length_bind_const _ _ 2) by done. lia. }
  set (R := take 2 (drop ((n * J + p) * 2) coords)) in *.
  assert (length R = 2) as HR.
  { unfold R. rewrite length_take, length_drop. nia. }
  destruct R as [|a [|b [|? ?]]]; try done.
  destruct (affine_xy_mat_eq _ _ a b k Hmat Hk) as (v & v' & Hv & Hv' & Hvv).
  exists v, v'. destruct k as [|[|k]]; [| |lia].
  - by rewrite Hx, Hx'.
  - by rewrite Hy, Hy'.
Qed.

Lemma scale_second_component_unused_witness :
  ∃ preds1 maxvals1 σ1' preds2 maxvals2 σ2',
    @_get_final_preds taylor_trig demo_heatmaps demo_center demo_scale
                      demo_store = (Ok (preds1, maxvals1), σ1')
    ∧ @_get_final_preds taylor_trig demo_heatmaps demo_center demo_scale
                        demo_store_tall = (Ok (preds2, maxvals2), σ2')
    ∧ ∀ n p k, n < 1 → p < 1 → k < 2 →
        ∃ v1 v2, entry3 σ1' preds1 n p k = Some v1
          ∧ entry3 σ2' preds2 n p k = Some v2
          ∧ (v1 == v2)%Q.
Proof.
  destruct (proj2 (@scale_second_component_unused taylor_trig)
              demo_store demo_store_tall demo_heatmaps demo_center demo_scale
              1 1 5 5) as [[Hdt _]|Hok].
  - split; [reflexivity|]. split; [|lia].
    eexists. split; [reflexivity|]. vm_compute. lia.
  - split; [reflexivity|]. split; [|lia].
    eexists. split; [reflexivity|]. vm_compute. lia.
  - split; [reflexivity|]. eexists. split; [reflexivity|]. vm_compute. lia.
  - split; [reflexivity|]. eexists. split; [reflexivity|]. vm_compute. lia.
  - split; [reflexivity|]. eexists. split; [reflexivity|]. vm_compute. lia.
  - split; [reflexivity|]. eexists. split; [reflexivity|]. vm_compute. lia.
  - reflexivity.
  - reflexivity.
  - vm_compute. constructor; [reflexivity|constructor].
  - exfalso. by apply Hdt.
  - exact Hok.
Defined.

(** C9.  Whatever its arguments, and whether it returns or raises,
    [_get_final_preds] leaves every buffer that existed before the call as
    it was: the store it reaches is the old store followed by the buffers
    the call allocated, so the heatmap batch, [center] and [scale] read
    the same afterwards. *)
Theorem _get_final_preds_frame `{trig : NumpyTrig} σ bh center scale :
  ∃ ext,
    (_get_final_preds bh center scale σ).2 = σ ++ ext
    ∧ ∀ a, valid σ a → contents (σ ++ ext) a = contents σ a.
Proof.
  destruct (keeps__get_final_preds (length σ) bh center scale σ)
    as (Ht & Hl & _); [done|].
  exists (drop (length σ) (_get_final_preds bh center scale σ).2).
  split.
  - rewrite <-(take_drop (length σ) (_get_final_preds bh center scale σ).2)
      at 1.
    by rewrite Ht, take_ge.
  - intros a Ha. by apply contents_old.
Qed.

(** C10.  [_get_deconv_cfg] returns a configuration for the kernel sizes 4,
    3 and 2; for every other kernel size its [return] reads unbound
    locals and the call fails. *)
Theorem _get_deconv_cfg_kernels (deconv_kernel : Z) :
  _get_deconv_cfg deconv_kernel =
    if decide (deconv_kernel = 4)%Z then Ok (4, 1, 0)%Z
    else if decide (deconv_kernel = 3)%Z then Ok (3, 1, 1)%Z
    else if decide (deconv_kernel = 2)%Z then Ok (2, 0, 0)%Z
    else Raise UnboundLocalError.
Proof.
  unfold _get_deconv_cfg.
  repeat case_decide; subst; try reflexivity.
  destruct (Z.eqb_spec deconv_kernel 4); [done|].
  destruct (Z.eqb_spec deconv_kernel 3); [done|].
  destruct (Z.eqb_spec deconv_kernel 2); [done|].
  reflexivity.
Qed.

(** * Further properties of the code *)

(** ** The reference triangles and the transform *)

(** X1.  [get_3rd_point a b] completes a right-angled isosceles triangle at
    [b]: the new side is perpendicular to the side from [b] to [a] and as
    long, so the three points are collinear only when [a] and [b]
    coincide. *)
Theorem get_3rd_point_right_isosceles (a b : Q * Q) :
  let c := get_3rd_point a b in
  let u := vsub a b in
  let v := vsub c b in
  (fst u * fst v + snd u * snd v == 0)%Q
  ∧ (fst v * fst v + snd v * snd v == fst u * fst u + snd u * snd u)%Q
  ∧ ((det3 (mkTri a b c) == 0)%Q ↔ pt_eq a b).
Proof.
  intros c u v. split; [|split].
  - destruct a as [ax ay], b as [bx by'].
    unfold v, u, c, get_3rd_point, vadd, vsub. cbn [fst snd]. ring.
  - destruct a as [ax ay], b as [bx by'].
    unfold v, u, c, get_3rd_point, vadd, vsub. cbn [fst snd]. ring.
  - unfold c. rewrite det3_third_point. unfold pt_eq. split.
    + intros [HX HY]%sum_squares_zero. split; lra.
    + intros [Hx Hy]. rewrite Hx, Hy. ring.
Qed.

(** X2.  [get_dir] multiplies the squared length of the vector it turns
    by sin^2 + cos^2 of the angle, whatever values [np.sin] and [np.cos]
    return: it keeps the length as far as that sum is 1. *)
Theorem get_dir_preserves_norm `{trig : NumpyTrig} (p : Q * Q)
    (rot_rad : Q) :
  let q := get_dir p rot_rad in
  (fst q * fst q + snd q * snd q
   == (np_sin rot_rad * np_sin rot_rad + np_cos rot_rad * np_cos rot_rad)
      * (fst p * fst p + snd p * snd p))%Q.
Proof.
  intros q. unfold q, get_dir. cbn [fst snd]. ring.
Qed.







(** ** Peaks and their refinement *)



(** X7.  Whatever its argument, and whether it returns or raises,
    [get_max_pred] only allocates: the buffers that existed before the
    call are as they were, and the two arrays it returns are buffers of
    its own. *)
Theorem get_max_pred_allocates_only σ bh :
  ∃ ext,
    (get_max_pred bh σ).2 = σ ++ ext
    ∧ ∀ preds maxvals, (get_max_pred bh σ).1 = Ok (preds, maxvals) →
        length σ ≤ nd_loc preds ∧ length σ ≤ nd_loc maxvals.
Proof.
  destruct (keeps_get_max_pred (length σ) bh σ) as (Ht & Hl & HQ); [done|].
  exists (drop (length σ) (get_max_pred bh σ).2). split.
  - rewrite <-(take_drop (length σ) (get_max_pred bh σ).2) at 1.
    by rewrite Ht, take_ge.
  - intros preds maxvals Hr. by apply (HQ _ Hr).
Qed.

(** X8.  On coordinates of the element type of the heatmaps the
    post-processing loop moves a coordinate by at most a quarter of a pixel
    along each axis; a coordinate that was a whole number, as
    [get_max_pred] returns them, still rounds to the same pixel. *)
Theorem post_processing_moves_quarter_pixel σ bh coords N J H W :
  batch4 σ bh N J H W →
  nd_shape coords = [N; J; 2] → valid σ coords →
  nd_loc coords ≠ nd_loc bh →
  nd_dtype coords = nd_dtype bh →
  ∃ σ',
    post_processing bh coords W H σ = (Ok tt, σ')
    ∧ ∀ n p, n < N → p < J →
        ∃ x y x' y',
          entry3 σ coords n p 0 = Some x
          ∧ entry3 σ coords n p 1 = Some y
          ∧ entry3 σ' coords n p 0 = Some x'
          ∧ entry3 σ' coords n p 1 = Some y'
          ∧ (Qabs (x' - x) <= 1 # 4)%Q ∧ (Qabs (y' - y) <= 1 # 4)%Q
          ∧ (∀ k : Z, (x == inject_Z k)%Q → Qfloor (x' + (1 # 2)) = k)
          ∧ (∀ k : Z, (y == inject_Z k)%Q → Qfloor (y' + (1 # 2)) = k).
Proof.
  intros Hb Hsc Hv Hne Hdt.
  destruct (post_processing_joint σ bh coords N J H W Hb Hsc Hv Hne Hdt)
    as (B & HB & HlB & Hrun & Hj).
  eexists. split; [exact Hrun|].
  intros n p Hn Hp.
  destruct (Hj n p Hn Hp) as (x & y & x' & y' & Hx & Hy & Hx' & Hy' & Href).
  destruct (refine_xy_close _ _ _ _ _ _ _ Href) as [Hcx Hcy].
  exists x, y, x', y'. do 4 (split; [done|]).
  split; [exact Hcx|]. split; [exact Hcy|].
  apply Qabs_Qle_condition in Hcx, Hcy.
  split; intros k Hk; apply Qfloor_between;
    rewrite ?inject_Z_plus; change (inject_Z 1) with 1%Q; lra.
Qed.

Lemma post_processing_moves_quarter_pixel_witness :
  batch4 demo_coords_store demo_heatmaps 1 1 5 5
  ∧ nd_shape demo_coords = [1; 1; 2]
  ∧ valid demo_coords_store demo_coords
  ∧ nd_loc demo_coords ≠ nd_loc demo_heatmaps
  ∧ nd_dtype demo_coords = nd_dtype demo_heatmaps
  ∧ ∃ σ', post_processing demo_heatmaps demo_coords 5 5 demo_coords_store
          = (Ok tt, σ').
Proof.
  assert (batch4 demo_coords_store demo_heatmaps 1 1 5 5) as Hb.
  { split; [reflexivity|]. split; [|lia].
    eexists. split; [reflexivity|]. vm_compute. lia. }
  assert (valid demo_coords_store demo_coords) as Hv.
  { eexists. split; [reflexivity|]. vm_compute. lia. }
  assert (nd_loc demo_coords ≠ nd_loc demo_heatmaps) as Hne by (simpl; lia).
  split; [exact Hb|]. split; [reflexivity|]. split; [exact Hv|].
  split; [exact Hne|]. split; [reflexivity|].
  destruct (post_processing_moves_quarter_pixel demo_coords_store
              demo_heatmaps demo_coords 1 1 5 5 Hb eq_refl Hv Hne eq_refl)
    as (σ' & Hrun & _).
  by exists σ'.
Defined.

(** X9.  A heatmap with fewer than four columns or fewer than four rows
    has no pixel with 1 < px < W-1 and 1 < py < H-1: the post-processing
    loop then changes nothing at all. *)
Theorem post_processing_skips_small_heatmaps σ bh coords N J H W :
  batch4 σ bh N J H W →
  nd_shape coords = [N; J; 2] → valid σ coords →
  nd_loc coords ≠ nd_loc bh →
  W < 4 ∨ H < 4 →
  post_processing bh coords W H σ = (Ok tt, σ).
Proof.
  intros Hb Hsc Hv Hne Hsmall.
  by apply (post_processing_small σ bh coords N J H W).
Qed.

Lemma post_processing_skips_small_heatmaps_witness :
  batch4 narrow_store dark_heatmaps 1 1 1 2
  ∧ nd_shape demo_coords = [1; 1; 2]
  ∧ valid narrow_store demo_coords
  ∧ nd_loc demo_coords ≠ nd_loc dark_heatmaps
  ∧ (2 < 4 ∨ 1 < 4)
  ∧ post_processing dark_heatmaps demo_coords 2 1 narrow_store
    = (Ok tt, narrow_store).
Proof.
  assert (batch4 narrow_store dark_heatmaps 1 1 1 2) as Hb.
  { split; [reflexivity|]. split; [|lia].
    eexists. split; [reflexivity|]. vm_compute. lia. }
  assert (valid narrow_store demo_coords) as Hv.
  { eexists. split; [reflexivity|]. vm_compute. lia. }
  assert (nd_loc demo_coords ≠ nd_loc dark_heatmaps) as Hne by (simpl; lia).
  assert (2 < 4 ∨ 1 < 4) as Hsmall by lia.
  split; [exact Hb|]. split; [reflexivity|]. split; [exact Hv|].
  split; [exact Hne|]. split; [exact Hsmall|].
  exact (post_processing_skips_small_heatmaps narrow_store dark_heatmaps
           demo_coords 1 1 1 2 Hb eq_refl Hv Hne Hsmall).
Defined.

(** ** The predictions of the decoder *)







(** X13.  [transform_preds] returns a new array of the shape of [coords]
    in a buffer of its own, whose row p is [affine_transform] of row p of
    [coords] under the inverse transform of the crop; [coords] and every
    other array are as they were. *)
Theorem transform_preds_maps_each_row `{trig : NumpyTrig} σ coords c s out
    J :
  nd_shape coords = [J; 2] → valid σ coords →
  ∃ target buf,
    transform_preds coords c s out σ = (Ok target, σ ++ [buf])
    ∧ nd_loc target = length σ ∧ nd_off target = 0
    ∧ nd_shape target = [J; 2] ∧ length buf = J * 2
    ∧ ∀ p, p < J →
        ∃ x y u v,
          contents σ coords !! (p * 2) = Some x
          ∧ contents σ coords !! (p * 2 + 1) = Some y
          ∧ buf !! (p * 2) = Some u ∧ buf !! (p * 2 + 1) = Some v
          ∧ affine_transform [x; y]
              (get_affine_transform c (ScaleArray s) 0 out default_shift 1)
            = Ok [u; v].
Proof.
  intros Hsh (Bc & HBc & Hlen).
  destruct coords as [lc o sh dt]. cbn [nd_shape nd_loc nd_off] in *.
  subst sh.
  unfold nd_size in Hlen. cbn [nd_shape size foldr] in Hlen.
  rewrite (run_transform_preds lc o J c s out σ Bc) by (done || lia).
  set (t := get_affine_transform c (ScaleArray s) 0 out default_shift 1).
  eexists _, _. split; [reflexivity|]. do 3 (split; [reflexivity|]).
  split; [apply length_target_buffer|].
  intros p Hp.
  destruct (pair_at Bc (o + p * 2)) as (x & y & Hx & Hy & Hxy); [lia|].
  pose proof (target_buffer_row t Bc o J p ltac:(lia) Hp) as Hrow.
  rewrite Hxy in Hrow.
  change (affine_xy t [x; y])
    with [ (m00 t * x + m01 t * y + m02 t * 1)%Q;
           (m10 t * x + m11 t * y + m12 t * 1)%Q ] in Hrow.
  apply seg_lookup in Hrow as [Hu Hv].
  eexists x, y, _, _.
  unfold contents, window, nd_size. cbn [nd_shape nd_loc nd_off size foldr].
  rewrite HBc, !lookup_take_lt, !lookup_drop by lia.
  split; [exact Hx|].
  split; [by replace (o + (p * 2 + 1)) with (S (o + p * 2)) by lia|].
  split; [exact Hu|].
  split; [by replace (p * 2 + 1) with (S (p * 2)) by lia|].
  reflexivity.
Qed.

Lemma transform_preds_maps_each_row_witness :
  nd_shape demo_row = [1; 2]
  ∧ valid demo_coords_store demo_row
  ∧ ∃ target buf,
      @transform_preds taylor_trig demo_row (10, 20)%Q (8, 8)%Q
                       (5, 5)%Q demo_coords_store
      = (Ok target, demo_coords_store ++ [buf]).
Proof.
  assert (valid demo_coords_store demo_row) as Hv.
  { eexists. split; [reflexivity|]. vm_compute. lia. }
  split; [reflexivity|]. split; [exact Hv|].
  destruct (@transform_preds_maps_each_row taylor_trig demo_coords_store
              demo_row (10, 20)%Q (8, 8)%Q (5, 5)%Q 1 eq_refl Hv)
    as (target & buf & Hrun & _).
  by exists target, buf.
Defined.

(** ** The deconvolution layers *)

(** X14.  When [num_layers] is the length of both tuples and every kernel
    size is 2, 3 or 4, [_make_deconv_layer] returns, for each pair of a
    filter count and a kernel size in order, a transposed convolution of
    stride 2 with the padding and output padding of [_get_deconv_cfg], a
    batch normalisation and a ReLU; it leaves the last filter count in
    [self.inplanes], which it does not touch when there is no layer. *)
Theorem _make_deconv_layer_builds (self : attrs) (num_layers : Z)
    (num_filters num_kernels : list Z) :
  num_layers = Z.of_nat (length num_filters) →
  num_layers = Z.of_nat (length num_kernels) →
  Forall known_kernel num_kernels →
  _make_deconv_layer self num_layers num_filters num_kernels
  = (Returned (zip num_filters num_kernels
               ≫= deconv_blocks (deconv_with_bias self)),
     mkAttrs (deconv_with_bias self)
             (match last num_filters with
              | Some planes => Some planes
              | None => inplanes self
              end)).
Proof.
  intros Hf Hk Hall. unfold _make_deconv_layer.
  rewrite <-Hf, <-Hk, Z.eqb_refl. cbn [negb].
  rewrite (deconv_loop_run num_filters num_kernels) by (done || lia).
  by rewrite !drop_0.
Qed.

Lemma _make_deconv_layer_builds_witness :
  _make_deconv_layer (mkAttrs false None) 3 [256; 256; 256]%Z [4; 4; 4]%Z
  = (Returned (zip [256; 256; 256]%Z [4; 4; 4]%Z ≫= deconv_blocks false),
     mkAttrs false (Some 256%Z)).
Proof.
  apply (_make_deconv_layer_builds (mkAttrs false None) 3
           [256; 256; 256]%Z [4; 4; 4]%Z).
  - reflexivity.
  - reflexivity.
  - repeat constructor; unfold known_kernel; lia.
Defined.

(** X15.  The three ways [_make_deconv_layer] can end.  It returns exactly
    when [num_layers] is the length of both tuples and every kernel size
    is 2, 3 or 4.  A length that differs fails an [assert], and the
    message names [num_deconv_filters] also when it is the kernels that
    differ.  With the lengths right, a kernel size without a branch in
    [_get_deconv_cfg] raises UnboundLocalError; no index is ever out of
    range. *)
Theorem _make_deconv_layer_outcomes (self : attrs) (num_layers : Z)
    (num_filters num_kernels : list Z) :
  match (_make_deconv_layer self num_layers num_filters num_kernels).1 with
  | Returned _ =>
      num_layers = Z.of_nat (length num_filters)
      ∧ num_layers = Z.of_nat (length num_kernels)
      ∧ Forall known_kernel num_kernels
  | AssertionError message =>
      message = deconv_assert_message
      ∧ (num_layers ≠ Z.of_nat (length num_filters)
         ∨ num_layers ≠ Z.of_nat (length num_kernels))
  | Raised e =>
      e = UnboundLocalError
      ∧ num_layers = Z.of_nat (length num_filters)
      ∧ num_layers = Z.of_nat (length num_kernels)
      ∧ ¬ Forall known_kernel num_kernels
  end.
Proof.
  unfold _make_deconv_layer.
  destruct (Z.eqb_spec num_layers (Z.of_nat (length num_filters)))
    as [Hf|Hf]; cbn [negb]; [|by split; [|left]].
  destruct (Z.eqb_spec num_layers (Z.of_nat (length num_kernels)))
    as [Hk|Hk]; cbn [negb]; [|by split; [|right]].
  pose proof (deconv_loop_outcome num_filters num_kernels ltac:(lia)
                (Z.to_nat num_layers) 0 [] self ltac:(lia)) as Hloop.
  rewrite drop_0 in Hloop.
  destruct (deconv_loop _ _ _ _ _) as [[ls|msg|e] self']; cbn [fst] in *.
  - done.
  - done.
  - destruct Hloop as [-> Hbad]. done.
Qed.
